(** * yt-hoover: the text-extraction engine of [src/nlp_processor.py]

    A shallow embedding of [AdvancedNLPProcessor] and the properties of its
    methods, together with two pure pieces of its callers in
    [src/yt_hoover.py]: [YouTubeExtractor.extract_video_id] and the
    conversion of the markdown report to html.

    Conventions of the embedding.
    - A Python [str] is a list of characters; a character is a code point
      below 256, and the character classes ([\w], [\s], [\d], [str.lower],
      [str.isspace]) are those of CPython on that range.
    - A Python [float] confidence is an exact rational ([Q]); the rounding of
      IEEE additions is not represented.
    - A Python [dict] with fixed keys that is used as a record is a [Record];
      the [confidence_scores] dict is a finite map; the [set] of urls is a
      finite set; a lexicon [set] is given by the sequence in which the
      interpreter iterates over it.
    - [re] is the backtracking matcher of module [Re] below, over the
      constructs that the patterns of the program use. *)

From Stdlib Require Import Ascii String List QArith Qminmax ZArith Lia Bool Lqa.
From stdpp Require Import gmap strings list sorting.

Set Default Proof Using "Type*".

(* ================================================================= *)
(** * Part I: definitions *)
(* ================================================================= *)

(** ** Python strings *)

Definition str := list ascii.

Definition py (s : string) : str := list_ascii_of_string s.

Module PyStr.

Definition code (c : ascii) : N := N_of_ascii c.

Definition in_range (lo hi : N) (c : ascii) : bool :=
  ((lo <=? code c) && (code c <=? hi))%N.

(** [\d]: the decimal digits. *)
Definition is_digit (c : ascii) : bool := in_range 48 57 c.

(** [str.isalnum] on one character. *)
Definition is_alnum (c : ascii) : bool :=
  in_range 48 57 c || in_range 65 90 c || in_range 97 122 c
  || (code c =? 170)%N || in_range 178 179 c || (code c =? 181)%N
  || in_range 185 186 c || in_range 188 190 c
  || in_range 192 214 c || in_range 216 246 c || in_range 248 255 c.

(** [\w]: alphanumeric or underscore. *)
Definition is_word (c : ascii) : bool := is_alnum c || (code c =? 95)%N.

(** [\s] and [str.isspace]. *)
Definition is_space (c : ascii) : bool :=
  in_range 9 13 c || in_range 28 32 c || (code c =? 133)%N || (code c =? 160)%N.

(** [str.lower] on one character. *)
Definition lower_char (c : ascii) : ascii :=
  if in_range 65 90 c || (in_range 192 222 c && negb (code c =? 215)%N)
  then ascii_of_N (code c + 32) else c.

(** [s.lower()] *)
Definition lower (s : str) : str := map lower_char s.

Fixpoint lstrip (p : ascii -> bool) (s : str) : str :=
  match s with
  | c :: t => if p c then lstrip p t else s
  | [] => []
  end.

Definition rstrip (p : ascii -> bool) (s : str) : str :=
  rev (lstrip p (rev s)).

(** [s.strip(chars)] with [p] the membership test of [chars]. *)
Definition strip_chars (p : ascii -> bool) (s : str) : str :=
  rstrip p (lstrip p s).

(** [s.strip()] *)
Definition strip (s : str) : str := strip_chars is_space s.

(** [s.split()]: the maximal runs of non-whitespace characters. [cur] is
    the current run, reversed. *)
Fixpoint split_from (cur : str) (s : str) : list str :=
  match s with
  | [] => match cur with [] => [] | _ => [rev cur] end
  | c :: t =>
      if is_space c
      then match cur with
           | [] => split_from [] t
           | _ => rev cur :: split_from [] t
           end
      else split_from (c :: cur) t
  end.

Definition split (s : str) : list str := split_from [] s.

Definition str_eqb (a b : str) : bool := bool_decide (a = b).

(** [s.startswith(p)] *)
Fixpoint startswith (p s : str) : bool :=
  match p, s with
  | [], _ => true
  | a :: p', b :: s' => Ascii.eqb a b && startswith p' s'
  | _ :: _, [] => false
  end.

(** [sub in s] *)
Fixpoint contains (sub s : str) : bool :=
  startswith sub s ||
  match s with
  | [] => false
  | _ :: t => contains sub t
  end.

(** [s.count(sub)] for a non-empty [sub]: occurrences are counted from the
    left and do not overlap; [skip] characters of the last occurrence are
    still to be passed. *)
Fixpoint count_from (sub : str) (skip : nat) (s : str) : nat :=
  match s with
  | [] => 0
  | _ :: t =>
      match skip with
      | S n => count_from sub n t
      | O => if startswith sub s
             then S (count_from sub (length sub - 1) t)
             else count_from sub 0 t
      end
  end.

(** [s.count(sub)]; the empty string occurs [len(s) + 1] times. *)
Definition count (sub s : str) : nat :=
  match sub with
  | [] => length s + 1
  | _ => count_from sub 0 s
  end.

(** [x in l] for a list of strings. *)
Definition in_list (x : str) (l : list str) : bool :=
  existsb (str_eqb x) l.

(** [l[start:stop]] for [0 <= start] and [0 <= stop <= len(l)]. *)
Definition slice {A} (l : list A) (start stop : Z) : list A :=
  firstn (Z.to_nat stop - Z.to_nat start) (skipn (Z.to_nat start) l).

End PyStr.

(** ** The regular expressions of [re] that the program uses *)

Module Re.
Import PyStr.

Record flags := { IGNORECASE : bool; MULTILINE : bool }.

Definition no_flags : flags := {| IGNORECASE := false; MULTILINE := false |}.

(** Repetition is only ever applied to a character class in the patterns
    of the program, so the syntax has no general star. [.] under
    [re.DOTALL] is the class of all characters. *)
Inductive regex : Type :=
| Eps
| Lit (c : ascii)
| Cls (p : ascii -> bool)
| Seq (r1 r2 : regex)
| Alt (r1 r2 : regex)
| Opt (r : regex)
| Star (p : ascii -> bool)
| LazyStar (p : ascii -> bool)
| Grp (n : nat) (r : regex)
| Bol
| WordB.

(** [[class]+] *)
Definition Plus (p : ascii -> bool) : regex := Seq (Cls p) (Star p).

(** A literal string, as [re.escape] produces. *)
Fixpoint lit (s : str) : regex :=
  match s with
  | [] => Eps
  | c :: t => Seq (Lit c) (lit t)
  end.

(** [r|r1|...|rn] *)
Fixpoint alts (r : regex) (l : list regex) : regex :=
  match l with
  | [] => r
  | r' :: l' => Alt r (alts r' l')
  end.

(** The matcher's state: the character before the current position, the
    text from the current position on, the number of characters consumed
    since the start of the match, and the groups captured so far (the most
    recent first). *)
Record mstate := {
  m_prev : option ascii;
  m_rest : str;
  m_pos : nat;
  m_caps : list (nat * str)
}.

Definition lit_eq (fl : flags) (c x : ascii) : bool :=
  if IGNORECASE fl then Ascii.eqb (lower_char x) (lower_char c)
  else Ascii.eqb x c.

Definition word_opt (o : option ascii) : bool :=
  match o with Some c => is_word c | None => false end.

(** [\b]: exactly one of the two neighbours is a word character. *)
Definition at_boundary (prev : option ascii) (s : str) : bool :=
  xorb (word_opt prev) (word_opt (head s)).

(** [^]: the start of the text, and with [re.MULTILINE] also the position
    after a newline. *)
Definition at_bol (fl : flags) (prev : option ascii) : bool :=
  match prev with
  | None => true
  | Some c => MULTILINE fl && Ascii.eqb c "010"
  end.

Definition set_cap (n : nat) (v : str) (st : mstate) : mstate :=
  {| m_prev := m_prev st; m_rest := m_rest st; m_pos := m_pos st;
     m_caps := (n, v) :: m_caps st |}.

Definition cont := mstate -> option mstate.

(** Greedy [[class]*]: take as many characters as possible and give them
    back one at a time while the rest of the pattern fails. *)
Fixpoint star_greedy (p : ascii -> bool) (k : cont) (caps : list (nat * str))
    (prev : option ascii) (pos : nat) (s : str) : option mstate :=
  let here := k {| m_prev := prev; m_rest := s; m_pos := pos; m_caps := caps |} in
  match s with
  | c :: t =>
      if p c
      then match star_greedy p k caps (Some c) (S pos) t with
           | Some m => Some m
           | None => here
           end
      else here
  | [] => here
  end.

(** Lazy [[class]*?]: try the rest of the pattern first and take one more
    character only when it fails. *)
Fixpoint star_lazy (p : ascii -> bool) (k : cont) (caps : list (nat * str))
    (prev : option ascii) (pos : nat) (s : str) : option mstate :=
  match k {| m_prev := prev; m_rest := s; m_pos := pos; m_caps := caps |} with
  | Some m => Some m
  | None =>
      match s with
      | c :: t => if p c then star_lazy p k caps (Some c) (S pos) t else None
      | [] => None
      end
  end.

Definition step (ok : ascii -> bool) (st : mstate) (k : cont) : option mstate :=
  match m_rest st with
  | c :: t =>
      if ok c
      then k {| m_prev := Some c; m_rest := t; m_pos := S (m_pos st);
                m_caps := m_caps st |}
      else None
  | [] => None
  end.

(** The backtracking matcher: [rmatch fl r st k] matches [r] at [st] and
    passes the state reached to the continuation [k], the rest of the
    pattern; alternatives are tried in order. *)
Fixpoint rmatch (fl : flags) (r : regex) (st : mstate) (k : cont) : option mstate :=
  match r with
  | Eps => k st
  | Lit c => step (lit_eq fl c) st k
  | Cls p => step p st k
  | Seq r1 r2 => rmatch fl r1 st (fun st' => rmatch fl r2 st' k)
  | Alt r1 r2 =>
      match rmatch fl r1 st k with
      | Some m => Some m
      | None => rmatch fl r2 st k
      end
  | Opt r1 =>
      match rmatch fl r1 st k with
      | Some m => Some m
      | None => k st
      end
  | Star p => star_greedy p k (m_caps st) (m_prev st) (m_pos st) (m_rest st)
  | LazyStar p => star_lazy p k (m_caps st) (m_prev st) (m_pos st) (m_rest st)
  | Grp n r1 =>
      rmatch fl r1 st
        (fun st' => k (set_cap n (firstn (m_pos st' - m_pos st) (m_rest st)) st'))
  | Bol => if at_bol fl (m_prev st) then k st else None
  | WordB => if at_boundary (m_prev st) (m_rest st) then k st else None
  end.

(** A match object: [m.group(0)] and the captured groups. *)
Record matched := { whole : str; caps : list (nat * str) }.

(** [m.group(n)] as [findall] reports it: the empty string for a group
    that did not take part in the match. *)
Fixpoint lookup_cap (n : nat) (l : list (nat * str)) : str :=
  match l with
  | [] => []
  | (i, v) :: l' => if Nat.eqb i n then v else lookup_cap n l'
  end.

Definition group (n : nat) (m : matched) : str := lookup_cap n (caps m).

(** The match of [r] that starts at the current position, if any: what
    [pattern.match(text, pos)] returns. *)
Definition match_at (fl : flags) (r : regex) (prev : option ascii) (s : str)
    : option matched :=
  match rmatch fl r {| m_prev := prev; m_rest := s; m_pos := 0; m_caps := [] |} Some with
  | Some st => Some {| whole := firstn (m_pos st) s; caps := m_caps st |}
  | None => None
  end.

(** The leftmost matches from the current position on, none overlapping
    another; [skip] characters of the last match are still to be passed.
    (The patterns that the program passes to [re.findall] match no empty
    string, so the rule of [re] for the search after an empty match is not
    represented.) *)
Fixpoint scan (fl : flags) (r : regex) (prev : option ascii) (s : str)
    (skip : nat) : list matched :=
  match skip with
  | S n =>
      match s with
      | [] => []
      | c :: t => scan fl r (Some c) t n
      end
  | O =>
      match match_at fl r prev s with
      | Some m =>
          m :: match s with
               | [] => []
               | c :: t => scan fl r (Some c) t (length (whole m) - 1)
               end
      | None =>
          match s with
          | [] => []
          | c :: t => scan fl r (Some c) t 0
          end
      end
  end.

Definition finditer (fl : flags) (r : regex) (text : str) : list matched :=
  scan fl r None text 0.

(** [re.search(r, text)] *)
Definition search (fl : flags) (r : regex) (text : str) : option matched :=
  head (finditer fl r text).

(** [re.findall] for a pattern without a group, with one group, and with
    two groups. *)
Definition findall0 (fl : flags) (r : regex) (text : str) : list str :=
  map whole (finditer fl r text).

Definition findall1 (fl : flags) (r : regex) (text : str) : list str :=
  map (group 1) (finditer fl r text).

Definition findall2 (fl : flags) (r : regex) (text : str) : list (str * str) :=
  map (fun m => (group 1 m, group 2 m)) (finditer fl r text).

End Re.

(** ** The values that the processor produces *)

Inductive Category : Type :=
| programming_language
| framework_library
| platform_service
| company_brand
| file_format
| api_protocol
| technical_concept
| unknown.

(** The dict [{'text': .., 'confidence': .., 'category': ..}]. *)
Module Entity.
Record t := { text : str; confidence : Q; category : Category }.
End Entity.

Inductive SnippetType : Type := code_block | inline_code.

(** The dict [{'type': .., 'language': .., 'code': .., 'confidence': ..}]. *)
Module Snippet.
Record t := { type : SnippetType; language : str; code : str; confidence : Q }.
End Snippet.

(** The dict [{'command': .., 'type': 'cli_command', 'confidence': ..}]. *)
Module Command.
Record t := { command : str; type : string; confidence : Q }.
End Command.

(** The dict that [process_text] returns. *)
Module Result.
Record t := {
  urls : list str;
  tools_and_software : list Entity.t;
  programming_languages : list str;
  frameworks_and_libraries : list str;
  platforms_and_services : list str;
  companies_and_brands : list str;
  file_formats : list str;
  apis_and_protocols : list str;
  technical_concepts : list str;
  code_snippets : list Snippet.t;
  commands : list Command.t;
  confidence_scores : gmap string Q
}.
End Result.

(** ** The patterns of [setup_patterns] *)

(** [url_patterns] and [cli_patterns], and the two patterns of
    [extract_code_snippets]. ([git_patterns] and [package_patterns] are
    assigned by [setup_patterns] and read by no method.) *)

Module Patterns.
Import PyStr Re.

Fixpoint seqs (l : list regex) : regex :=
  match l with
  | [] => Eps
  | r :: l' => Seq r (seqs l')
  end.

Definition chr_in (chars : string) (c : ascii) : bool :=
  existsb (Ascii.eqb c) (py chars).

(** [[-\w.]] *)
Definition cls_host (c : ascii) : bool := chr_in "-" c || is_word c || chr_in "." c.
(** [[:\d]] *)
Definition cls_port (c : ascii) : bool := chr_in ":" c || is_digit c.
(** [[\w/_.]] *)
Definition cls_path (c : ascii) : bool := is_word c || chr_in "/_." c.
(** [[\w&=%.]] *)
Definition cls_query (c : ascii) : bool := is_word c || chr_in "&=%." c.
(** [[\w.]] *)
Definition cls_fragment (c : ascii) : bool := is_word c || chr_in "." c.
(** [.] under [re.DOTALL] *)
Definition cls_any (c : ascii) : bool := true.
(** [[^`]] *)
Definition cls_not_backtick (c : ascii) : bool := negb (chr_in "`" c).

Definition words (l : list string) : list regex := map (fun s => lit (py s)) l.

(** The optional tail of a url: a slash and path characters, then
    optionally a question mark and query characters, then optionally a
    hash sign and fragment characters; each run is greedy and may be
    empty. *)
Definition url_tail : regex :=
  Opt (seqs [Lit "/"; Star cls_path;
             Opt (seqs [Lit "?"; Star cls_query]);
             Opt (seqs [Lit "#"; Star cls_fragment])]).

(** [url_patterns[0]]: [https?://], host characters, optionally a run of
    port characters, and the tail. *)
Definition url_scheme : regex :=
  seqs [lit (py "http"); Opt (Lit "s"); lit (py "://");
        Plus cls_host; Opt (Plus cls_port); url_tail].

(** [url_patterns[1]]: [www\.], host characters, optionally a run of port
    characters, and the tail. *)
Definition url_www : regex :=
  seqs [lit (py "www."); Plus cls_host; Opt (Plus cls_port); url_tail].

(** [url_patterns[2]]: host characters, a dot, one of the suffixes, and
    optionally a slash and path characters. *)
Definition url_domain : regex :=
  seqs [Plus cls_host; Lit ".";
        alts (lit (py "com"))
             (words ["org"; "net"; "edu"; "gov"; "io"; "co"; "ai"; "dev";
                     "app"; "tech"; "cloud"]);
        Opt (seqs [Lit "/"; Star cls_path])].

Definition url_patterns : list regex := [url_scheme; url_www; url_domain].

(** [re.IGNORECASE]: a literal is compared after lower-casing. (The classes
    above contain a character exactly when they contain its lower-case
    form.) *)
Definition url_flags : flags := {| IGNORECASE := true; MULTILINE := false |}.

(** A pattern of [cli_patterns]: [(?:^|\s)], the group of the tool names,
    [\s+] and [\w+]. *)
Definition cli (tool : string) (tools : list string) : regex :=
  seqs [Alt Bol (Cls is_space);
        Grp 1 (alts (lit (py tool)) (words tools));
        Plus is_space; Plus is_word].

Definition cli_patterns : list regex :=
  [cli "docker" ["kubectl"; "helm"; "terraform"; "ansible"; "vagrant"; "chef"; "puppet"];
   cli "aws" ["gcloud"; "az"];
   cli "git" ["svn"; "hg"];
   cli "npm" ["yarn"; "pip"; "composer"; "gem"; "cargo"; "go"]].

(** [re.MULTILINE] *)
Definition cli_flags : flags := {| IGNORECASE := false; MULTILINE := true |}.

(** [code_block_pattern], with [re.DOTALL]: the fence, optionally the group
    [(\w+)], a newline, the lazy group of any characters, a newline and
    the fence. *)
Definition code_block_pattern : regex :=
  seqs [lit (py "```"); Opt (Grp 1 (Plus is_word)); Lit "010";
        Grp 2 (LazyStar cls_any); Lit "010"; lit (py "```")].

(** [inline_pattern]: a backtick, the group of one or more characters other
    than a backtick, a backtick. *)
Definition inline_pattern : regex :=
  seqs [Lit "`"; Grp 1 (Plus cls_not_backtick); Lit "`"].

(** [r'\b' + re.escape(entity) + r'\b'] *)
Definition word_pattern (entity : str) : regex :=
  seqs [WordB; lit entity; WordB].

End Patterns.

(** ** [AdvancedNLPProcessor] *)

(** The attributes that [setup_knowledge_bases] assigns. Each is a Python
    [set]; it is represented by the sequence in which iteration visits its
    elements, which the interpreter fixes when the set is built. *)
Record Processor := {
  programming_languages : list str;
  frameworks_libraries : list str;
  platforms_services : list str;
  companies_brands : list str;
  file_formats : list str;
  apis_protocols : list str;
  technical_concepts : list str
}.

(** A Python [dict] whose order of keys is observed: the keys in the order of
    their first insertion. *)
Module Dict.
Import PyStr.

Definition t (V : Type) := list (str * V).

Fixpoint get {V} (key : str) (d : t V) : option V :=
  match d with
  | [] => None
  | (k, v) :: d' => if str_eqb k key then Some v else get key d'
  end.

(** [d[key] = v]: a key that is present keeps its place. *)
Fixpoint set {V} (key : str) (v : V) (d : t V) : t V :=
  match d with
  | [] => [(key, v)]
  | (k, v') :: d' => if str_eqb k key then (k, v) :: d' else (k, v') :: set key v d'
  end.

Definition values {V} (d : t V) : list V := map snd d.
End Dict.

(** [a < b] on confidences. *)
Definition Q_ltb (a b : Q) : bool := negb (Qle_bool b a).

(** Python's [min(a, b)]: [b] when [b < a], else [a]. *)
Definition py_min (a b : Q) : Q := if Q_ltb b a then b else a.

Section Methods.
Import PyStr Re Patterns.

Definition is_url_punct (c : ascii) : bool := chr_in ".,;:!?" c.

(** The body of the inner loop of [extract_urls]. *)
Definition add_url (urls : gset str) (m : str) : gset str :=
  let url := strip_chars is_url_punct m in
  if negb (bool_decide (url = [])) && (5 <? length url)
  then {[ url ]} ∪ urls else urls.

Definition url_set (text : str) : gset str :=
  foldl (fun urls pattern => foldl add_url urls (findall0 url_flags pattern text))
        ∅ url_patterns.

Definition extract_urls (text : str) : list str := elements (url_set text).

Definition technical_keywords : list str :=
  map py ["using"; "with"; "framework"; "library"; "tool"; "platform"; "service"].

(** [[i for i, word in enumerate(words) if entity in word]], counting from [i]. *)
Fixpoint positions_from (i : Z) (entity : str) (words : list str) : list Z :=
  match words with
  | [] => []
  | word :: rest =>
      if contains entity word
      then i :: positions_from (i + 1) entity rest
      else positions_from (i + 1) entity rest
  end.

(** [words[max(0, pos - 5):min(len(words), pos + 5)]] *)
Definition context_of (words : list str) (pos : Z) : list str :=
  slice words (Z.max 0 (pos - 5)) (Z.min (Z.of_nat (length words)) (pos + 5)).

(** The loop over [entity_positions], left at the first position whose
    context holds a keyword. *)
Fixpoint context_loop (words : list str) (positions : list Z) (base_confidence : Q) : Q :=
  match positions with
  | [] => base_confidence
  | pos :: rest =>
      if existsb (fun keyword => in_list keyword (context_of words pos)) technical_keywords
      then (base_confidence + (1 # 10))%Q
      else context_loop words rest base_confidence
  end.

Definition calculate_confidence (text entity : str) (words : list str) : Q :=
  let base_confidence := (5 # 10)%Q in
  let base_confidence :=
    match search no_flags (word_pattern entity) text with
    | Some _ => (base_confidence + (3 # 10))%Q
    | None => base_confidence
    end in
  let occurrences := count entity text in
  let base_confidence :=
    if (1 <? occurrences)
    then (base_confidence + py_min (2 # 10) (inject_Z (Z.of_nat occurrences) * (5 # 100)))%Q
    else base_confidence in
  let entity_positions := positions_from 0 entity words in
  let base_confidence := context_loop words entity_positions base_confidence in
  py_min 1%Q base_confidence.

Variable self : Processor.

Definition get_entity_category (entity : str) : Category :=
  let entity_lower := lower entity in
  if in_list entity_lower (programming_languages self) then programming_language
  else if in_list entity_lower (frameworks_libraries self) then framework_library
  else if in_list entity_lower (platforms_services self) then platform_service
  else if in_list entity_lower (companies_brands self) then company_brand
  else if in_list entity_lower (file_formats self) then file_format
  else if in_list entity_lower (apis_protocols self) then api_protocol
  else if in_list entity_lower (technical_concepts self) then technical_concept
  else unknown.

(** The first loop of [extract_entities_by_category]: the list [entities]. *)
Fixpoint matched_entities (text_lower : str) (words : list str)
    (knowledge_base : list str) : list Entity.t :=
  match knowledge_base with
  | [] => []
  | entity :: rest =>
      let entity_lower := lower entity in
      if contains entity_lower text_lower
      then {| Entity.text := entity;
              Entity.confidence := calculate_confidence text_lower entity_lower words;
              Entity.category := get_entity_category entity |}
           :: matched_entities text_lower words rest
      else matched_entities text_lower words rest
  end.

(** The body of the second loop of [extract_entities_by_category]: the
    entity is stored under its lower-cased text unless the dict holds one of
    that key that is at least as confident. *)
Definition keep_best (unique_entities : Dict.t Entity.t) (entity : Entity.t)
    : Dict.t Entity.t :=
  let key := lower (Entity.text entity) in
  match Dict.get key unique_entities with
  | None => Dict.set key entity unique_entities
  | Some old =>
      if Q_ltb (Entity.confidence old) (Entity.confidence entity)
      then Dict.set key entity unique_entities
      else unique_entities
  end.

(** [sorted(l, key=lambda x: x['confidence'], reverse=True)]: the sort is
    stable, also with [reverse=True], so an element is put behind the
    elements of larger or equal confidence that precede it. *)
Fixpoint insert_desc (x : Entity.t) (l : list Entity.t) : list Entity.t :=
  match l with
  | [] => [x]
  | y :: l' =>
      if Q_ltb (Entity.confidence x) (Entity.confidence y)
      then y :: insert_desc x l'
      else x :: l
  end.

Definition sorted_by_confidence_reverse (l : list Entity.t) : list Entity.t :=
  foldr insert_desc [] l.

(** The parameter [context_window] of the method is used nowhere in its
    body. *)
Definition extract_entities_by_category (text : str) (knowledge_base : list str)
    : list Entity.t :=
  let text_lower := lower text in
  let words := split text_lower in
  let entities := matched_entities text_lower words knowledge_base in
  let unique_entities := foldl keep_best [] entities in
  sorted_by_confidence_reverse (Dict.values unique_entities).

Definition extract_code_snippets (text : str) : list Snippet.t :=
  let snippets :=
    map (fun '(language, code) =>
           {| Snippet.type := code_block;
              Snippet.language := match language with [] => py "unknown" | _ => language end;
              Snippet.code := strip code;
              Snippet.confidence := (9 # 10)%Q |})
        (findall2 no_flags code_block_pattern text) in
  snippets ++
  flat_map (fun code =>
              if 2 <? length (strip code)
              then [ {| Snippet.type := inline_code;
                        Snippet.language := py "unknown";
                        Snippet.code := strip code;
                        Snippet.confidence := (6 # 10)%Q |} ]
              else [])
           (findall1 no_flags inline_pattern text).

Definition extract_commands (text : str) : list Command.t :=
  flat_map (fun pattern =>
              map (fun m => {| Command.command := strip m;
                               Command.type := "cli_command";
                               Command.confidence := (8 # 10)%Q |})
                  (findall1 cli_flags pattern text))
           cli_patterns.

Definition empty_result : Result.t :=
  {| Result.urls := [];
     Result.tools_and_software := [];
     Result.programming_languages := [];
     Result.frameworks_and_libraries := [];
     Result.platforms_and_services := [];
     Result.companies_and_brands := [];
     Result.file_formats := [];
     Result.apis_and_protocols := [];
     Result.technical_concepts := [];
     Result.code_snippets := [];
     Result.commands := [];
     Result.confidence_scores := ∅ |}.

(** [sum(xs) / max(len(xs), 1)] *)
Definition mean (xs : list Q) : Q :=
  (foldl Qplus 0 xs / inject_Z (Z.of_nat (Nat.max (length xs) 1)))%Q.

Definition software_keywords : list str :=
  map py ["tool"; "software"; "app"; "platform"].

(** [text] is [None] where the caller passes Python's [None]. *)
Definition process_text (text : option str) : Result.t :=
  match text with
  | None | Some [] => empty_result
  | Some text =>
      let urls := extract_urls text in
      let programming_langs := extract_entities_by_category text (programming_languages self) in
      let frameworks := extract_entities_by_category text (frameworks_libraries self) in
      let platforms := extract_entities_by_category text (platforms_services self) in
      let companies := extract_entities_by_category text (companies_brands self) in
      let file_formats' := extract_entities_by_category text (file_formats self) in
      let apis := extract_entities_by_category text (apis_protocols self) in
      let concepts := extract_entities_by_category text (technical_concepts self) in
      let tools_and_software :=
        frameworks ++ platforms ++
        filter (fun item =>
                  existsb (fun keyword => contains keyword (lower (Entity.text item)))
                          software_keywords = true)
               concepts in
      let code_snippets := extract_code_snippets text in
      let commands := extract_commands text in
      let confidence_scores : gmap string Q :=
        <[ "url_extraction" := match urls with [] => 0%Q | _ => (95 # 100)%Q end ]>
        (<[ "entity_extraction" := mean (map Entity.confidence tools_and_software) ]>
        (<[ "code_detection" := mean (map Snippet.confidence code_snippets) ]>
        (<[ "command_detection" := mean (map Command.confidence commands) ]> ∅))) in
      {| Result.urls := urls;
         Result.tools_and_software := tools_and_software;
         Result.programming_languages := map Entity.text programming_langs;
         Result.frameworks_and_libraries := map Entity.text frameworks;
         Result.platforms_and_services := map Entity.text platforms;
         Result.companies_and_brands := map Entity.text companies;
         Result.file_formats := map Entity.text file_formats';
         Result.apis_and_protocols := map Entity.text apis;
         Result.technical_concepts := map Entity.text concepts;
         Result.code_snippets := code_snippets;
         Result.commands := commands;
         Result.confidence_scores := confidence_scores |}
  end.

End Methods.


(** ** The knowledge bases of [setup_knowledge_bases] *)

(** The set literals of the source, element by element. *)
Module KnowledgeBases.

Definition programming_languages : list string :=
[
  "python"; "javascript"; "java"; "c++"; "c#"; "c"; "go"; "rust"; "swift";
  "kotlin"; "typescript"; "php"; "ruby"; "scala"; "r"; "matlab"; "perl";
  "lua"; "dart"; "julia"; "haskell"; "erlang"; "elixir"; "clojure"; "f#";
  "ocaml"; "scheme"; "lisp"; "prolog"; "fortran"; "cobol"; "pascal";
  "delphi"; "visual basic"; "vb.net"; "assembly"; "bash"; "powershell";
  "sql"; "plsql"; "tsql"; "nosql"; "graphql"; "html"; "css"; "sass";
  "less"; "stylus"; "xml"; "json"; "yaml"; "toml"; "ini"; "csv";
  "markdown"; "latex"
].

Definition frameworks_libraries : list string :=
[
  "django"; "flask"; "fastapi"; "tornado"; "pyramid"; "bottle"; "cherrypy";
  "numpy"; "pandas"; "matplotlib"; "seaborn"; "plotly"; "bokeh"; "scipy";
  "scikit-learn"; "tensorflow"; "pytorch"; "keras"; "theano"; "caffe";
  "opencv"; "pillow"; "requests"; "beautifulsoup"; "scrapy"; "selenium";
  "pytest"; "unittest"; "nose"; "tox"; "black"; "flake8"; "mypy"; "react";
  "vue"; "angular"; "svelte"; "ember"; "backbone"; "jquery"; "express";
  "koa"; "hapi"; "fastify"; "nest"; "next.js"; "nuxt"; "gatsby"; "webpack";
  "parcel"; "rollup"; "vite"; "babel"; "eslint"; "jest"; "mocha"; "chai";
  "cypress"; "playwright"; "puppeteer"; "lodash"; "moment"; "axios";
  "fetch"; "socket.io"; "three.js"; "d3"; "spring"; "spring boot";
  "hibernate"; "struts"; "jsf"; "wicket"; "junit"; "testng"; "mockito";
  "maven"; "gradle"; "ant"; "asp.net"; ".net core"; "entity framework";
  "xamarin"; "blazor"; "nunit"; "xunit"; "moq"; "autofac"; "ninject";
  "react native"; "flutter"; "ionic"; "cordova"; "phonegap"; "xamarin";
  "unity"; "unreal engine"; "bootstrap"; "tailwind"; "bulma"; "foundation";
  "semantic ui"; "material ui"; "ant design"; "chakra ui";
  "styled-components"; "mongoose"; "sequelize"; "typeorm"; "prisma";
  "knex"; "bookshelf"
].

Definition platforms_services : list string :=
[
  "aws"; "amazon web services"; "azure"; "google cloud"; "gcp";
  "digitalocean"; "linode"; "vultr"; "heroku"; "netlify"; "vercel";
  "cloudflare"; "fastly"; "akamai"; "github"; "gitlab"; "bitbucket";
  "sourceforge"; "codeberg"; "docker"; "kubernetes"; "openshift";
  "rancher"; "nomad"; "jenkins"; "travis ci"; "circle ci";
  "github actions"; "gitlab ci"; "mysql"; "postgresql"; "mongodb"; "redis";
  "elasticsearch"; "cassandra"; "dynamodb"; "firestore"; "supabase";
  "planetscale"; "sqlite"; "oracle"; "sql server"; "mariadb"; "couchdb";
  "rabbitmq"; "apache kafka"; "redis pub/sub"; "amazon sqs";
  "google pub/sub"; "apache pulsar"; "nats"; "zeromq"; "datadog";
  "new relic"; "splunk"; "elastic stack"; "prometheus"; "grafana";
  "kibana"; "logstash"; "fluentd"; "sentry"; "stripe"; "paypal"; "twilio";
  "sendgrid"; "mailgun"; "auth0"; "firebase"; "amplify"; "sanity";
  "contentful"; "strapi"
].

Definition companies_brands : list string :=
[
  "google"; "microsoft"; "amazon"; "apple"; "meta"; "facebook"; "netflix";
  "uber"; "airbnb"; "spotify"; "slack"; "discord"; "zoom"; "salesforce";
  "oracle"; "ibm"; "intel"; "nvidia"; "amd"; "qualcomm"; "tesla"; "spacex";
  "openai"; "anthropic"; "hugging face"; "databricks"; "snowflake";
  "palantir"; "stripe"; "shopify"; "square"; "paypal"; "adobe"; "autodesk";
  "unity"; "epic games"; "valve"; "steam"; "github"; "gitlab"; "atlassian";
  "jira"; "confluence"; "trello"; "notion"; "airtable"; "figma"; "sketch";
  "canva"; "dropbox"; "box"; "onedrive"; "icloud"
].

Definition file_formats : list string :=
[
  "json"; "xml"; "yaml"; "toml"; "ini"; "csv"; "tsv"; "excel"; "pdf";
  "docx"; "pptx"; "xlsx"; "odt"; "ods"; "odp"; "html"; "css"; "js"; "ts";
  "jsx"; "tsx"; "vue"; "svelte"; "py"; "java"; "cpp"; "c"; "h"; "hpp";
  "cs"; "go"; "rs"; "swift"; "kt"; "php"; "rb"; "scala"; "r"; "matlab";
  "m"; "sql"; "md"; "txt"; "log"; "conf"; "config"; "env"; "dockerfile";
  "docker-compose"; "makefile"; "cmake"; "png"; "jpg"; "jpeg"; "gif";
  "svg"; "webp"; "ico"; "mp4"; "avi"; "mov"; "wmv"; "flv"; "webm"; "mkv";
  "mp3"; "wav"; "flac"; "aac"; "ogg"; "wma"; "zip"; "tar"; "gz"; "bz2";
  "xz"; "7z"; "rar"
].

Definition apis_protocols : list string :=
[
  "rest"; "restful"; "graphql"; "grpc"; "soap"; "websocket"; "http";
  "https"; "ftp"; "sftp"; "ssh"; "tcp"; "udp"; "smtp"; "pop3"; "imap";
  "dns"; "dhcp"; "snmp"; "oauth"; "oauth2"; "jwt"; "saml"; "openid";
  "ldap"; "api"; "webhook"; "rpc"; "json-rpc"; "xml-rpc"; "mqtt"; "amqp";
  "stomp"; "websocket"; "sse"
].

Definition technical_concepts : list string :=
[
  "machine learning"; "deep learning"; "artificial intelligence";
  "neural network"; "computer vision"; "natural language processing";
  "data science"; "big data"; "data mining"; "data analytics";
  "cloud computing"; "edge computing"; "serverless"; "microservices";
  "containerization"; "virtualization"; "devops"; "ci/cd"; "agile";
  "scrum"; "kanban"; "test driven development"; "tdd";
  "behavior driven development"; "bdd"; "domain driven design"; "ddd";
  "clean architecture"; "solid principles"; "design patterns";
  "blockchain"; "cryptocurrency"; "smart contracts"; "defi"; "web3";
  "metaverse"; "augmented reality"; "virtual reality";
  "internet of things"; "iot"; "cybersecurity"; "penetration testing";
  "ethical hacking"; "encryption"; "cryptography"; "ssl"; "tls";
  "load balancing"; "caching"; "cdn"; "database optimization";
  "performance tuning"; "scalability"; "high availability";
  "disaster recovery"; "backup"; "monitoring"; "logging"; "debugging";
  "profiling"; "code review"; "pair programming"; "open source";
  "version control"; "git"; "continuous integration";
  "continuous deployment"; "infrastructure as code"; "automation"
].

End KnowledgeBases.

(** A set literal: repeated elements count once. The sequence taken here is
    the one of the literal; the interpreter may iterate in any other
    sequence, which is why the theorems below hold for every [Processor]. *)
Definition set_literal (l : list string) : list str := remove_dups (map py l).

(** [AdvancedNLPProcessor()] *)
Definition init : Processor :=
  {| programming_languages := set_literal KnowledgeBases.programming_languages;
     frameworks_libraries := set_literal KnowledgeBases.frameworks_libraries;
     platforms_services := set_literal KnowledgeBases.platforms_services;
     companies_brands := set_literal KnowledgeBases.companies_brands;
     file_formats := set_literal KnowledgeBases.file_formats;
     apis_protocols := set_literal KnowledgeBases.apis_protocols;
     technical_concepts := set_literal KnowledgeBases.technical_concepts |}.

(** ** Calls on a processor object *)




(** ** The properties in the words of the specification *)

(** The category lookup: "the first category in the fixed priority order
    whose lexicon set contains the lower-cased term". *)
Definition priority_order (self : Processor) : list (Category * list str) :=
  [(programming_language, programming_languages self);
   (framework_library, frameworks_libraries self);
   (platform_service, platforms_services self);
   (company_brand, companies_brands self);
   (file_format, file_formats self);
   (api_protocol, apis_protocols self);
   (technical_concept, technical_concepts self)].

Definition lookup_category (self : Processor) (term : str) : Category :=
  match find (fun entry => bool_decide (PyStr.lower term ∈ entry.2)) (priority_order self) with
  | Some entry => entry.1
  | None => unknown
  end.

(** The confidence scorer as the specification words it. *)
Module Claimed.
Import PyStr Re.

(** "the term occurs bounded by non-word characters": an occurrence with no
    word character right before it and none right after it. *)
Fixpoint bounded_from (prev : option ascii) (term s : str) : bool :=
  (startswith term s && negb (word_opt prev)
   && negb (word_opt (head (skipn (length term) s))))
  || match s with
     | [] => false
     | c :: t => bounded_from (Some c) term t
     end.

(** "a window of 5 tokens on either side" of the token at [pos]. *)
Definition window (words : list str) (pos : Z) : list str :=
  slice words (Z.max 0 (pos - 5)) (Z.min (Z.of_nat (length words)) (pos + 5 + 1)).

Definition keyword_near (words : list str) (term : str) : bool :=
  existsb (fun pos => existsb (fun keyword => in_list keyword (window words pos))
                              technical_keywords)
          (positions_from 0 term words).

Definition confidence (text term : str) (words : list str) : Q :=
  Qmin 1 ((5 # 10)
          + (if bounded_from None term text then 3 # 10 else 0)
          + (if 1 <? count term text
             then Qmin (2 # 10) (inject_Z (Z.of_nat (count term text)) * (5 # 100))
             else 0)
          + (if keyword_near words term then 1 # 10 else 0))%Q.

End Claimed.

(** The two conditions of the scorer as the code has them. *)

(** The character before the position that follows [pre], when [prev] is the
    character before [pre]. *)
Definition last_or (prev : option ascii) (pre : str) : option ascii :=
  match last pre with
  | Some c => Some c
  | None => prev
  end.

(** An occurrence of [entity] in [text] with a word boundary at both ends: at
    each end exactly one of the two neighbouring characters is a word
    character, the ends of the text counting as no word character. *)
Definition boundary_occurrence (text entity : str) : Prop :=
  exists pre post,
    text = pre ++ entity ++ post /\
    Re.at_boundary (last pre) (entity ++ post) = true /\
    Re.at_boundary (last (pre ++ entity)) post = true.

(** A keyword is one of the tokens from the fifth before to the fourth after
    a token that contains [entity]. *)
Definition keyword_in_context (words : list str) (entity : str) : Prop :=
  exists (pos j : nat) (word keyword : str),
    words !! pos = Some word /\ PyStr.contains entity word = true /\
    keyword ∈ technical_keywords /\ words !! j = Some keyword /\
    (pos <= j + 5 /\ j <= pos + 4)%nat.

(** The score for a given outcome of the two conditions. *)
Definition score (boundary : bool) (occurrences : nat) (context : bool) : Q :=
  Qmin 1 ((5 # 10)
          + (if boundary then 3 # 10 else 0)
          + (if 1 <? occurrences
             then Qmin (2 # 10) (inject_Z (Z.of_nat occurrences) * (5 # 100))
             else 0)
          + (if context then 1 # 10 else 0))%Q.

(** The position of the first element of [l] equal to [x]; [length l] when
    there is none. *)
Fixpoint first_index (x : str) (l : list str) : nat :=
  match l with
  | [] => 0
  | y :: l' => if bool_decide (y = x) then 0 else S (first_index x l')
  end.

Definition in_unit_interval (q : Q) : Prop := (0 <= q /\ q <= 1)%Q.

(** ** Inputs of the examples *)

Definition newline : str := ["010"%char].

(** The fenced block of the specification's example. *)
Definition fenced_javascript : str :=
  py "```javascript" ++ newline ++ py "const x = 1;" ++ newline ++ py "```".

Definition fenced_entry : Snippet.t :=
  {| Snippet.type := code_block; Snippet.language := py "javascript";
     Snippet.code := py "const x = 1;"; Snippet.confidence := (9 # 10)%Q |}.

Definition is_code_block (s : Snippet.t) : bool :=
  match Snippet.type s with code_block => true | inline_code => false end.

Definition npm_command : str := py "npm install express mongoose".

Definition repo_url : str := py "https://github.com/example/repo".

(** The text of [test_entity_extraction]. *)
Definition sample_text : str :=
  py "We use Python and React for our web application with MongoDB database".

(** ** Notions used in the proofs about the matcher *)

Module ReFacts.
Import PyStr Re.

(** The least number of characters that a match of [r] consumes. *)
Fixpoint min_len (r : regex) : nat :=
  match r with
  | Eps | Bol | WordB | Star _ | LazyStar _ | Opt _ => 0
  | Lit _ | Cls _ => 1
  | Seq r1 r2 => min_len r1 + min_len r2
  | Alt r1 r2 => Nat.min (min_len r1) (min_len r2)
  | Grp _ r1 => min_len r1
  end.

(** Some atom of [r] accepts the character [x]. *)
Fixpoint consumes (fl : flags) (r : regex) (x : ascii) : bool :=
  match r with
  | Eps | Bol | WordB => false
  | Lit c => lit_eq fl c x
  | Cls p | Star p | LazyStar p => p x
  | Seq r1 r2 | Alt r1 r2 => consumes fl r1 x || consumes fl r2 x
  | Opt r1 | Grp _ r1 => consumes fl r1 x
  end.

(** [st'] is [st] after the characters [cs], each accepted by an atom of [r]. *)
Definition reaches (fl : flags) (r : regex) (cs : str) (st st' : mstate) : Prop :=
  m_rest st = cs ++ m_rest st' /\
  m_pos st' = m_pos st + length cs /\
  m_prev st' = last_or (m_prev st) cs /\
  Forall (fun x => consumes fl r x = true) cs.

(** The state after the literal [e]. *)
Definition after_lit (e : str) (st : mstate) : mstate :=
  {| m_prev := last_or (m_prev st) e;
     m_rest := skipn (length e) (m_rest st);
     m_pos := m_pos st + length e;
     m_caps := m_caps st |}.

End ReFacts.

(** ** Notions used in the proofs about the category matcher *)

(** The key under which the second loop of [extract_entities_by_category]
    stores an entity. *)
Definition entity_key (e : Entity.t) : str := PyStr.lower (Entity.text e).

(** The keys of a dict after the keys [l] have been stored in turn. *)
Definition extend_keys (keys l : list str) : list str :=
  foldl (fun ks k => if bool_decide (k ∈ ks) then ks else ks ++ [k]) keys l.

(** The keys of a dict are distinct, and each entity is stored under its key. *)
Definition dict_wf (d : Dict.t Entity.t) : Prop :=
  NoDup (map fst d) /\ forall k e, (k, e) ∈ d -> k = entity_key e.

(** [a] is not behind [b] in the order of the result. *)
Definition conf_ge (a b : Entity.t) : Prop :=
  (Entity.confidence b <= Entity.confidence a)%Q.

(** ** Notions used in the proofs about the urls *)

(** [url] is what [add_url] keeps of the match [m]. *)
Definition kept (m url : str) : Prop :=
  url = PyStr.strip_chars is_url_punct m /\ (5 < length url)%nat.

(** An occurrence between [pre] and [post] that is set off by whitespace or
    by the ends of the text. *)
Definition delimited (pre post : str) : Prop :=
  (pre = [] \/ exists pre' w, pre = pre' ++ [w] /\ PyStr.is_space w = true) /\
  (post = [] \/ exists w post', post = w :: post' /\ PyStr.is_space w = true).


(** Whether the context of the token at [pos] holds a keyword. *)
Definition has_keyword (words : list str) (pos : Z) : bool :=
  existsb (fun keyword => PyStr.in_list keyword (context_of words pos)) technical_keywords.

(** ** [YouTubeExtractor.extract_video_id] of [src/yt_hoover.py] *)

Module VideoId.
Import PyStr Re Patterns.

(** [[^&\n?#]] *)
Definition cls_id_part (c : ascii) : bool :=
  negb (chr_in "&" c || Ascii.eqb c "010" || chr_in "?#" c).

(** [[a-zA-Z0-9_-]] *)
Definition cls_id_char (c : ascii) : bool :=
  in_range 97 122 c || in_range 65 90 c || in_range 48 57 c || chr_in "_-" c.

(** [r{n}] *)
Fixpoint times (n : nat) (r : regex) : regex :=
  match n with
  | O => Eps
  | S n' => Seq r (times n' r)
  end.

(** [patterns[0]]: one of the three forms of a video url, and the group of
    the characters up to the next [&], newline, [?] or [#]. *)
Definition url_form : regex :=
  seqs [alts (lit (py "youtube.com/watch?v="))
             (words ["youtu.be/"; "youtube.com/embed/"]);
        Grp 1 (Plus cls_id_part)].

(** [patterns[1]] up to its final [$]: the start of the text and the group
    of eleven characters of a video id. *)
Definition direct_form : regex :=
  seqs [Bol; Grp 1 (times 11 (Cls cls_id_char))].

(** [$] without [re.MULTILINE]: the end of the text, or the position before
    a newline that ends the text. *)
Definition at_end (s : str) : bool :=
  match s with
  | [] => true
  | [c] => Ascii.eqb c "010"
  | _ => false
  end.

(** The match of [r$] that starts at the current position: the rest of the
    pattern after [r] is the continuation of the matcher, here the test of
    [$]. *)
Definition match_at_end (fl : flags) (r : regex) (prev : option ascii) (s : str)
    : option matched :=
  match rmatch fl r {| m_prev := prev; m_rest := s; m_pos := 0; m_caps := [] |}
               (fun st => if at_end (m_rest st) then Some st else None) with
  | Some st => Some {| whole := firstn (m_pos st) s; caps := m_caps st |}
  | None => None
  end.

(** [re.search] for [r$]: the match at the leftmost position that has one. *)
Fixpoint search_end (fl : flags) (r : regex) (prev : option ascii) (s : str)
    : option matched :=
  match match_at_end fl r prev s with
  | Some m => Some m
  | None =>
      match s with
      | [] => None
      | c :: t => search_end fl r (Some c) t
      end
  end.

(** The loop over the two patterns; [None] is Python's [None]. *)
Definition extract_video_id (url : str) : option str :=
  match search no_flags url_form url with
  | Some m => Some (group 1 m)
  | None =>
      match search_end no_flags direct_form None url with
      | Some m => Some (group 1 m)
      | None => None
      end
  end.

(** The url that [YouTubeAnalyzer.analyze] builds from a video id:
    [f"https://www.youtube.com/watch?v={video_id}"]. *)
Definition video_url (video_id : str) : str :=
  py "https://www.youtube.com/watch?v=" ++ video_id.

End VideoId.

(** ** The conversion to html of [_generate_html_report] in [src/yt_hoover.py]
    and of [generate_html_report] in [web/app.py] *)

Module Report.
Import PyStr.

(** [s.replace(old, new)] for a non-empty [old]: the occurrences are taken
    from the left and do not overlap; [skip] characters of the last
    occurrence are still to be passed. *)
Fixpoint replace_from (old new : str) (skip : nat) (s : str) : str :=
  match s with
  | [] => []
  | c :: t =>
      match skip with
      | S n => replace_from old new n t
      | O => if startswith old s
             then new ++ replace_from old new (length old - 1) t
             else c :: replace_from old new 0 t
      end
  end.

Definition replace (old new s : str) : str := replace_from old new 0 s.

(** The three replacements that turn the markdown report into the content
    of the html report. *)
Definition html_content (markdown_content : str) : str :=
  let html_content := markdown_content in
  let html_content := replace newline (py "<br>") html_content in
  let html_content := replace (py "##") (py "<h2>") html_content in
  let html_content := replace (py "#") (py "<h1>") html_content in
  html_content.

End Report.

(** ** Notions used in the statements about the results *)

(** [sub] occurs in [s] as a contiguous piece. *)
Definition substring (sub s : str) : Prop := exists pre post, s = pre ++ sub ++ post.

(** The names of the tools in the groups of [cli_patterns]. *)
Definition cli_tools : list str :=
  map py ["docker"; "kubectl"; "helm"; "terraform"; "ansible"; "vagrant"; "chef";
          "puppet"; "aws"; "gcloud"; "az"; "git"; "svn"; "hg"; "npm"; "yarn";
          "pip"; "composer"; "gem"; "cargo"; "go"].

(** The characters that the url patterns accept. *)
Definition url_char (c : ascii) : bool :=
  PyStr.is_word c || Patterns.chr_in "-.:/?&=%#" c.

(** The keys of the [confidence_scores] dict. *)
Definition score_keys : list string :=
  ["url_extraction"; "entity_extraction"; "code_detection"; "command_detection"]%string.

(** ** Notions used in the proofs about the shape of a match *)

Module ReShape.
Import PyStr Re.

(** [r] matches exactly the characters [cs], when [prev] is the character
    before them and [next] the text after them, and turns the captured
    groups [caps] into [caps']. *)
Fixpoint shape (fl : flags) (r : regex) (prev : option ascii) (cs next : str)
    (caps caps' : list (nat * str)) : Prop :=
  match r with
  | Eps => cs = [] /\ caps' = caps
  | Lit c => exists x, cs = [x] /\ lit_eq fl c x = true /\ caps' = caps
  | Cls p => exists x, cs = [x] /\ p x = true /\ caps' = caps
  | Seq r1 r2 =>
      exists cs1 cs2 caps1,
        cs = cs1 ++ cs2 /\
        shape fl r1 prev cs1 (cs2 ++ next) caps caps1 /\
        shape fl r2 (last_or prev cs1) cs2 next caps1 caps'
  | Alt r1 r2 => shape fl r1 prev cs next caps caps' \/ shape fl r2 prev cs next caps caps'
  | Opt r1 => shape fl r1 prev cs next caps caps' \/ (cs = [] /\ caps' = caps)
  | Star p | LazyStar p => Forall (fun x => p x = true) cs /\ caps' = caps
  | Grp n r1 => exists caps1, shape fl r1 prev cs next caps caps1 /\ caps' = (n, cs) :: caps1
  | Bol => cs = [] /\ caps' = caps /\ at_bol fl prev = true
  | WordB => cs = [] /\ caps' = caps /\ at_boundary prev next = true
  end.

(** [st'] is [st] after the characters [cs]. *)
Definition advances (cs : str) (st st' : mstate) : Prop :=
  m_rest st = cs ++ m_rest st' /\
  m_pos st' = m_pos st + length cs /\
  m_prev st' = last_or (m_prev st) cs.

End ReShape.

(** ** Notions used in the statements about the category matcher *)

(** The entity that the first loop of [extract_entities_by_category] records
    for the term [entity] of the lexicon. *)
Definition scored_entity (self : Processor) (text_lower : str) (words : list str)
    (entity : str) : Entity.t :=
  {| Entity.text := entity;
     Entity.confidence := calculate_confidence text_lower (PyStr.lower entity) words;
     Entity.category := get_entity_category self entity |}.

(** The first term of the lexicon whose lower-cased form is [key]. *)
Definition first_spelling (key : str) (knowledge_base : list str) : option str :=
  find (fun term => PyStr.str_eqb (PyStr.lower term) key) knowledge_base.

(** The seven lists of names of a result. *)
Definition name_lists (result : Result.t) : list (list str) :=
  [Result.programming_languages result; Result.frameworks_and_libraries result;
   Result.platforms_and_services result; Result.companies_and_brands result;
   Result.file_formats result; Result.apis_and_protocols result;
   Result.technical_concepts result].

(** ** Notions used in the statements about the confidence scores *)

(** A score for a list of findings: zero when nothing was found, and between
    one half and one otherwise. *)
Definition graded (found : bool) (q : Q) : Prop :=
  if found then ((5 # 10) <= q <= 1)%Q else (q == 0)%Q.

Definition nonempty {A} (l : list A) : bool :=
  match l with
  | [] => false
  | _ :: _ => true
  end.

(** ** Notions used in the proofs about the texts without a match *)

Module ReMust.
Import PyStr Re.

(** The characters of the embedding. *)
Definition all_ascii : list ascii := map ascii_of_nat (seq 0 256).

(** Every character that [ok] accepts satisfies [P]. *)
Definition within (ok P : ascii -> bool) : bool :=
  forallb (fun x => implb (ok x) (P x)) all_ascii.

(** A sufficient test that every match of [r] holds a character that
    satisfies [P]. *)
Fixpoint must (fl : flags) (r : regex) (P : ascii -> bool) : bool :=
  match r with
  | Lit c => within (lit_eq fl c) P
  | Cls p => within p P
  | Seq r1 r2 => must fl r1 P || must fl r2 P
  | Alt r1 r2 => must fl r1 P && must fl r2 P
  | Grp _ r1 => must fl r1 P
  | Eps | Opt _ | Star _ | LazyStar _ | Bol | WordB => false
  end.

End ReMust.

(** ** Notions used in the statements about the snippets and the commands *)

(** The text of a fenced block with the tag [tag] and the body [body]. *)
Definition fenced_block (tag body : str) : str :=
  py "```" ++ tag ++ newline ++ body ++ newline ++ py "```".

(** [s] is the entry for a fenced block that occurs in [text]: the tag is
    made of word characters, and an empty tag is reported as "unknown". *)
Definition block_entry (text : str) (s : Snippet.t) : Prop :=
  exists tag body,
    substring (fenced_block tag body) text /\
    Forall (fun c => PyStr.is_word c = true) tag /\
    s = {| Snippet.type := code_block;
           Snippet.language := match tag with [] => py "unknown" | _ => tag end;
           Snippet.code := PyStr.strip body;
           Snippet.confidence := (9 # 10)%Q |}.

(** [s] is the entry for a piece of [text] between two backticks that holds
    no backtick and more than two characters once stripped. *)
Definition inline_entry (text : str) (s : Snippet.t) : Prop :=
  exists body,
    substring (py "`" ++ body ++ py "`") text /\
    body <> [] /\
    Forall (fun c => c <> "`"%char) body /\
    (2 < length (PyStr.strip body))%nat /\
    s = {| Snippet.type := inline_code;
           Snippet.language := py "unknown";
           Snippet.code := PyStr.strip body;
           Snippet.confidence := (6 # 10)%Q |}.

(** [tool] stands in [text] at the start, or after a whitespace character,
    and is followed by whitespace and a word character. *)
Definition invoked (tool text : str) : Prop :=
  exists pre ws x post,
    text = pre ++ tool ++ ws ++ x :: post /\
    (pre = [] \/ exists sp, last pre = Some sp /\ PyStr.is_space sp = true) /\
    ws <> [] /\ Forall (fun c => PyStr.is_space c = true) ws /\
    PyStr.is_word x = true.

(** Every term of every lexicon holds a character that is no whitespace. *)
Definition terms_visible (self : Processor) : bool :=
  forallb (fun entry : Category * list str =>
             forallb (fun term => existsb (fun c => negb (PyStr.is_space c)) term) entry.2)
          (priority_order self).

(** ** Notions used in the statements about the video ids *)

(** The three forms of a video url that [patterns[0]] knows. *)
Definition video_markers : list str :=
  map py ["youtube.com/watch?v="; "youtu.be/"; "youtube.com/embed/"].

(** ** Notions used in the proofs that a pattern matches *)

Module ReRun.
Import PyStr Re.

(** The state behind the characters [s1], before [s2]. *)
Definition after (prev : option ascii) (s1 s2 : str) (pos : nat)
    (caps : list (nat * str)) : mstate :=
  {| m_prev := last_or prev s1; m_rest := s2; m_pos := pos + length s1; m_caps := caps |}.

(** [r] matches the characters [s1] before [s2] whenever the rest of the
    pattern accepts the state behind them; [g] is what the match does to the
    captured groups. *)
Definition takes (fl : flags) (r : regex) (s1 s2 : str)
    (g : list (nat * str) -> list (nat * str)) : Prop :=
  forall (k : cont) prev pos caps res,
    k (after prev s1 s2 pos (g caps)) = Some res ->
    rmatch fl r {| m_prev := prev; m_rest := s1 ++ s2; m_pos := pos; m_caps := caps |} k
    = Some res.

(** [r] matches nothing at the start of [s], whatever follows it in the
    pattern. *)
Definition fails (fl : flags) (r : regex) (s : str) : Prop :=
  forall (k : cont) prev pos caps,
    rmatch fl r {| m_prev := prev; m_rest := s; m_pos := pos; m_caps := caps |} k = None.

(** [s] is empty or starts with a character that [ok] rejects. *)
Definition blocked (ok : ascii -> bool) (s : str) : bool :=
  match s with
  | [] => true
  | c :: _ => negb (ok c)
  end.

End ReRun.

(** The two schemes that [url_patterns[0]] knows, in lower case. *)
Definition url_schemes : list str := [py "http://"; py "https://"].

(** The entry of [extract_code_snippets] for a fenced block with the tag
    [tag] and the body [body]. *)
Definition block_snippet (tag body : str) : Snippet.t :=
  {| Snippet.type := code_block;
     Snippet.language := match tag with [] => py "unknown" | _ => tag end;
     Snippet.code := PyStr.strip body;
     Snippet.confidence := (9 # 10)%Q |}.

(** The entry of [extract_code_snippets] for the inline code [body]. *)
Definition inline_snippet (body : str) : Snippet.t :=
  {| Snippet.type := inline_code;
     Snippet.language := py "unknown";
     Snippet.code := PyStr.strip body;
     Snippet.confidence := (6 # 10)%Q |}.

(** A lexicon in which two terms differ in case only, and the two entities
    that the matcher returns for it on "vue and react". *)
Definition small_lexicon : list str := [py "React"; py "vue"; py "react"].

Definition entity_React : Entity.t :=
  {| Entity.text := py "React"; Entity.confidence := (5 # 10) + (3 # 10);
     Entity.category := get_entity_category init (py "React") |}.

Definition entity_vue : Entity.t :=
  {| Entity.text := py "vue"; Entity.confidence := (5 # 10) + (3 # 10);
     Entity.category := get_entity_category init (py "vue") |}.

(* ================================================================= *)
(** * Part II: theorems *)
(* ================================================================= *)

Import PyStr Re ReFacts Patterns.

Ltac case_if :=
  match goal with
  | |- context [if ?b then _ else _] => destruct b eqn:?
  end.

(** ** The category lookup *)

Lemma in_list_elem_of (x : str) (l : list str) : in_list x l = bool_decide (x ∈ l).
Proof.
  unfold in_list, str_eqb. induction l as [|y l IH]; cbn.
  - symmetry. apply bool_decide_eq_false. apply not_elem_of_nil.
  - rewrite IH. destruct (decide (x = y)) as [->|Hne].
    + rewrite (bool_decide_eq_true_2 (y = y)) by reflexivity. cbn.
      symmetry. apply bool_decide_eq_true. left.
    + rewrite (bool_decide_eq_false_2 (x = y)) by assumption. cbn.
      apply bool_decide_ext. rewrite elem_of_cons. tauto.
Qed.

Lemma lower_char_idempotent (c : ascii) : lower_char (lower_char c) = lower_char c.
Proof. destruct c as [[] [] [] [] [] [] [] []]; vm_compute; reflexivity. Qed.

Lemma lower_idempotent (s : str) : lower (lower s) = lower s.
Proof.
  unfold lower. rewrite map_map. apply map_ext. intros c. apply lower_char_idempotent.
Qed.

Lemma get_entity_category_lower (self : Processor) (t1 t2 : str) :
  lower t1 = lower t2 -> get_entity_category self t1 = get_entity_category self t2.
Proof. intros H. unfold get_entity_category. rewrite H. reflexivity. Qed.

(** C7. The category of a term is the first category, in the order
    programming language, framework or library, platform or service, company
    or brand, file format, api or protocol, technical concept, whose lexicon
    contains the lower-cased term, and [unknown] when none does; terms that
    differ in case only have the same category. *)
Theorem get_entity_category_priority (self : Processor) (term : str) :
  get_entity_category self term = lookup_category self term /\
  get_entity_category self (lower term) = get_entity_category self term /\
  (forall term', lower term' = lower term ->
                 get_entity_category self term' = get_entity_category self term).
Proof.
  split; [|split].
  - unfold get_entity_category, lookup_category, priority_order. cbn.
    rewrite !in_list_elem_of.
    repeat (match goal with |- context [bool_decide ?P] => destruct (bool_decide P) end;
            [reflexivity|]).
    reflexivity.
  - apply get_entity_category_lower, lower_idempotent.
  - intros term' H. apply get_entity_category_lower. exact H.
Qed.

Lemma get_entity_category_priority_witness :
  get_entity_category init (py "JSON") = get_entity_category init (py "json") /\
  get_entity_category init (py "json") = programming_language.
Proof.
  split.
  - apply (get_entity_category_priority init (py "json")). reflexivity.
  - rewrite (proj1 (get_entity_category_priority init (py "json"))). vm_compute. reflexivity.
Defined.

(** ** Calls in sequence *)




(** ** Rationals *)

Lemma Q_ltb_lt (a b : Q) : Q_ltb a b = true <-> (a < b)%Q.
Proof.
  unfold Q_ltb. rewrite negb_true_iff, <- not_true_iff_false, Qle_bool_iff.
  split; [apply Qnot_le_lt | apply Qlt_not_le].
Qed.

Lemma Q_ltb_ge (a b : Q) : Q_ltb a b = false <-> (b <= a)%Q.
Proof.
  unfold Q_ltb. rewrite negb_false_iff, Qle_bool_iff. reflexivity.
Qed.

Lemma py_min_le_l (a b : Q) : (py_min a b <= a)%Q.
Proof.
  unfold py_min. destruct (Q_ltb b a) eqn:E.
  - apply Q_ltb_lt in E. lra.
  - lra.
Qed.

Lemma py_min_glb (a b c : Q) : (c <= a)%Q -> (c <= b)%Q -> (c <= py_min a b)%Q.
Proof. intros Ha Hb. unfold py_min. destruct (Q_ltb b a); assumption. Qed.

Lemma py_min_Qmin (a b : Q) : (py_min a b == Qmin a b)%Q.
Proof.
  destruct (Qlt_le_dec b a) as [H|H].
  - rewrite (Q.min_r a b) by lra. unfold py_min.
    apply Q_ltb_lt in H. rewrite H. reflexivity.
  - rewrite (Q.min_l a b) by lra. unfold py_min.
    apply Q_ltb_ge in H. rewrite H. reflexivity.
Qed.

(** ** Bounds of the scorer *)

Lemma context_loop_bounds (words : list str) (positions : list Z) (base : Q) :
  (base <= context_loop words positions base <= base + (1 # 10))%Q.
Proof.
  induction positions as [|pos rest IH]; cbn.
  - lra.
  - case_if; lra.
Qed.

Lemma calculate_confidence_bounds (text entity : str) (words : list str) :
  ((5 # 10) <= calculate_confidence text entity words <= 1)%Q.
Proof.
  unfold calculate_confidence.
  set (b1 := match Re.search _ _ _ with Some _ => _ | None => _ end).
  set (b2 := if (1 <? _) then _ else _).
  assert (H1 : ((5 # 10) <= b1)%Q) by (subst b1; destruct (Re.search _ _ _); lra).
  assert (H2 : (b1 <= b2)%Q).
  { subst b2. destruct (1 <? _); [|lra].
    assert ((0 <= py_min (2 # 10) (inject_Z (Z.of_nat (count entity text)) * (5 # 100)))%Q);
      [|lra].
    apply py_min_glb; [lra|].
    apply Qmult_le_0_compat; [|lra].
    change 0%Q with (inject_Z 0). rewrite <- Zle_Qle. lia. }
  pose proof (context_loop_bounds words (positions_from 0 entity words) b2) as H3.
  split.
  - apply py_min_glb; lra.
  - apply py_min_le_l.
Qed.

(** ** The entities that the matcher returns are entities that it recorded *)

Lemma dict_set_values {V} (key : str) (v : V) (d : Dict.t V) (x : V) :
  x ∈ Dict.values (Dict.set key v d) -> x = v \/ x ∈ Dict.values d.
Proof.
  unfold Dict.values. induction d as [|[k v'] d IH]; cbn.
  - rewrite list_elem_of_singleton. tauto.
  - destruct (str_eqb k key); cbn; rewrite !elem_of_cons; tauto.
Qed.

Lemma keep_best_values (d : Dict.t Entity.t) (e x : Entity.t) :
  x ∈ Dict.values (keep_best d e) -> x = e \/ x ∈ Dict.values d.
Proof.
  unfold keep_best. destruct (Dict.get _ d) as [old|].
  - destruct (Q_ltb _ _); [apply dict_set_values | tauto].
  - apply dict_set_values.
Qed.

Lemma foldl_keep_best_values (l : list Entity.t) (d : Dict.t Entity.t) (x : Entity.t) :
  x ∈ Dict.values (foldl keep_best d l) -> x ∈ l \/ x ∈ Dict.values d.
Proof.
  revert d. induction l as [|e l IH]; intros d; cbn.
  - tauto.
  - intros H. apply IH in H as [H|H].
    + left. right. exact H.
    + apply keep_best_values in H as [->|H]; [left; left | right; exact H].
Qed.

Lemma insert_desc_perm (x : Entity.t) (l : list Entity.t) : insert_desc x l ≡ₚ x :: l.
Proof.
  induction l as [|y l IH]; cbn; [reflexivity|].
  destruct (Q_ltb _ _); [|reflexivity].
  rewrite IH. apply Permutation_swap.
Qed.

Lemma sorted_perm (l : list Entity.t) : sorted_by_confidence_reverse l ≡ₚ l.
Proof.
  unfold sorted_by_confidence_reverse. induction l as [|x l IH]; cbn; [reflexivity|].
  rewrite insert_desc_perm, IH. reflexivity.
Qed.

Lemma matched_entities_confidence (self : Processor) (text_lower : str)
    (words kb : list str) :
  Forall (fun e => ((5 # 10) <= Entity.confidence e <= 1)%Q)
         (matched_entities self text_lower words kb).
Proof.
  induction kb as [|entity rest IH]; cbn; [constructor|].
  destruct (contains _ _); [|exact IH].
  constructor; [|exact IH]. cbn. apply calculate_confidence_bounds.
Qed.

Lemma extract_entities_subset (self : Processor) (text : str) (kb : list str) (e : Entity.t) :
  e ∈ extract_entities_by_category self text kb ->
  e ∈ matched_entities self (lower text) (split (lower text)) kb.
Proof.
  unfold extract_entities_by_category. rewrite sorted_perm.
  intros H. apply foldl_keep_best_values in H as [H|H]; [exact H|].
  cbn in H. apply elem_of_nil in H. contradiction.
Qed.

(** ** Strings *)

Lemma last_or_cons (prev : option ascii) (c : ascii) (s : str) :
  last_or prev (c :: s) = last_or (Some c) s.
Proof.
  unfold last_or. destruct s as [|d s]; [reflexivity|].
  rewrite last_cons_cons. destruct (last (d :: s)) eqn:E; [reflexivity|].
  apply last_None in E. discriminate.
Qed.

Lemma last_or_app (prev : option ascii) (s1 s2 : str) :
  last_or prev (s1 ++ s2) = last_or (last_or prev s1) s2.
Proof.
  revert prev. induction s1 as [|c s1 IH]; intros prev; [reflexivity|].
  cbn [app]. rewrite !last_or_cons. apply IH.
Qed.

Lemma last_or_None (s : str) : last_or None s = last s.
Proof. unfold last_or. destruct (last s); reflexivity. Qed.

Lemma last_app_last_or (s1 s2 : str) : last (s1 ++ s2) = last_or (last s1) s2.
Proof. rewrite <- !last_or_None, last_or_app. reflexivity. Qed.

Lemma startswith_app (e post : str) : startswith e (e ++ post) = true.
Proof.
  induction e as [|c e IH]; [reflexivity|]. cbn. rewrite Ascii.eqb_refl. exact IH.
Qed.

Lemma startswith_split (e s : str) :
  startswith e s = true -> s = e ++ skipn (length e) s.
Proof.
  revert s. induction e as [|c e IH]; intros [|x s]; cbn; try reflexivity; try discriminate.
  rewrite andb_true_iff, Ascii.eqb_eq. intros [-> H]. f_equal. apply IH. exact H.
Qed.

(** ** The matcher *)

Lemma lit_eq_no_flags (c x : ascii) : lit_eq no_flags c x = Ascii.eqb c x.
Proof.
  unfold lit_eq. cbn. destruct (Ascii.eqb c x) eqn:E.
  - apply Ascii.eqb_eq in E as ->. apply Ascii.eqb_refl.
  - apply Ascii.eqb_neq in E. apply Ascii.eqb_neq. congruence.
Qed.

(** A literal matches exactly when the text starts with it. *)
Lemma rmatch_lit (e : str) (st : mstate) (k : cont) :
  rmatch no_flags (lit e) st k =
    if startswith e (m_rest st) then k (after_lit e st) else None.
Proof.
  revert st. induction e as [|c e IH]; intros st.
  - cbn. unfold after_lit. cbn. rewrite Nat.add_0_r. destruct st; reflexivity.
  - cbn [lit rmatch]. unfold step.
    destruct st as [prev [|x rest] pos caps]; cbn [m_rest m_prev m_pos m_caps startswith].
    + reflexivity.
    + rewrite lit_eq_no_flags. destruct (Ascii.eqb c x) eqn:E; [|reflexivity].
      rewrite IH. cbn [m_rest andb]. case_if; [|reflexivity].
      f_equal. unfold after_lit. cbn [m_rest m_prev m_pos m_caps length skipn].
      rewrite last_or_cons.
      apply Ascii.eqb_eq in E as ->. f_equal. lia.
Qed.

Section Matcher.
Variable fl : flags.

Lemma reaches_nil r st : reaches fl r [] st st.
Proof. repeat split; cbn; auto. Qed.

Lemma reaches_weaken (r r' : regex) cs st st' :
  (forall x, consumes fl r x = true -> consumes fl r' x = true) ->
  reaches fl r cs st st' -> reaches fl r' cs st st'.
Proof.
  intros Hsub (H1 & H2 & H3 & H4). repeat split; auto.
  eapply Forall_impl; [exact H4|]. exact Hsub.
Qed.

Lemma reaches_trans r cs1 cs2 st1 st2 st3 :
  reaches fl r cs1 st1 st2 -> reaches fl r cs2 st2 st3 ->
  reaches fl r (cs1 ++ cs2) st1 st3.
Proof.
  intros (A1 & A2 & A3 & A4) (B1 & B2 & B3 & B4). repeat split.
  - rewrite A1, B1, app_assoc. reflexivity.
  - rewrite B2, A2, length_app. lia.
  - rewrite B3, A3, last_or_app. reflexivity.
  - apply Forall_app. split; assumption.
Qed.

Lemma reaches_step r c t prev pos caps caps' :
  consumes fl r c = true ->
  reaches fl r [c]
    {| m_prev := prev; m_rest := c :: t; m_pos := pos; m_caps := caps |}
    {| m_prev := Some c; m_rest := t; m_pos := S pos; m_caps := caps' |}.
Proof.
  intros H. repeat split; cbn; auto. lia.
Qed.

(** What a match of [r] consumes is accepted by the atoms of [r]. *)
Lemma star_greedy_reaches p k caps s : forall prev pos res,
  star_greedy p k caps prev pos s = Some res ->
  exists cs st',
    k st' = Some res /\
    reaches fl (Star p) cs {| m_prev := prev; m_rest := s; m_pos := pos; m_caps := caps |} st'.
Proof.
  induction s as [|c t IH]; intros prev pos res H; cbn in H.
  - eexists [], _. split; [exact H | apply reaches_nil].
  - assert (Hhere : k {| m_prev := prev; m_rest := c :: t; m_pos := pos; m_caps := caps |} = Some res ->
      exists cs st', k st' = Some res /\
        reaches fl (Star p) cs {| m_prev := prev; m_rest := c :: t; m_pos := pos; m_caps := caps |} st').
    { intros Hk. eexists [], _. split; [exact Hk | apply reaches_nil]. }
    destruct (p c) eqn:Hp; [|auto].
    destruct (star_greedy p k caps (Some c) (S pos) t) as [m|] eqn:Hrec; [|auto].
    injection H as ->. apply IH in Hrec as (cs & st' & Hk & Hr).
    exists (c :: cs), st'. split; [exact Hk|].
    change (c :: cs) with ([c] ++ cs).
    eapply reaches_trans; [apply reaches_step; exact Hp | exact Hr].
Qed.

Lemma star_lazy_reaches p k caps s : forall prev pos res,
  star_lazy p k caps prev pos s = Some res ->
  exists cs st',
    k st' = Some res /\
    reaches fl (LazyStar p) cs {| m_prev := prev; m_rest := s; m_pos := pos; m_caps := caps |} st'.
Proof.
  induction s as [|c t IH]; intros prev pos res H; cbn in H.
  - destruct (k _) eqn:Hk; [|discriminate]. injection H as ->.
    eexists [], _. split; [exact Hk | apply reaches_nil].
  - destruct (k _) eqn:Hk.
    + injection H as ->. eexists [], _. split; [exact Hk | apply reaches_nil].
    + destruct (p c) eqn:Hp; [|discriminate].
      apply IH in H as (cs & st' & Hk' & Hr).
      exists (c :: cs), st'. split; [exact Hk'|].
      change (c :: cs) with ([c] ++ cs).
    eapply reaches_trans; [apply reaches_step; exact Hp | exact Hr].
Qed.

Lemma rmatch_reaches r : forall st k res,
  rmatch fl r st k = Some res ->
  exists cs st', k st' = Some res /\ reaches fl r cs st st'.
Proof.
  induction r as [ | c | p | r1 IH1 r2 IH2 | r1 IH1 r2 IH2 | r1 IH1 | p | p | n r1 IH1 | | ];
    intros st k res H; cbn in H.
  - eexists [], _. split; [exact H | apply reaches_nil].
  - unfold step in H. destruct st as [prev [|x t] pos caps]; cbn in H; [discriminate|].
    destruct (lit_eq fl c x) eqn:E; [|discriminate].
    eexists [x], _. split; [exact H|]. apply reaches_step. exact E.
  - unfold step in H. destruct st as [prev [|x t] pos caps]; cbn in H; [discriminate|].
    destruct (p x) eqn:E; [|discriminate].
    eexists [x], _. split; [exact H|]. apply reaches_step. exact E.
  - apply IH1 in H as (cs1 & st1 & H & Hr1).
    apply IH2 in H as (cs2 & st2 & H & Hr2).
    exists (cs1 ++ cs2), st2. split; [exact H|].
    apply reaches_trans with st1.
    + eapply reaches_weaken; [|exact Hr1]. intros x Hx. cbn. rewrite Hx. reflexivity.
    + eapply reaches_weaken; [|exact Hr2]. intros x Hx. cbn. rewrite Hx. apply orb_true_r.
  - destruct (rmatch fl r1 st k) eqn:E1.
    + injection H as ->. apply IH1 in E1 as (cs & st' & Hk & Hr).
      exists cs, st'. split; [exact Hk|].
      eapply reaches_weaken; [|exact Hr]. intros x Hx. cbn. rewrite Hx. reflexivity.
    + apply IH2 in H as (cs & st' & Hk & Hr).
      exists cs, st'. split; [exact Hk|].
      eapply reaches_weaken; [|exact Hr]. intros x Hx. cbn. rewrite Hx. apply orb_true_r.
  - destruct (rmatch fl r1 st k) eqn:E1.
    + injection H as ->. apply IH1 in E1 as (cs & st' & Hk & Hr).
      exists cs, st'. split; [exact Hk | exact Hr].
    + eexists [], _. split; [exact H | apply reaches_nil].
  - destruct st as [prev s pos caps]. cbn in H.
    apply star_greedy_reaches in H. exact H.
  - destruct st as [prev s pos caps]. cbn in H.
    apply star_lazy_reaches in H. exact H.
  - apply IH1 in H as (cs & st' & Hk & Hr).
    eexists cs, _. split; [exact Hk|].
    destruct Hr as (H1 & H2 & H3 & H4). repeat split; cbn; auto.
  - destruct (at_bol fl (m_prev st)); [|discriminate].
    eexists [], _. split; [exact H | apply reaches_nil].
  - destruct (at_boundary (m_prev st) (m_rest st)); [|discriminate].
    eexists [], _. split; [exact H | apply reaches_nil].
Qed.

(** A match is a prefix of the text whose characters the pattern accepts. *)
Lemma match_at_consumes r prev s m :
  match_at fl r prev s = Some m ->
  exists rest, s = whole m ++ rest /\
               Forall (fun x => consumes fl r x = true) (whole m).
Proof.
  unfold match_at. destruct (rmatch _ _ _ _) as [st|] eqn:E; [|discriminate].
  intros [= <-]. cbn.
  apply rmatch_reaches in E as (cs & st' & [= ->] & H1 & H2 & H3 & H4).
  cbn in *. exists (m_rest st). rewrite H2, H1, take_app_length. split; [reflexivity|exact H4].
Qed.

End Matcher.

(** ** The patterns of [re.findall] match no empty string *)

Lemma star_greedy_pos p k caps s : forall prev pos res,
  star_greedy p k caps prev pos s = Some res ->
  exists st', k st' = Some res /\ pos <= m_pos st'.
Proof.
  intros prev pos res H.
  apply (star_greedy_reaches no_flags) in H as (cs & st' & Hk & _ & Hpos & _).
  exists st'. split; [exact Hk | cbn in Hpos; lia].
Qed.

Lemma star_lazy_pos p k caps s : forall prev pos res,
  star_lazy p k caps prev pos s = Some res ->
  exists st', k st' = Some res /\ pos <= m_pos st'.
Proof.
  intros prev pos res H.
  apply (star_lazy_reaches no_flags) in H as (cs & st' & Hk & _ & Hpos & _).
  exists st'. split; [exact Hk | cbn in Hpos; lia].
Qed.

Section MinLen.
Variable fl : flags.

Lemma rmatch_min_len r : forall st k res,
  rmatch fl r st k = Some res ->
  exists st', k st' = Some res /\ m_pos st + min_len r <= m_pos st'.
Proof.
  induction r as [ | c | p | r1 IH1 r2 IH2 | r1 IH1 r2 IH2 | r1 IH1 | p | p | n r1 IH1 | | ];
    intros st k res H; cbn in H; cbn [min_len].
  - exists st. split; [exact H | lia].
  - unfold step in H. destruct (m_rest st) as [|x t]; [discriminate|].
    destruct (lit_eq fl c x); [|discriminate].
    eexists. split; [exact H | cbn; lia].
  - unfold step in H. destruct (m_rest st) as [|x t]; [discriminate|].
    destruct (p x); [|discriminate].
    eexists. split; [exact H | cbn; lia].
  - apply IH1 in H as (st1 & H & H1). apply IH2 in H as (st2 & H & H2).
    exists st2. split; [exact H | lia].
  - destruct (rmatch fl r1 st k) eqn:E1.
    + injection H as ->. apply IH1 in E1 as (st' & Hk & Hpos).
      exists st'. split; [exact Hk | lia].
    + apply IH2 in H as (st' & Hk & Hpos). exists st'. split; [exact Hk | lia].
  - destruct (rmatch fl r1 st k) eqn:E1.
    + injection H as ->. apply IH1 in E1 as (st' & Hk & Hpos).
      exists st'. split; [exact Hk | lia].
    + exists st. split; [exact H | lia].
  - apply star_greedy_pos in H as (st' & Hk & Hpos). exists st'. split; [exact Hk | lia].
  - apply star_lazy_pos in H as (st' & Hk & Hpos). exists st'. split; [exact Hk | lia].
  - apply IH1 in H as (st' & Hk & Hpos). eexists. split; [exact Hk | cbn; lia].
  - destruct (at_bol fl (m_prev st)); [|discriminate]. exists st. split; [exact H | lia].
  - destruct (at_boundary (m_prev st) (m_rest st)); [|discriminate].
    exists st. split; [exact H | lia].
Qed.

Lemma match_at_min_len r prev s m :
  match_at fl r prev s = Some m -> min_len r <= length (whole m).
Proof.
  unfold match_at. destruct (rmatch _ _ _ _) as [st|] eqn:E; [|discriminate].
  intros [= <-]. cbn [whole].
  pose proof E as E'.
  apply rmatch_min_len in E as (st1 & [= ->] & Hmin).
  apply (rmatch_reaches fl) in E' as (cs & st2 & [= ->] & Hrest & Hpos & _).
  cbn in *. rewrite Hrest, Hpos, take_app_length. lia.
Qed.

End MinLen.

Lemma findall_patterns_consume (fl : flags) (pattern : regex) (prev : option ascii)
    (s : str) (m : matched) :
  pattern ∈ url_patterns ++ cli_patterns ++ [code_block_pattern; inline_pattern] ->
  match_at fl pattern prev s = Some m -> whole m <> [].
Proof.
  intros Hp Hm. apply match_at_min_len in Hm.
  assert (Hpos : 1 <= min_len pattern).
  { revert Hp. cbn [app url_patterns cli_patterns]. rewrite !elem_of_cons.
    intros H. repeat (destruct H as [-> | H]; [vm_compute; lia|]).
    apply elem_of_nil in H. contradiction. }
  intros Hnil. rewrite Hnil in Hm. cbn in Hm. lia.
Qed.

(** The classes of the url patterns do not tell a character from its
    lower-case form. *)
Lemma url_classes_lower (c : ascii) :
  cls_host (lower_char c) = cls_host c /\
  cls_port (lower_char c) = cls_port c /\
  cls_path (lower_char c) = cls_path c /\
  cls_query (lower_char c) = cls_query c /\
  cls_fragment (lower_char c) = cls_fragment c.
Proof. destruct c as [[] [] [] [] [] [] [] []]; vm_compute; repeat split. Qed.

(** ** Scanning *)

Section Scanning.
Variables (fl : flags) (r : regex).

Lemma scan_nonempty_iff s : forall prev,
  scan fl r prev s 0 <> [] <->
  exists pre post, s = pre ++ post /\ is_Some (match_at fl r (last_or prev pre) post).
Proof.
  induction s as [|c t IH]; intros prev; cbn [scan].
  - split.
    + intros H. exists [], []. split; [reflexivity|]. cbn.
      destruct (match_at fl r prev []); [eauto | contradiction].
    + intros (pre & post & Heq & Hm). symmetry in Heq.
      apply app_eq_nil in Heq as [-> ->]. cbn in Hm.
      destruct Hm as [m ->]. discriminate.
  - split.
    + intros H. destruct (match_at fl r prev (c :: t)) as [m|] eqn:E.
      * exists [], (c :: t). split; [reflexivity|]. cbn. rewrite E. eauto.
      * apply IH in H as (pre & post & -> & Hm).
        exists (c :: pre), post. split; [reflexivity|]. rewrite last_or_cons. exact Hm.
    + intros (pre & post & Heq & Hm).
      destruct (match_at fl r prev (c :: t)) as [m|] eqn:E; [discriminate|].
      destruct pre as [|c' pre]; cbn in Heq.
      * subst post. cbn in Hm. rewrite E in Hm. destruct Hm; discriminate.
      * injection Heq as <- ->. apply IH. exists pre, post.
        split; [reflexivity|]. rewrite last_or_cons in Hm. exact Hm.
Qed.

Lemma finditer_nonempty pre post :
  is_Some (match_at fl r (last pre) post) -> finditer fl r (pre ++ post) <> [].
Proof.
  intros H. unfold finditer. apply scan_nonempty_iff. exists pre, post.
  split; [reflexivity|]. rewrite last_or_None. exact H.
Qed.

Lemma search_is_Some text :
  is_Some (search fl r text) <->
  exists pre post, text = pre ++ post /\ is_Some (match_at fl r (last pre) post).
Proof.
  unfold search, finditer. rewrite <- (not_eq_None_Some (head _)), head_None.
  rewrite scan_nonempty_iff. setoid_rewrite last_or_None. reflexivity.
Qed.

End Scanning.

(** ** Commands *)

Lemma extract_commands_fixed (text : str) (c : Command.t) :
  c ∈ extract_commands text ->
  Command.confidence c = (8 # 10)%Q /\ Command.type c = "cli_command"%string.
Proof.
  unfold extract_commands. rewrite list_elem_of_In, in_flat_map.
  intros (pattern & _ & H). apply in_map_iff in H as (m & <- & _). split; reflexivity.
Qed.

Lemma extract_commands_nonempty (text : str) (pattern : regex) :
  pattern ∈ cli_patterns -> finditer cli_flags pattern text <> [] ->
  exists c, c ∈ extract_commands text.
Proof.
  intros Hp Hne. unfold extract_commands.
  destruct (finditer cli_flags pattern text) as [|m ms] eqn:E; [contradiction|].
  eexists. rewrite list_elem_of_In, in_flat_map. exists pattern.
  split; [apply list_elem_of_In; exact Hp|].
  unfold findall1. rewrite E. left. reflexivity.
Qed.

(** The position after a whitespace character or at the start of a line:
    the first alternative may be left out. *)
Lemma match_at_alt_bol fl r1 r2 prev s :
  is_Some (match_at fl (Seq r1 r2) prev s) ->
  is_Some (match_at fl (Seq (Alt Bol r1) r2) prev s).
Proof.
  unfold match_at. cbn [rmatch m_prev].
  destruct (at_bol fl prev); [|trivial].
  destruct (rmatch fl r2 _ _); [eauto | trivial].
Qed.






(** ** The word-boundary search of the scorer *)

Lemma match_at_word_pattern (entity : str) (prev : option ascii) (s : str) :
  is_Some (match_at no_flags (word_pattern entity) prev s) <->
  at_boundary prev s = true /\ startswith entity s = true /\
  at_boundary (last_or prev entity) (skipn (length entity) s) = true.
Proof.
  unfold match_at, word_pattern. cbn [seqs rmatch m_prev m_rest].
  destruct (at_boundary prev s); [|split; [intros [? [=]] | intros [[=] _]]].
  rewrite rmatch_lit. cbn [m_rest].
  destruct (startswith entity s); [|split; [intros [? [=]] | intros (_ & [=] & _)]].
  cbn [rmatch after_lit m_prev m_rest].
  destruct (at_boundary _ _); [|split; [intros [? [=]] | intros (_ & _ & [=])]].
  split; [auto | eauto].
Qed.

Lemma search_word_pattern (text entity : str) :
  is_Some (search no_flags (word_pattern entity) text) <-> boundary_occurrence text entity.
Proof.
  rewrite search_is_Some. unfold boundary_occurrence. split.
  - intros (pre & s & -> & H). apply match_at_word_pattern in H as (H1 & H2 & H3).
    apply startswith_split in H2. exists pre, (skipn (length entity) s).
    rewrite <- H2, last_app_last_or. auto.
  - intros (pre & post & -> & H1 & H2). exists pre, (entity ++ post).
    split; [reflexivity|]. apply match_at_word_pattern.
    rewrite startswith_app, drop_app_length, <- last_app_last_or. auto.
Qed.

(** ** The context loop of the scorer *)

Lemma context_loop_existsb (words : list str) (positions : list Z) (base : Q) :
  context_loop words positions base =
    if existsb (has_keyword words) positions then (base + (1 # 10))%Q else base.
Proof.
  induction positions as [|pos rest IH]; [reflexivity|].
  cbn [context_loop existsb]. fold (has_keyword words pos).
  destruct (has_keyword words pos); [reflexivity | exact IH].
Qed.

Lemma positions_from_spec (entity : str) (words : list str) : forall (i pos : Z),
  pos ∈ positions_from i entity words <->
  exists (n : nat) (word : str),
    words !! n = Some word /\ contains entity word = true /\ pos = (i + Z.of_nat n)%Z.
Proof.
  induction words as [|w words IH]; intros i pos; cbn [positions_from].
  - split; [intros H; apply elem_of_nil in H; contradiction|].
    intros (n & word & H & _). destruct n; discriminate.
  - assert (Hrest : pos ∈ positions_from (i + 1) entity words <->
      exists (n : nat) (word : str),
        (w :: words) !! S n = Some word /\ contains entity word = true /\
        pos = (i + Z.of_nat (S n))%Z).
    { rewrite IH. split; intros (n & word & H1 & H2 & H3); exists n, word;
        (split; [exact H1|split; [exact H2|lia]]). }
    destruct (contains entity w) eqn:E.
    + rewrite elem_of_cons, Hrest. split.
      * intros [-> | (n & word & H)].
        -- exists 0%nat, w. split; [reflexivity|]. split; [exact E|lia].
        -- exists (S n), word. exact H.
      * intros ([|n] & word & H1 & H2 & H3).
        -- left. lia.
        -- right. exists n, word. auto.
    + rewrite Hrest. split.
      * intros (n & word & H). exists (S n), word. exact H.
      * intros ([|n] & word & H1 & H2 & H3).
        -- cbn in H1. injection H1 as ->. congruence.
        -- exists n, word. auto.
Qed.

Lemma slice_lookup {A} (l : list A) (start stop : Z) (x : A) :
  (0 <= start)%Z -> (stop <= Z.of_nat (length l))%Z ->
  x ∈ slice l start stop <->
  exists j : nat, l !! j = Some x /\ (start <= Z.of_nat j < stop)%Z.
Proof.
  intros Hstart Hstop. unfold slice. rewrite list_elem_of_lookup. split.
  - intros (i & Hi). apply lookup_take_Some in Hi as [Hi Hlt].
    rewrite lookup_drop in Hi. exists (Z.to_nat start + i)%nat. split; [exact Hi|lia].
  - intros (j & Hj & Hrange). exists (j - Z.to_nat start)%nat.
    apply lookup_take_Some. split; [|lia].
    rewrite lookup_drop. replace (Z.to_nat start + (j - Z.to_nat start))%nat with j by lia.
    exact Hj.
Qed.

Lemma has_keyword_spec (words : list str) (pos : nat) :
  has_keyword words (Z.of_nat pos) = true <->
  exists (j : nat) (keyword : str),
    keyword ∈ technical_keywords /\ words !! j = Some keyword /\
    (pos <= j + 5 /\ j <= pos + 4)%nat.
Proof.
  unfold has_keyword. rewrite existsb_exists. unfold context_of.
  split.
  - intros (keyword & Hin & H). rewrite in_list_elem_of in H.
    apply bool_decide_eq_true in H. apply slice_lookup in H as (j & Hj & Hrange); [|lia..].
    exists j, keyword. split; [apply list_elem_of_In; exact Hin|].
    split; [exact Hj|lia].
  - intros (j & keyword & Hin & Hj & Hrange). exists keyword.
    split; [apply list_elem_of_In; exact Hin|].
    rewrite in_list_elem_of. apply bool_decide_eq_true. apply slice_lookup; [lia..|].
    exists j. split; [exact Hj|].
    apply lookup_lt_Some in Hj. lia.
Qed.

Lemma context_spec (words : list str) (entity : str) :
  existsb (has_keyword words) (positions_from 0 entity words) = true <->
  keyword_in_context words entity.
Proof.
  rewrite existsb_exists. unfold keyword_in_context. split.
  - intros (pos & Hpos & H). apply list_elem_of_In, positions_from_spec in Hpos
      as (n & word & H1 & H2 & ->).
    rewrite Z.add_0_l in H. apply has_keyword_spec in H as (j & keyword & H3 & H4 & H5).
    exists n, j, word, keyword. auto.
  - intros (pos & j & word & keyword & H1 & H2 & H3 & H4 & H5).
    exists (Z.of_nat pos). split.
    + apply list_elem_of_In, positions_from_spec. exists pos, word. auto.
    + apply has_keyword_spec. exists j, keyword. auto.
Qed.


(** ** Stripping *)


Lemma lstrip_suffix (p : ascii -> bool) (s : str) : exists pre, s = pre ++ lstrip p s.
Proof.
  induction s as [|x s [pre IH]]; cbn; [exists []; reflexivity|].
  destruct (p x).
  - exists (x :: pre). cbn. f_equal. exact IH.
  - exists []. reflexivity.
Qed.

Lemma last_rev (s : str) : last (rev s) = head s.
Proof.
  destruct s as [|c s]; [reflexivity|]. cbn. rewrite last_snoc. reflexivity.
Qed.

Lemma head_rev (s : str) : head (rev s) = last s.
Proof. rewrite <- (rev_involutive s) at 2. rewrite last_rev. reflexivity. Qed.



(** ** The set of urls *)

Lemma add_url_spec (urls : gset str) (m u : str) :
  u ∈ add_url urls m <-> u ∈ urls \/ kept m u.
Proof.
  unfold add_url, kept. set (url := strip_chars is_url_punct m).
  destruct (bool_decide (url = [])) eqn:Enil; cbn [negb andb].
  - apply bool_decide_eq_true in Enil. split; [auto|].
    intros [H | [-> H]]; [exact H|]. rewrite Enil in H. cbn in H. lia.
  - destruct (5 <? length url) eqn:Elen.
    + apply Nat.ltb_lt in Elen. rewrite elem_of_union, elem_of_singleton. split.
      * intros [-> | H]; auto.
      * intros [H | [-> _]]; auto.
    + apply Nat.ltb_ge in Elen. split; [auto|].
      intros [H | [-> H]]; [exact H | lia].
Qed.

Lemma foldl_add_url_spec (ms : list str) (urls : gset str) (u : str) :
  u ∈ foldl add_url urls ms <-> u ∈ urls \/ exists m, m ∈ ms /\ kept m u.
Proof.
  revert urls. induction ms as [|m ms IH]; intros urls; cbn [foldl].
  - split; [auto|]. intros [H | (m & Hm & _)]; [exact H|].
    apply elem_of_nil in Hm. contradiction.
  - rewrite IH, add_url_spec. setoid_rewrite elem_of_cons. split.
    + intros [[H | H] | (m' & Hm' & H)]; eauto 6.
    + intros [H | (m' & [-> | Hm'] & H)]; eauto 6.
Qed.

Lemma url_set_spec (text u : str) :
  u ∈ url_set text <->
  exists pattern m,
    pattern ∈ url_patterns /\ m ∈ findall0 url_flags pattern text /\ kept m u.
Proof.
  unfold url_set.
  assert (Hgen : forall (ps : list regex) (urls : gset str),
    u ∈ foldl (fun urls pattern => foldl add_url urls (findall0 url_flags pattern text)) urls ps
    <-> u ∈ urls \/ exists pattern m,
          pattern ∈ ps /\ m ∈ findall0 url_flags pattern text /\ kept m u).
  { induction ps as [|p ps IH]; intros urls; cbn [foldl].
    - split; [auto|]. intros [H | (p & m & Hp & _)]; [exact H|].
      apply elem_of_nil in Hp. contradiction.
    - rewrite IH, foldl_add_url_spec. setoid_rewrite elem_of_cons. split.
      + intros [[H | (m & Hm & H)] | (p' & m & Hp' & Hm & H)]; eauto 8.
      + intros [H | (p' & m & [-> | Hp'] & Hm & H)]; eauto 8. }
  rewrite Hgen. split; [|auto].
  intros [H | H]; [|exact H]. apply elem_of_empty in H. contradiction.
Qed.

(** ** A whitespace character stops every match of the url patterns *)

Lemma prefix_before_barrier (P : ascii -> Prop) (w : ascii) (m rest pre s : str) :
  m ++ rest = pre ++ w :: s -> Forall P m -> ~ P w -> (length m <= length pre)%nat.
Proof.
  revert pre. induction m as [|x m IH]; intros pre Heq Hall Hw; cbn; [lia|].
  destruct pre as [|c pre]; cbn in Heq.
  - injection Heq as -> _. apply Forall_cons in Hall as [Hx _]. contradiction.
  - injection Heq as -> Heq. apply Forall_cons in Hall as [_ Hall].
    cbn. apply le_n_S. eapply IH; eauto.
Qed.

Section Barrier.
Variables (fl : flags) (r : regex).

Lemma scan_past_barrier (w : ascii) (s : str) :
  consumes fl r w = false ->
  forall (pre : str) (prev : option ascii) (skip : nat),
    (skip <= length pre)%nat ->
    exists before, scan fl r prev (pre ++ w :: s) skip = before ++ scan fl r (Some w) s 0.
Proof.
  intros Hw.
  assert (Hlen : forall prev pre m,
            match_at fl r prev (pre ++ w :: s) = Some m ->
            (length (whole m) <= length pre)%nat).
  { intros prev pre m Hm. apply match_at_consumes in Hm as (rest & Heq & Hall).
    symmetry in Heq. eapply prefix_before_barrier; [exact Heq | exact Hall|].
    cbn. rewrite Hw. discriminate. }
  induction pre as [|c pre IH]; intros prev skip Hskip.
  - cbn in Hskip. assert (skip = 0%nat) as -> by lia. cbn [app scan].
    destruct (match_at fl r prev (w :: s)) as [m|] eqn:E.
    + apply (Hlen prev []) in E. cbn in E.
      replace (length (whole m) - 1)%nat with 0%nat by lia.
      exists [m]. reflexivity.
    + exists []. reflexivity.
  - cbn [app]. destruct skip as [|n]; cbn [scan].
    + destruct (match_at fl r prev (c :: pre ++ w :: s)) as [m|] eqn:E.
      * apply (Hlen prev (c :: pre)) in E. cbn in E.
        destruct (IH (Some c) (length (whole m) - 1)%nat) as [before Hb]; [lia|].
        exists (m :: before). rewrite Hb. reflexivity.
      * apply IH. lia.
    + apply IH. cbn in Hskip. lia.
Qed.

Lemma finditer_after_space (pre : str) (w : ascii) (s : str) (m : matched) :
  consumes fl r w = false ->
  match_at fl r (Some w) s = Some m ->
  m ∈ finditer fl r (pre ++ w :: s).
Proof.
  intros Hw Hm. unfold finditer.
  destruct (scan_past_barrier w s Hw pre None 0) as [before ->]; [lia|].
  apply elem_of_app. right.
  destruct s as [|c t]; cbn [scan]; rewrite Hm; left.
Qed.

Lemma finditer_at_start (s : str) (m : matched) :
  match_at fl r None s = Some m -> m ∈ finditer fl r s.
Proof.
  intros Hm. unfold finditer. destruct s as [|c t]; cbn [scan]; rewrite Hm; left.
Qed.

End Barrier.

(** ** The repository url *)

Lemma space_stops_url_scheme (w : ascii) :
  is_space w = true -> consumes url_flags url_scheme w = false.
Proof.
  destruct w as [[] [] [] [] [] [] [] []]; intros H; try discriminate H;
    vm_compute; reflexivity.
Qed.




(** ** Positions of first occurrences *)

Lemma first_index_lt (x : str) (l : list str) : x ∈ l -> (first_index x l < length l)%nat.
Proof.
  induction l as [|y l IH]; cbn; [intros H; apply elem_of_nil in H; contradiction|].
  intros H. case_bool_decide; [lia|].
  apply elem_of_cons in H as [->|H]; [contradiction|]. apply IH in H. lia.
Qed.

Lemma first_index_app_l (x : str) (l1 l2 : list str) :
  x ∈ l1 -> first_index x (l1 ++ l2) = first_index x l1.
Proof.
  induction l1 as [|y l1 IH]; cbn; [intros H; apply elem_of_nil in H; contradiction|].
  intros H. case_bool_decide; [reflexivity|].
  apply elem_of_cons in H as [->|H]; [contradiction|]. rewrite IH by exact H. reflexivity.
Qed.

Lemma first_index_app_r (x : str) (l1 l2 : list str) :
  x ∉ l1 -> first_index x (l1 ++ l2) = (length l1 + first_index x l2)%nat.
Proof.
  induction l1 as [|y l1 IH]; cbn; [reflexivity|].
  intros H. apply not_elem_of_cons in H as [Hne H].
  rewrite bool_decide_eq_false_2 by congruence. rewrite IH by exact H. reflexivity.
Qed.

Lemma first_index_sublist (k1 k2 : str) (l : list str) :
  NoDup l -> [k1; k2] `sublist_of` l -> (first_index k1 l < first_index k2 l)%nat.
Proof.
  induction l as [|y l IH]; intros Hnd Hsub.
  - apply sublist_nil_r in Hsub. discriminate.
  - apply NoDup_cons in Hnd as [Hy Hnd]. cbn [first_index].
    apply sublist_cons_r in Hsub as [Hsub | (l' & [= <- <-] & Hsub)].
    + assert (k1 ∈ l) by (eapply elem_of_sublist; [|exact Hsub]; left).
      assert (k2 ∈ l) by (eapply elem_of_sublist; [|exact Hsub]; right; left).
      rewrite !bool_decide_eq_false_2 by (intros ->; contradiction).
      apply IH in Hsub; [lia | exact Hnd].
    + apply singleton_sublist_l in Hsub.
      rewrite bool_decide_eq_true_2 by reflexivity.
      rewrite bool_decide_eq_false_2 by (intros ->; contradiction). lia.
Qed.

(** A key that is present already does not change the order of first
    occurrences. *)
Lemma first_index_insert_known (k x1 x2 : str) (ks l : list str) :
  k ∈ ks ->
  (first_index x1 (ks ++ l) < first_index x2 (ks ++ l))%nat ->
  (first_index x1 (ks ++ k :: l) < first_index x2 (ks ++ k :: l))%nat.
Proof.
  intros Hk.
  assert (Hshift : forall x,
    (x ∈ ks /\ first_index x (ks ++ l) = first_index x ks /\
     first_index x (ks ++ k :: l) = first_index x ks /\
     (first_index x ks < length ks)%nat) \/
    ((x ∉ ks) /\ first_index x (ks ++ l) = (length ks + first_index x l)%nat /\
     first_index x (ks ++ k :: l) = S (length ks + first_index x l))).
  { intros x. destruct (decide (x ∈ ks)) as [Hx|Hx].
    - left. rewrite !first_index_app_l by exact Hx.
      split; [exact Hx|]. split; [reflexivity|]. split; [reflexivity|].
      apply first_index_lt. exact Hx.
    - right. rewrite !first_index_app_r by exact Hx. cbn [first_index].
      rewrite bool_decide_eq_false_2 by (intros ->; contradiction).
      split; [exact Hx|]. split; [reflexivity | lia]. }
  destruct (Hshift x1) as [(_ & -> & -> & ?) | (_ & -> & ->)];
    destruct (Hshift x2) as [(_ & -> & -> & ?) | (_ & -> & ->)]; lia.
Qed.

(** ** The keys of the dict *)

Lemma extend_keys_NoDup (l keys : list str) : NoDup keys -> NoDup (extend_keys keys l).
Proof.
  revert keys. induction l as [|k l IH]; intros keys Hnd; cbn; [exact Hnd|].
  apply IH. case_bool_decide; [exact Hnd|].
  apply NoDup_app. split; [exact Hnd|]. split; [|apply NoDup_singleton].
  intros x Hx Hin. apply list_elem_of_singleton in Hin as ->. contradiction.
Qed.

Lemma extend_keys_order (l keys : list str) (k1 k2 : str) :
  NoDup keys -> [k1; k2] `sublist_of` extend_keys keys l ->
  (first_index k1 (keys ++ l) < first_index k2 (keys ++ l))%nat.
Proof.
  revert keys. induction l as [|k l IH]; intros keys Hnd Hsub; cbn in Hsub.
  - rewrite app_nil_r. apply first_index_sublist; assumption.
  - destruct (decide (k ∈ keys)) as [Hk|Hk].
    + rewrite bool_decide_eq_true_2 in Hsub by exact Hk.
      apply first_index_insert_known; [exact Hk|]. apply IH; assumption.
    + rewrite bool_decide_eq_false_2 in Hsub by exact Hk.
      apply IH in Hsub.
      * rewrite <- app_assoc in Hsub. exact Hsub.
      * apply NoDup_app. split; [exact Hnd|]. split; [|apply NoDup_singleton].
        intros x Hx Hin. apply list_elem_of_singleton in Hin as ->. contradiction.
Qed.

(** ** The dict *)

Lemma str_eqb_true (a b : str) : str_eqb a b = true <-> a = b.
Proof. apply bool_decide_eq_true. Qed.

Lemma dict_get_Some {V} (key : str) (d : Dict.t V) (v : V) :
  Dict.get key d = Some v -> (key, v) ∈ d.
Proof.
  induction d as [|[k v'] d IH]; cbn; [discriminate|].
  destruct (str_eqb k key) eqn:E.
  - apply str_eqb_true in E as ->. intros [= ->]. left.
  - intros H. right. apply IH. exact H.
Qed.

Lemma dict_get_None {V} (key : str) (d : Dict.t V) :
  Dict.get key d = None <-> key ∉ map fst d.
Proof.
  induction d as [|[k v'] d IH]; cbn.
  - split; [intros _; apply not_elem_of_nil | reflexivity].
  - rewrite not_elem_of_cons. destruct (str_eqb k key) eqn:E.
    + apply str_eqb_true in E as ->. split; [discriminate | intros [H _]; contradiction].
    + rewrite IH. split; [|tauto]. intros H. split; [|exact H].
      intros ->. rewrite (proj2 (str_eqb_true k k)) in E by reflexivity. discriminate.
Qed.

Lemma dict_set_keys {V} (key : str) (v : V) (d : Dict.t V) :
  map fst (Dict.set key v d) =
    if bool_decide (key ∈ map fst d) then map fst d else map fst d ++ [key].
Proof.
  induction d as [|[k v'] d IH]; cbn.
  - rewrite bool_decide_eq_false_2 by apply not_elem_of_nil. reflexivity.
  - destruct (str_eqb k key) eqn:E.
    + apply str_eqb_true in E as ->. rewrite bool_decide_eq_true_2 by left. reflexivity.
    + cbn. rewrite IH.
      assert (Hne : key <> k).
      { intros ->. rewrite (proj2 (str_eqb_true k k)) in E by reflexivity. discriminate. }
      destruct (decide (key ∈ map fst d)) as [Hin|Hin].
      * rewrite !bool_decide_eq_true_2; [reflexivity | right; exact Hin | exact Hin].
      * rewrite !bool_decide_eq_false_2; [reflexivity | | exact Hin].
        apply not_elem_of_cons. split; assumption.
Qed.

Lemma dict_set_elem {V} (key : str) (v : V) (d : Dict.t V) (kv : str * V) :
  kv ∈ Dict.set key v d -> kv = (key, v) \/ kv ∈ d.
Proof.
  induction d as [|[k v'] d IH]; cbn.
  - rewrite list_elem_of_singleton. tauto.
  - destruct (str_eqb k key) eqn:E.
    + apply str_eqb_true in E as ->. rewrite !elem_of_cons. tauto.
    + rewrite !elem_of_cons. tauto.
Qed.

Lemma dict_set_new {V} (key : str) (v : V) (d : Dict.t V) :
  (key, v) ∈ Dict.set key v d.
Proof.
  induction d as [|[k v'] d IH]; cbn; [left|].
  destruct (str_eqb k key) eqn:E.
  - apply str_eqb_true in E as ->. left.
  - right. exact IH.
Qed.

Lemma dict_set_other {V} (key : str) (v : V) (d : Dict.t V) (k' : str) (v' : V) :
  (k', v') ∈ d -> k' <> key -> (k', v') ∈ Dict.set key v d.
Proof.
  intros Hin Hne. induction d as [|[k w] d IH]; cbn; [apply elem_of_nil in Hin; contradiction|].
  apply elem_of_cons in Hin as [[= <- <-] | Hin].
  - destruct (str_eqb k' key) eqn:E; [|left].
    apply str_eqb_true in E. contradiction.
  - destruct (str_eqb k key); right; [exact Hin | apply IH; exact Hin].
Qed.

Lemma NoDup_keys_unique {V} (d : Dict.t V) (k : str) (v1 v2 : V) :
  NoDup (map fst d) -> (k, v1) ∈ d -> (k, v2) ∈ d -> v1 = v2.
Proof.
  induction d as [|[k' w] d IH]; cbn; intros Hnd H1 H2.
  - apply elem_of_nil in H1. contradiction.
  - apply NoDup_cons in Hnd as [Hk Hnd].
    assert (Hfst : forall v, (k', v) ∈ d -> False).
    { intros v Hv. apply Hk. apply list_elem_of_In, in_map_iff. exists (k', v).
      split; [reflexivity | apply list_elem_of_In; exact Hv]. }
    apply elem_of_cons in H1 as [H1 | H1]; apply elem_of_cons in H2 as [H2 | H2];
      simplify_eq.
    + reflexivity.
    + exfalso. eauto.
    + exfalso. eauto.
    + eauto.
Qed.

(** ** The second loop of the matcher *)

Lemma keep_best_keys (d : Dict.t Entity.t) (e : Entity.t) :
  map fst (keep_best d e) =
    if bool_decide (entity_key e ∈ map fst d) then map fst d else map fst d ++ [entity_key e].
Proof.
  unfold keep_best. fold (entity_key e).
  destruct (Dict.get (entity_key e) d) as [old|] eqn:E.
  - assert (Hin : entity_key e ∈ map fst d).
    { apply dec_stable. intros Hn. apply dict_get_None in Hn. congruence. }
    destruct (Q_ltb _ _).
    + apply dict_set_keys.
    + rewrite bool_decide_eq_true_2 by exact Hin. reflexivity.
  - apply dict_set_keys.
Qed.

Lemma foldl_keep_best_keys (l : list Entity.t) (d : Dict.t Entity.t) :
  map fst (foldl keep_best d l) = extend_keys (map fst d) (map entity_key l).
Proof.
  revert d. induction l as [|e l IH]; intros d; cbn; [reflexivity|].
  rewrite IH, keep_best_keys. reflexivity.
Qed.

Lemma keep_best_wf (d : Dict.t Entity.t) (e : Entity.t) :
  dict_wf d -> dict_wf (keep_best d e).
Proof.
  intros [Hnd Hkey]. split.
  - rewrite keep_best_keys. case_bool_decide; [exact Hnd|].
    apply NoDup_app. split; [exact Hnd|]. split; [|apply NoDup_singleton].
    intros x Hx Hin. apply list_elem_of_singleton in Hin as ->. contradiction.
  - intros k e'. unfold keep_best. fold (entity_key e).
    destruct (Dict.get (entity_key e) d) as [old|]; [destruct (Q_ltb _ _)|];
      try (intros H; apply dict_set_elem in H as [[= -> ->] | H]; [reflexivity | auto]).
    apply Hkey.
Qed.

Lemma foldl_keep_best_wf (l : list Entity.t) (d : Dict.t Entity.t) :
  dict_wf d -> dict_wf (foldl keep_best d l).
Proof.
  revert d. induction l as [|e l IH]; intros d Hwf; cbn; [exact Hwf|].
  apply IH, keep_best_wf, Hwf.
Qed.

(** After [keep_best d e] the dict holds, for the key of [e] and for every
    key of [d], an entity that is at least as confident. *)
Lemma keep_best_covers (d : Dict.t Entity.t) (e : Entity.t) :
  dict_wf d ->
  (exists e', (entity_key e, e') ∈ keep_best d e /\ conf_ge e' e) /\
  (forall k e0, (k, e0) ∈ d -> exists e', (k, e') ∈ keep_best d e /\ conf_ge e' e0).
Proof.
  intros [Hnd Hkey]. unfold keep_best, conf_ge. fold (entity_key e).
  destruct (Dict.get (entity_key e) d) as [old|] eqn:E.
  - pose proof (dict_get_Some _ _ _ E) as Hold.
    destruct (Q_ltb (Entity.confidence old) (Entity.confidence e)) eqn:Elt.
    + apply Q_ltb_lt in Elt. split.
      * exists e. split; [apply dict_set_new | lra].
      * intros k e0 H0. destruct (decide (k = entity_key e)) as [->|Hne].
        -- exists e. split; [apply dict_set_new|].
           rewrite (NoDup_keys_unique d _ e0 old Hnd H0 Hold). lra.
        -- exists e0. split; [apply dict_set_other; assumption | lra].
    + apply Q_ltb_ge in Elt. split.
      * exists old. split; [exact Hold | exact Elt].
      * intros k e0 H0. exists e0. split; [exact H0 | lra].
  - apply dict_get_None in E. split.
    + exists e. split; [apply dict_set_new | lra].
    + intros k e0 H0. exists e0. split; [|lra].
      apply dict_set_other; [exact H0|]. intros ->. apply E.
      apply list_elem_of_In, in_map_iff. exists (entity_key e, e0).
      split; [reflexivity | apply list_elem_of_In; exact H0].
Qed.

Lemma foldl_keep_best_covers (l : list Entity.t) (d : Dict.t Entity.t) :
  dict_wf d ->
  (forall c, c ∈ l ->
     exists e', (entity_key c, e') ∈ foldl keep_best d l /\ conf_ge e' c) /\
  (forall k e0, (k, e0) ∈ d ->
     exists e', (k, e') ∈ foldl keep_best d l /\ conf_ge e' e0).
Proof.
  revert d. induction l as [|e l IH]; intros d Hwf; cbn [foldl].
  - split.
    + intros c Hc. apply elem_of_nil in Hc. contradiction.
    + intros k e0 H0. exists e0. split; [exact H0 | unfold conf_ge; lra].
  - destruct (keep_best_covers d e Hwf) as [(e1 & He1 & Hge1) Hold].
    destruct (IH (keep_best d e) (keep_best_wf d e Hwf)) as [IHnew IHold].
    split.
    + intros c Hc. apply elem_of_cons in Hc as [-> | Hc]; [|apply IHnew; exact Hc].
      destruct (IHold _ _ He1) as (e' & He' & Hge'). exists e'.
      split; [exact He' | unfold conf_ge in *; lra].
    + intros k e0 H0. destruct (Hold k e0 H0) as (e2 & He2 & Hge2).
      destruct (IHold _ _ He2) as (e' & He' & Hge'). exists e'.
      split; [exact He' | unfold conf_ge in *; lra].
Qed.

Lemma dict_values_keys (d : Dict.t Entity.t) :
  dict_wf d -> map fst d = map entity_key (Dict.values d).
Proof.
  intros [_ Hkey]. unfold Dict.values. rewrite map_map. apply map_ext_in.
  intros [k e] Hin. cbn. apply Hkey, list_elem_of_In. exact Hin.
Qed.

Lemma dict_values_elem {V} (d : Dict.t V) (k : str) (v : V) :
  (k, v) ∈ d -> v ∈ Dict.values d.
Proof.
  intros H. unfold Dict.values. apply list_elem_of_In, in_map_iff.
  exists (k, v). split; [reflexivity | apply list_elem_of_In; exact H].
Qed.

(** ** The sort *)

Lemma insert_desc_sorted (x : Entity.t) (l : list Entity.t) :
  StronglySorted conf_ge l -> StronglySorted conf_ge (insert_desc x l).
Proof.
  induction 1 as [|y l Hl IH Hy]; cbn.
  - repeat constructor.
  - destruct (Q_ltb (Entity.confidence x) (Entity.confidence y)) eqn:E.
    + apply Q_ltb_lt in E. constructor; [exact IH|].
      rewrite insert_desc_perm. constructor; [unfold conf_ge; lra | exact Hy].
    + apply Q_ltb_ge in E. constructor; [constructor; assumption|].
      constructor; [exact E|].
      eapply Forall_impl; [exact Hy|]. unfold conf_ge. intros z Hz. cbn in Hz. lra.
Qed.

Lemma sorted_by_confidence_sorted (l : list Entity.t) :
  StronglySorted conf_ge (sorted_by_confidence_reverse l).
Proof.
  unfold sorted_by_confidence_reverse. induction l as [|x l IH]; cbn.
  - constructor.
  - apply insert_desc_sorted. exact IH.
Qed.

(** Where two elements of [insert_desc x l] come from. *)
Lemma insert_desc_sublist (x a b : Entity.t) (l : list Entity.t) :
  [a; b] `sublist_of` insert_desc x l ->
  [a; b] `sublist_of` l \/ (a = x /\ b ∈ l) \/
  (b = x /\ (Entity.confidence b < Entity.confidence a)%Q).
Proof.
  induction l as [|y l IH]; cbn.
  - intros H. apply sublist_cons_r in H as [H | (l' & [= <- <-] & H)].
    + apply sublist_nil_r in H. discriminate.
    + apply sublist_nil_r in H. discriminate.
  - destruct (Q_ltb (Entity.confidence x) (Entity.confidence y)) eqn:E.
    + apply Q_ltb_lt in E. intros H.
      apply sublist_cons_r in H as [H | (l' & [= <- <-] & H)].
      * apply IH in H as [H | [[-> H] | H]].
        -- left. apply sublist_cons. exact H.
        -- right. left. split; [reflexivity | right; exact H].
        -- right. right. exact H.
      * apply singleton_sublist_l in H. rewrite insert_desc_perm in H.
        apply elem_of_cons in H as [-> | H].
        -- right. right. split; [reflexivity | exact E].
        -- left. apply sublist_skip. apply singleton_sublist_l. exact H.
    + intros H. apply sublist_cons_r in H as [H | (l' & [= <- <-] & H)].
      * left. exact H.
      * right. left. split; [reflexivity|]. apply singleton_sublist_l. exact H.
Qed.

(** The sort is stable: two elements of the same confidence keep their order. *)
Lemma sorted_by_confidence_stable (a b : Entity.t) (l : list Entity.t) :
  [a; b] `sublist_of` sorted_by_confidence_reverse l ->
  (Entity.confidence a == Entity.confidence b)%Q ->
  [a; b] `sublist_of` l.
Proof.
  intros Hsub Htie. revert Hsub. unfold sorted_by_confidence_reverse.
  induction l as [|x l IH]; cbn; [trivial|].
  intros H. apply insert_desc_sublist in H as [H1 | [[Hax Hb] | [_ Hlt]]].
  - apply sublist_cons. apply IH. exact H1.
  - rewrite Hax. apply sublist_skip. apply singleton_sublist_l.
    fold (sorted_by_confidence_reverse l) in Hb. rewrite sorted_perm in Hb. exact Hb.
  - lra.
Qed.

Lemma sublist_map {A B} (f : A -> B) (l1 l2 : list A) :
  l1 `sublist_of` l2 -> map f l1 `sublist_of` map f l2.
Proof. induction 1; cbn; [constructor | apply sublist_skip | apply sublist_cons]; assumption. Qed.

(** ** The first loop of the matcher *)

Lemma matched_entities_elem (self : Processor) (text_lower : str) (words kb : list str)
    (e : Entity.t) :
  e ∈ matched_entities self text_lower words kb ->
  contains (entity_key e) text_lower = true /\ Entity.text e ∈ kb.
Proof.
  induction kb as [|entity rest IH]; cbn.
  - intros H. apply elem_of_nil in H. contradiction.
  - destruct (contains (lower entity) text_lower) eqn:E.
    + intros H. apply elem_of_cons in H as [-> | H].
      * split; [exact E | left].
      * apply IH in H as [H1 H2]. split; [exact H1 | right; exact H2].
    + intros H. apply IH in H as [H1 H2]. split; [exact H1 | right; exact H2].
Qed.

(** The recorded entities are in the order of the lexicon. *)
Lemma matched_entities_order (self : Processor) (text_lower : str) (words kb : list str)
    (k1 k2 : str) :
  contains k1 text_lower = true -> contains k2 text_lower = true ->
  (first_index k1 (map entity_key (matched_entities self text_lower words kb))
   < first_index k2 (map entity_key (matched_entities self text_lower words kb)))%nat ->
  (first_index k1 (map lower kb) < first_index k2 (map lower kb))%nat.
Proof.
  intros H1 H2. induction kb as [|entity rest IH]; cbn [matched_entities map].
  - cbn. lia.
  - destruct (contains (lower entity) text_lower) eqn:E.
    + cbn [map first_index].
      change (entity_key (Entity.Build_t entity _ _)) with (lower entity).
      repeat case_bool_decide; first [lia | congruence].
    + intros Hlt. apply IH in Hlt. cbn [first_index].
      rewrite !bool_decide_eq_false_2 by congruence. lia.
Qed.

(** C5. The entities that the category matcher returns have distinct
    case-insensitive keys; for every entity recorded the result holds one of
    the same key that is at least as confident, and nothing else; the result
    is in descending order of confidence; and of two entities of the same
    confidence the one whose key is seen first in the iteration over the
    lexicon comes first. *)
Theorem extract_entities_dedup_sorted (self : Processor) (text : str) (kb : list str) :
  let result := extract_entities_by_category self text kb in
  let recorded := matched_entities self (lower text) (split (lower text)) kb in
  NoDup (map entity_key result) /\
  (forall c, c ∈ recorded ->
     exists e, e ∈ result /\ entity_key e = entity_key c /\ conf_ge e c) /\
  (forall e, e ∈ result -> e ∈ recorded) /\
  StronglySorted conf_ge result /\
  (forall a b,
     [a; b] `sublist_of` result ->
     (Entity.confidence a == Entity.confidence b)%Q ->
     (first_index (entity_key a) (map lower kb)
      < first_index (entity_key b) (map lower kb))%nat).
Proof.
  intros result recorded.
  set (d := foldl keep_best [] recorded).
  assert (Hwf0 : dict_wf ([] : Dict.t Entity.t)).
  { split; [constructor|]. intros k e H. apply elem_of_nil in H. contradiction. }
  assert (Hwf : dict_wf d) by (apply foldl_keep_best_wf; exact Hwf0).
  assert (Hres : result = sorted_by_confidence_reverse (Dict.values d)) by reflexivity.
  assert (Hkeys : map entity_key (Dict.values d) = extend_keys [] (map entity_key recorded)).
  { rewrite <- dict_values_keys by exact Hwf. apply (foldl_keep_best_keys recorded []). }
  split; [|split; [|split; [|split]]].
  - rewrite Hres, (Permutation_map entity_key (sorted_perm _)), Hkeys.
    apply extend_keys_NoDup. constructor.
  - intros c Hc.
    destruct (proj1 (foldl_keep_best_covers recorded [] Hwf0) c Hc) as (e & He & Hge).
    exists e. split; [|split; [|exact Hge]].
    + rewrite Hres, sorted_perm. eapply dict_values_elem. exact He.
    + symmetry. apply (proj2 Hwf). exact He.
  - intros e He. apply extract_entities_subset. exact He.
  - rewrite Hres. apply sorted_by_confidence_sorted.
  - intros a b Hsub Htie. rewrite Hres in Hsub.
    assert (Ha : a ∈ recorded).
    { apply extract_entities_subset. eapply elem_of_sublist; [|exact Hsub]. left. }
    assert (Hb : b ∈ recorded).
    { apply extract_entities_subset. eapply elem_of_sublist; [|exact Hsub]. right. left. }
    apply matched_entities_elem in Ha as [Ha _]. apply matched_entities_elem in Hb as [Hb _].
    apply (matched_entities_order self (lower text) (split (lower text)) kb _ _ Ha Hb).
    apply sorted_by_confidence_stable in Hsub; [|exact Htie].
    apply (sublist_map entity_key) in Hsub. rewrite Hkeys in Hsub. cbn [map] in Hsub.
    apply (extend_keys_order _ [] _ _ (NoDup_nil_2)) in Hsub. exact Hsub.
Qed.

(** ** The empty input *)

(** C2 as stated fails: on the empty text the map of confidence scores has
    no entry for [url_extraction], so it is not a map of zeros under the
    four keys. *)
Lemma process_text_empty_scores :
  ~ exists q : Q,
      Result.confidence_scores (process_text init (Some [])) !! "url_extraction" = Some q
      /\ (q == 0)%Q.
Proof. intros (q & Hq & _). cbn in Hq. rewrite lookup_empty in Hq. discriminate. Qed.

(** C2, amended. For the empty text and for an absent text, [process_text]
    returns a result (no error is possible) in which every list is empty and
    the map of confidence scores is empty. *)
Theorem process_text_empty (self : Processor) (text : option str) :
  text = None \/ text = Some [] ->
  let result := process_text self text in
  Result.urls result = [] /\
  Result.tools_and_software result = [] /\
  Result.programming_languages result = [] /\
  Result.frameworks_and_libraries result = [] /\
  Result.platforms_and_services result = [] /\
  Result.companies_and_brands result = [] /\
  Result.file_formats result = [] /\
  Result.apis_and_protocols result = [] /\
  Result.technical_concepts result = [] /\
  Result.code_snippets result = [] /\
  Result.commands result = [] /\
  Result.confidence_scores result = ∅.
Proof. intros [-> | ->]; cbn; repeat split. Qed.

Lemma process_text_empty_witness :
  Result.commands (process_text init None) = [] /\
  Result.confidence_scores (process_text init (Some [])) = ∅.
Proof.
  split.
  - apply (process_text_empty init None). left. reflexivity.
  - apply (process_text_empty init (Some [])). right. reflexivity.
Defined.

(** ** The range of the confidences *)

Lemma extract_entities_confidence (self : Processor) (text : str) (kb : list str) :
  Forall (fun e => ((5 # 10) <= Entity.confidence e <= 1)%Q)
         (extract_entities_by_category self text kb).
Proof.
  apply Forall_forall. intros e He. apply extract_entities_subset in He.
  pose proof (matched_entities_confidence self (lower text) (split (lower text)) kb) as H.
  rewrite Forall_forall in H. apply H. exact He.
Qed.

Lemma extract_code_snippets_confidence (text : str) (s : Snippet.t) :
  s ∈ extract_code_snippets text ->
  Snippet.confidence s = (9 # 10)%Q \/ Snippet.confidence s = (6 # 10)%Q.
Proof.
  unfold extract_code_snippets. rewrite elem_of_app, !list_elem_of_In.
  intros [H | H].
  - apply in_map_iff in H as ([language code] & <- & _). left. reflexivity.
  - apply in_flat_map in H as (code & _ & H). destruct (2 <? _); [|contradiction].
    destruct H as [<- | []]. right. reflexivity.
Qed.

(** C8. Every confidence that the engine produces lies in the closed
    interval from 0 to 1: that of the entities that the category matcher
    returns, of the code snippets, of the commands, and of the entries of
    the result of [process_text]. *)
Theorem confidence_in_unit_interval (self : Processor) (text : str) :
  (forall kb, Forall (fun e => in_unit_interval (Entity.confidence e))
                     (extract_entities_by_category self text kb)) /\
  Forall (fun s => in_unit_interval (Snippet.confidence s)) (extract_code_snippets text) /\
  Forall (fun c => in_unit_interval (Command.confidence c)) (extract_commands text) /\
  (forall input,
     let result := process_text self input in
     Forall (fun e => in_unit_interval (Entity.confidence e))
            (Result.tools_and_software result) /\
     Forall (fun s => in_unit_interval (Snippet.confidence s)) (Result.code_snippets result) /\
     Forall (fun c => in_unit_interval (Command.confidence c)) (Result.commands result)).
Proof.
  assert (Hent : forall t kb, Forall (fun e => in_unit_interval (Entity.confidence e))
                                (extract_entities_by_category self t kb)).
  { intros t kb. eapply Forall_impl; [apply extract_entities_confidence|].
    intros e He. cbn in He. unfold in_unit_interval. lra. }
  assert (Hsnip : forall t, Forall (fun s => in_unit_interval (Snippet.confidence s))
                              (extract_code_snippets t)).
  { intros t. apply Forall_forall. intros s Hs.
    apply extract_code_snippets_confidence in Hs as [-> | ->];
      unfold in_unit_interval; lra. }
  assert (Hcmd : forall t, Forall (fun c => in_unit_interval (Command.confidence c))
                             (extract_commands t)).
  { intros t. apply Forall_forall. intros c Hc.
    apply extract_commands_fixed in Hc as [-> _]. unfold in_unit_interval. lra. }
  split; [apply Hent|]. split; [apply Hsnip|]. split; [apply Hcmd|].
  intros [[|c t]|]; cbn -[extract_entities_by_category extract_code_snippets extract_commands];
    try (repeat split; constructor).
  split; [|split; [apply Hsnip | apply Hcmd]].
  apply Forall_app. split; [apply Hent|].
  apply Forall_app. split; [apply Hent|].
  apply Forall_forall. intros e He. apply list_elem_of_filter in He as [_ He].
  pose proof (Hent (c :: t) (technical_concepts self)) as H.
  rewrite Forall_forall in H. apply H. exact He.
Qed.

(** An entity that the first loop records carries the score of its term. *)
Lemma matched_entities_elem_scored (self : Processor) (text_lower : str)
    (words kb : list str) (e : Entity.t) :
  e ∈ matched_entities self text_lower words kb ->
  exists entity,
    e = {| Entity.text := entity;
           Entity.confidence := calculate_confidence text_lower (lower entity) words;
           Entity.category := get_entity_category self entity |}.
Proof.
  induction kb as [|entity rest IH]; cbn.
  - intros H. apply elem_of_nil in H. contradiction.
  - destruct (contains (lower entity) text_lower); [|exact IH].
    intros H. apply elem_of_cons in H as [-> | H]; [eauto | apply IH; exact H].
Qed.

(** C10. Every entity that the category matcher returns has a confidence
    of at least 0.5 (and at most 1). *)
Theorem matched_entity_confidence_at_least_half (self : Processor) (text : str)
    (knowledge_base : list str) :
  Forall (fun e => ((5 # 10) <= Entity.confidence e <= 1)%Q)
         (extract_entities_by_category self text knowledge_base).
Proof.
  apply Forall_forall. intros e He.
  apply extract_entities_subset, matched_entities_elem_scored in He as (entity & ->).
  cbn. apply calculate_confidence_bounds.
Qed.

(** The two ends of that range are reached. *)
Example confidence_half_reached :
  map Entity.confidence (extract_entities_by_category init (py "a car") [py "r"])
    = [ (5 # 10)%Q ].
Proof. vm_compute. reflexivity. Qed.

Example confidence_one_reached :
  map Entity.confidence
      (extract_entities_by_category init (py "react with React, react and react")
         [py "react"])
    = [ 1%Q ].
Proof. vm_compute. reflexivity. Qed.

(** The text of [test_entity_extraction]: the term is reported in the form
    of the lexicon, and the tools are React and MongoDB. *)
Example sample_text_entities :
  let result := process_text init (Some sample_text) in
  py "python" ∈ Result.programming_languages result /\
  (py "Python" ∉ Result.programming_languages result) /\
  map Entity.text (Result.tools_and_software result) = [py "react"; py "mongodb"].
Proof.
  cbv zeta. split; [|split].
  - apply (bool_decide_eq_true_1 _). vm_compute. reflexivity.
  - apply (bool_decide_eq_false_1 _). vm_compute. reflexivity.
  - vm_compute. reflexivity.
Qed.

(** ** The claims that the code does not meet, at concrete inputs *)


(** On the command alone the entry holds the name of the tool only, which is
    what [re.findall] returns for a pattern with one group. *)
Example npm_command_alone :
  extract_commands npm_command =
    [ {| Command.command := py "npm"; Command.type := "cli_command";
         Command.confidence := (8 # 10)%Q |} ].
Proof. vm_compute. reflexivity. Qed.

(** C3 as stated fails: the list has two entries. *)
Lemma fenced_javascript_two_entries :
  length (extract_code_snippets fenced_javascript) <> 1%nat.
Proof. vm_compute. discriminate. Qed.

Example fenced_javascript_all :
  extract_code_snippets fenced_javascript =
    [ fenced_entry;
      {| Snippet.type := inline_code; Snippet.language := py "unknown";
         Snippet.code := py "javascript" ++ newline ++ py "const x = 1;";
         Snippet.confidence := (6 # 10)%Q |} ].
Proof. vm_compute. reflexivity. Qed.

(** C3, amended. The snippets of the fenced block hold exactly one entry of
    type [code_block]; it is the first entry, with language "javascript",
    code "const x = 1;" and confidence 0.9. *)
Theorem fenced_javascript_code_block :
  List.filter is_code_block (extract_code_snippets fenced_javascript) = [fenced_entry] /\
  head (extract_code_snippets fenced_javascript) = Some fenced_entry.
Proof. split; vm_compute; reflexivity. Qed.


Example calculate_confidence_window :
  (calculate_confidence (py "react a b c d using") (py "react")
     (split (py "react a b c d using")) == 8 # 10)%Q /\
  (calculate_confidence (py "react a b c using d") (py "react")
     (split (py "react a b c using d")) == 9 # 10)%Q /\
  (calculate_confidence (py " c++ ") (py "c++") (split (py " c++ ")) == 5 # 10)%Q.
Proof. repeat split; vm_compute; reflexivity. Qed.


(** ** The theorems at concrete inputs *)



Lemma extract_entities_dedup_sorted_witness :
  extract_entities_by_category init (py "vue and react") small_lexicon
    = [entity_React; entity_vue] /\
  (first_index (entity_key entity_React) (map lower small_lexicon)
   < first_index (entity_key entity_vue) (map lower small_lexicon))%nat.
Proof.
  assert (Hres : extract_entities_by_category init (py "vue and react") small_lexicon
                 = [entity_React; entity_vue]) by (vm_compute; reflexivity).
  split; [exact Hres|].
  apply (extract_entities_dedup_sorted init (py "vue and react") small_lexicon).
  - rewrite Hres. reflexivity.
  - reflexivity.
Defined.


Import ReShape ReMust ReRun VideoId.

(** ** Occurrences *)

Lemma contains_spec (sub s : str) : contains sub s = true <-> substring sub s.
Proof.
  unfold substring. induction s as [|c t IH]; cbn [contains].
  - rewrite orb_false_r. split.
    + intros H. apply startswith_split in H. exists [], (skipn (length sub) []). exact H.
    + intros (pre & post & H). symmetry in H.
      apply app_eq_nil in H as [-> H]. apply app_eq_nil in H as [-> ->]. reflexivity.
  - rewrite orb_true_iff, IH. split.
    + intros [H | (pre & post & ->)].
      * apply startswith_split in H. exists [], (skipn (length sub) (c :: t)). exact H.
      * exists (c :: pre), post. reflexivity.
    + intros ([|x pre] & post & H); cbn [app] in H.
      * left. rewrite H. apply startswith_app.
      * right. injection H as -> ->. eauto.
Qed.

Lemma substring_refl (s : str) : substring s s.
Proof. exists [], []. rewrite app_nil_r. reflexivity. Qed.

Lemma substring_trans (a b c : str) : substring a b -> substring b c -> substring a c.
Proof.
  intros (p1 & q1 & ->) (p2 & q2 & ->). exists (p2 ++ p1), (q1 ++ q2).
  rewrite <- !app_assoc. reflexivity.
Qed.

Lemma substring_elem (sub s : str) (x : ascii) : substring sub s -> x ∈ sub -> x ∈ s.
Proof. intros (pre & post & ->) H. rewrite !elem_of_app. auto. Qed.

Lemma lstrip_substring (p : ascii -> bool) (s : str) : substring (lstrip p s) s.
Proof.
  destruct (lstrip_suffix p s) as [pre H]. exists pre, []. rewrite app_nil_r. exact H.
Qed.

Lemma substring_rev (a b : str) : substring a b -> substring (rev a) (rev b).
Proof.
  intros (pre & post & ->). exists (rev post), (rev pre).
  rewrite !rev_app_distr, <- app_assoc. reflexivity.
Qed.

Lemma strip_chars_substring (p : ascii -> bool) (s : str) : substring (strip_chars p s) s.
Proof.
  unfold strip_chars, rstrip. eapply substring_trans; [|apply lstrip_substring].
  rewrite <- (rev_involutive (lstrip p s)) at 2.
  apply substring_rev, lstrip_substring.
Qed.

(** ** The shape of a match *)

Section Shape.
Variable fl : flags.

Lemma advances_nil st : advances [] st st.
Proof. repeat split; cbn; auto. Qed.

Lemma advances_trans cs1 cs2 st1 st2 st3 :
  advances cs1 st1 st2 -> advances cs2 st2 st3 -> advances (cs1 ++ cs2) st1 st3.
Proof.
  intros (A1 & A2 & A3) (B1 & B2 & B3). repeat split.
  - rewrite A1, B1, app_assoc. reflexivity.
  - rewrite B2, A2, length_app. lia.
  - rewrite B3, A3, last_or_app. reflexivity.
Qed.

Lemma star_greedy_shape p k caps s : forall prev pos res,
  star_greedy p k caps prev pos s = Some res ->
  exists cs st',
    k st' = Some res /\
    advances cs {| m_prev := prev; m_rest := s; m_pos := pos; m_caps := caps |} st' /\
    Forall (fun x => p x = true) cs /\ m_caps st' = caps.
Proof.
  induction s as [|c t IH]; intros prev pos res H; cbn in H.
  - eexists [], _. split; [exact H|]. split; [apply advances_nil|]. split; [constructor|reflexivity].
  - assert (Hhere : k {| m_prev := prev; m_rest := c :: t; m_pos := pos; m_caps := caps |} = Some res ->
      exists cs st', k st' = Some res /\
        advances cs {| m_prev := prev; m_rest := c :: t; m_pos := pos; m_caps := caps |} st' /\
        Forall (fun x => p x = true) cs /\ m_caps st' = caps).
    { intros Hk. eexists [], _. split; [exact Hk|]. split; [apply advances_nil|].
      split; [constructor|reflexivity]. }
    destruct (p c) eqn:Hp; [|auto].
    destruct (star_greedy p k caps (Some c) (S pos) t) as [m|] eqn:Hrec; [|auto].
    injection H as ->. apply IH in Hrec as (cs & st' & Hk & (A1 & A2 & A3) & Hall & Hcaps).
    exists (c :: cs), st'. split; [exact Hk|]. cbn in *. split; [|split; [constructor; auto | exact Hcaps]].
    repeat split; cbn.
    + rewrite A1. reflexivity.
    + lia.
    + rewrite A3, last_or_cons. reflexivity.
Qed.

Lemma star_lazy_shape p k caps s : forall prev pos res,
  star_lazy p k caps prev pos s = Some res ->
  exists cs st',
    k st' = Some res /\
    advances cs {| m_prev := prev; m_rest := s; m_pos := pos; m_caps := caps |} st' /\
    Forall (fun x => p x = true) cs /\ m_caps st' = caps.
Proof.
  induction s as [|c t IH]; intros prev pos res H; cbn in H.
  - destruct (k _) eqn:Hk; [|discriminate]. injection H as ->.
    eexists [], _. split; [exact Hk|]. split; [apply advances_nil|]. split; [constructor|reflexivity].
  - destruct (k _) eqn:Hk.
    + injection H as ->. eexists [], _. split; [exact Hk|]. split; [apply advances_nil|].
      split; [constructor|reflexivity].
    + destruct (p c) eqn:Hp; [|discriminate].
      apply IH in H as (cs & st' & Hk' & (A1 & A2 & A3) & Hall & Hcaps).
      exists (c :: cs), st'. split; [exact Hk'|]. cbn in *.
      split; [|split; [constructor; auto | exact Hcaps]].
      repeat split; cbn.
      * rewrite A1. reflexivity.
      * lia.
      * rewrite A3, last_or_cons. reflexivity.
Qed.

Lemma step_shape ok st k res :
  step ok st k = Some res ->
  exists x st', k st' = Some res /\ advances [x] st st' /\ ok x = true /\
                m_caps st' = m_caps st.
Proof.
  unfold step. destruct st as [prev [|x t] pos caps]; cbn; [discriminate|].
  destruct (ok x) eqn:E; [|discriminate]. intros H.
  eexists x, _. split; [exact H|]. repeat split; cbn; auto. lia.
Qed.

(** A successful match of [r] passes to the continuation a state that lies
    behind characters of the shape of [r]. *)
Lemma rmatch_shape r : forall st k res,
  rmatch fl r st k = Some res ->
  exists cs st',
    k st' = Some res /\ advances cs st st' /\
    shape fl r (m_prev st) cs (m_rest st') (m_caps st) (m_caps st').
Proof.
  induction r as [ | c | p | r1 IH1 r2 IH2 | r1 IH1 r2 IH2 | r1 IH1 | p | p | n r1 IH1 | | ];
    intros st k res H; cbn [rmatch] in H; cbn [shape].
  - exists [], st. split; [exact H|]. split; [apply advances_nil | auto].
  - apply step_shape in H as (x & st' & Hk & Ha & Hx & Hc).
    exists [x], st'. split; [exact Hk|]. split; [exact Ha|]. exists x. auto.
  - apply step_shape in H as (x & st' & Hk & Ha & Hx & Hc).
    exists [x], st'. split; [exact Hk|]. split; [exact Ha|]. exists x. auto.
  - apply IH1 in H as (cs1 & st1 & H & Ha1 & Hs1).
    apply IH2 in H as (cs2 & st2 & H & Ha2 & Hs2).
    exists (cs1 ++ cs2), st2. split; [exact H|].
    split; [eapply advances_trans; eauto|].
    exists cs1, cs2, (m_caps st1). split; [reflexivity|].
    destruct Ha1 as (A1 & A2 & A3). destruct Ha2 as (B1 & B2 & B3).
    rewrite <- B1. split; [exact Hs1|]. rewrite <- A3. exact Hs2.
  - destruct (rmatch fl r1 st k) eqn:E1.
    + injection H as ->. apply IH1 in E1 as (cs & st' & Hk & Ha & Hs). eauto 8.
    + apply IH2 in H as (cs & st' & Hk & Ha & Hs). eauto 8.
  - destruct (rmatch fl r1 st k) eqn:E1.
    + injection H as ->. apply IH1 in E1 as (cs & st' & Hk & Ha & Hs). eauto 8.
    + exists [], st. split; [exact H|]. split; [apply advances_nil | auto].
  - destruct st as [prev s pos caps]. cbn in H.
    apply star_greedy_shape in H as (cs & st' & Hk & Ha & Hall & Hc).
    exists cs, st'. cbn. auto.
  - destruct st as [prev s pos caps]. cbn in H.
    apply star_lazy_shape in H as (cs & st' & Hk & Ha & Hall & Hc).
    exists cs, st'. cbn. auto.
  - apply IH1 in H as (cs & st' & Hk & Ha & Hs).
    eexists cs, _. split; [exact Hk|].
    destruct Ha as (A1 & A2 & A3).
    split; [repeat split; cbn; assumption|].
    cbn. exists (m_caps st'). split; [exact Hs|].
    rewrite A2, A1. replace (m_pos st + length cs - m_pos st) with (length cs) by lia.
    rewrite take_app_length. reflexivity.
  - destruct (at_bol fl (m_prev st)) eqn:E; [|discriminate].
    exists [], st. split; [exact H|]. split; [apply advances_nil | auto].
  - destruct (at_boundary (m_prev st) (m_rest st)) eqn:E; [|discriminate].
    exists [], st. split; [exact H|]. split; [apply advances_nil | auto].
Qed.

(** A match at a position is a prefix of the text there, of the shape of the
    pattern. *)
Lemma match_at_shape r prev s m :
  match_at fl r prev s = Some m ->
  exists rest, s = whole m ++ rest /\ shape fl r prev (whole m) rest [] (caps m).
Proof.
  unfold match_at. destruct (rmatch _ _ _ _) as [st|] eqn:E; [|discriminate].
  intros [= <-]. cbn [whole caps].
  apply rmatch_shape in E as (cs & st' & [= ->] & (A1 & A2 & A3) & Hs).
  cbn in *. exists (m_rest st). rewrite A2, A1, take_app_length. split; [reflexivity|exact Hs].
Qed.

(** Every match that the scan reports is the match at some position. *)
Lemma scan_elem r m s : forall prev skip,
  m ∈ scan fl r prev s skip ->
  exists pre post, s = pre ++ post /\ match_at fl r (last_or prev pre) post = Some m.
Proof.
  induction s as [|c t IH]; intros prev skip H.
  - destruct skip; cbn in H.
    + destruct (match_at fl r prev []) eqn:E.
      * apply list_elem_of_singleton in H as ->. exists [], []. auto.
      * apply elem_of_nil in H. contradiction.
    + apply elem_of_nil in H. contradiction.
  - assert (Hrec : forall n, m ∈ scan fl r (Some c) t n ->
              exists pre post, c :: t = pre ++ post /\
                               match_at fl r (last_or prev pre) post = Some m).
    { intros n Hn. apply IH in Hn as (pre & post & -> & Hm).
      exists (c :: pre), post. split; [reflexivity|]. rewrite last_or_cons. exact Hm. }
    destruct skip; cbn in H; [|eauto].
    destruct (match_at fl r prev (c :: t)) eqn:E; [|eauto].
    apply elem_of_cons in H as [-> | H]; [|eauto].
    exists [], (c :: t). auto.
Qed.

Lemma finditer_elem r m text :
  m ∈ finditer fl r text ->
  exists pre post, text = pre ++ post /\ match_at fl r (last pre) post = Some m.
Proof.
  intros H. apply scan_elem in H as (pre & post & -> & Hm).
  rewrite last_or_None in Hm. eauto.
Qed.

Lemma finditer_whole_substring r m text :
  m ∈ finditer fl r text -> substring (whole m) text.
Proof.
  intros H. apply finditer_elem in H as (pre & post & -> & Hm).
  apply match_at_shape in Hm as (rest & -> & _). exists pre, rest. reflexivity.
Qed.

End Shape.

(** A literal matches itself when case is not ignored. *)
Lemma shape_lit (fl : flags) (e : str) : forall prev cs next caps caps',
  IGNORECASE fl = false ->
  shape fl (lit e) prev cs next caps caps' -> cs = e /\ caps' = caps.
Proof.
  induction e as [|c e IH]; intros prev cs next caps caps' Hfl; cbn [lit shape].
  - auto.
  - intros (cs1 & cs2 & caps1 & -> & (x & -> & Hx & ->) & H2).
    apply IH in H2 as [-> ->]; [|exact Hfl].
    unfold lit_eq in Hx. rewrite Hfl in Hx. apply Ascii.eqb_eq in Hx as ->. auto.
Qed.

Lemma shape_alts_words (fl : flags) (e : string) (l : list string) :
  forall prev cs next caps caps',
  IGNORECASE fl = false ->
  shape fl (alts (lit (py e)) (words l)) prev cs next caps caps' ->
  cs ∈ map py (e :: l) /\ caps' = caps.
Proof.
  revert e. induction l as [|e' l IH]; intros e prev cs next caps caps' Hfl; cbn [alts words map shape].
  - intros H. apply shape_lit in H as [-> ->]; [|exact Hfl]. split; [left|reflexivity].
  - intros [H | H].
    + apply shape_lit in H as [-> ->]; [|exact Hfl]. split; [left|reflexivity].
    + apply IH in H as [H ->]; [|exact Hfl]. split; [right; exact H|reflexivity].
Qed.

(** ** What the category matcher reports *)

Lemma dict_wf_nil : dict_wf ([] : Dict.t Entity.t).
Proof.
  split; [constructor|]. intros k e H. apply elem_of_nil in H. contradiction.
Qed.

Lemma extract_entities_keys (self : Processor) (text : str) (kb : list str) :
  map entity_key (extract_entities_by_category self text kb) ≡ₚ
  extend_keys [] (map entity_key (matched_entities self (lower text) (split (lower text)) kb)).
Proof.
  unfold extract_entities_by_category.
  rewrite (Permutation_map entity_key (sorted_perm _)).
  rewrite <- dict_values_keys by (apply foldl_keep_best_wf, dict_wf_nil).
  rewrite (foldl_keep_best_keys _ []). reflexivity.
Qed.

Lemma extract_entities_NoDup (self : Processor) (text : str) (kb : list str) :
  NoDup (map entity_key (extract_entities_by_category self text kb)).
Proof. rewrite extract_entities_keys. apply extend_keys_NoDup. constructor. Qed.

Lemma extract_entities_covers (self : Processor) (text : str) (kb : list str) (c : Entity.t) :
  c ∈ matched_entities self (lower text) (split (lower text)) kb ->
  exists e, e ∈ extract_entities_by_category self text kb /\ entity_key e = entity_key c.
Proof.
  intros Hc.
  destruct (proj1 (foldl_keep_best_covers _ [] dict_wf_nil) c Hc) as (e & He & _).
  exists e. split.
  - unfold extract_entities_by_category. rewrite sorted_perm.
    eapply dict_values_elem. exact He.
  - symmetry. apply (proj2 (foldl_keep_best_wf _ [] dict_wf_nil)) in He. exact He.
Qed.

Lemma matched_entities_complete (self : Processor) (text_lower : str) (words kb : list str)
    (term : str) :
  term ∈ kb -> contains (lower term) text_lower = true ->
  scored_entity self text_lower words term ∈ matched_entities self text_lower words kb.
Proof.
  intros Hin Hc. induction kb as [|entity rest IH]; [apply elem_of_nil in Hin; contradiction|].
  cbn [matched_entities]. apply elem_of_cons in Hin as [<- | Hin].
  - rewrite Hc. left.
  - destruct (contains (lower entity) text_lower); [right|]; apply IH; exact Hin.
Qed.

Lemma extract_entities_key_iff (self : Processor) (text : str) (kb : list str) (k : str) :
  k ∈ map entity_key (extract_entities_by_category self text kb) <->
  exists term, term ∈ kb /\ lower term = k /\ contains k (lower text) = true.
Proof.
  rewrite list_elem_of_fmap. split.
  - intros (e & -> & He). apply extract_entities_subset, matched_entities_elem in He as [H1 H2].
    exists (Entity.text e). auto.
  - intros (term & Hin & <- & Hc).
    pose proof (matched_entities_complete self (lower text) (split (lower text)) kb term Hin Hc)
      as Hm.
    apply extract_entities_covers in Hm as (e & He & Hkey). eauto.
Qed.

(** X1. A lower-cased key is among the entities that the category matcher
    returns exactly when it is the lower-cased form of a term of the lexicon
    and occurs in the lower-cased text as a contiguous piece, inside a word
    or not. *)
Theorem extract_entities_reported_iff (self : Processor) (text : str) (kb : list str)
    (key : str) :
  key ∈ map entity_key (extract_entities_by_category self text kb) <->
  exists term, term ∈ kb /\ lower term = key /\ substring key (lower text).
Proof.
  rewrite extract_entities_key_iff. setoid_rewrite contains_spec. reflexivity.
Qed.

(** ** The entry that is reported for a key *)

Lemma Q_ltb_irrefl (q : Q) : Q_ltb q q = false.
Proof. apply Q_ltb_ge, Qle_refl. Qed.

(** Entities of one key have one score, so the comparison of the second
    loop never replaces an entry. *)
Lemma keep_best_same_score (f : str -> Q) (d : Dict.t Entity.t) (e : Entity.t) :
  (forall k e0, (k, e0) ∈ d -> Entity.confidence e0 = f k) ->
  Entity.confidence e = f (entity_key e) ->
  keep_best d e =
    match Dict.get (entity_key e) d with
    | Some _ => d
    | None => Dict.set (entity_key e) e d
    end.
Proof.
  intros Hd He. unfold keep_best. fold (entity_key e).
  destruct (Dict.get (entity_key e) d) as [old|] eqn:E; [|reflexivity].
  apply dict_get_Some, Hd in E. rewrite E, He, Q_ltb_irrefl. reflexivity.
Qed.

Lemma elem_of_keys {V} (d : Dict.t V) (k : str) (v : V) : (k, v) ∈ d -> k ∈ map fst d.
Proof. intros H. apply list_elem_of_fmap. exists (k, v). auto. Qed.

Lemma foldl_keep_best_first (self : Processor) (tl : str) (words kb : list str) :
  forall (d : Dict.t Entity.t) (k : str) (e : Entity.t),
  (forall k0 e0, (k0, e0) ∈ d -> Entity.confidence e0 = calculate_confidence tl k0 words) ->
  (k, e) ∈ foldl keep_best d (matched_entities self tl words kb) ->
  (k, e) ∈ d \/
  ((k ∉ map fst d) /\ e = scored_entity self tl words (Entity.text e) /\
   k = entity_key e /\ first_spelling k kb = Some (Entity.text e) /\
   contains k tl = true).
Proof.
  induction kb as [|t rest IH]; intros d k e Hd Hin; cbn [matched_entities foldl] in Hin.
  - left. exact Hin.
  - destruct (contains (lower t) tl) eqn:Ec.
    + cbn [foldl] in Hin. fold (scored_entity self tl words t) in Hin.
      rewrite (keep_best_same_score (fun k0 => calculate_confidence tl k0 words)) in Hin;
        [|exact Hd|reflexivity].
      change (entity_key (scored_entity self tl words t)) with (lower t) in Hin.
      destruct (Dict.get (lower t) d) as [old|] eqn:Eg.
      * apply dict_get_Some, elem_of_keys in Eg.
        apply IH in Hin as [Hin | (Hk & He & Hkey & Hfirst & Hc)]; [left; exact Hin| |exact Hd].
        right. repeat split; try assumption.
        unfold first_spelling. cbn [find]. unfold str_eqb.
        rewrite bool_decide_eq_false_2; [exact Hfirst|]. intros <-. contradiction.
      * apply dict_get_None in Eg.
        apply IH in Hin as [Hin | (Hk & He & Hkey & Hfirst & Hc)].
        -- apply dict_set_elem in Hin as [[= -> ->] | Hin]; [|left; exact Hin].
           right. repeat split; try assumption.
           unfold first_spelling. cbn [find]. unfold str_eqb.
           rewrite bool_decide_eq_true_2; reflexivity.
        -- rewrite dict_set_keys, bool_decide_eq_false_2 in Hk by exact Eg.
           apply not_elem_of_app in Hk as [Hk Hne].
           right. repeat split; try assumption.
           unfold first_spelling. cbn [find]. unfold str_eqb.
           rewrite bool_decide_eq_false_2; [exact Hfirst|].
           intros <-. apply Hne. left.
        -- intros k0 e0 H0. apply dict_set_elem in H0 as [[= -> ->] | H0]; [reflexivity|].
           apply Hd. exact H0.
    + apply IH in Hin as [Hin | (Hk & He & Hkey & Hfirst & Hc)]; [left; exact Hin| |exact Hd].
      right. repeat split; try assumption.
      unfold first_spelling. cbn [find]. unfold str_eqb.
      rewrite bool_decide_eq_false_2; [exact Hfirst|]. intros <-. congruence.
Qed.

Lemma extract_entities_first (self : Processor) (text : str) (kb : list str) (e : Entity.t) :
  e ∈ extract_entities_by_category self text kb ->
  e = scored_entity self (lower text) (split (lower text)) (Entity.text e) /\
  first_spelling (entity_key e) kb = Some (Entity.text e) /\
  contains (entity_key e) (lower text) = true.
Proof.
  unfold extract_entities_by_category. rewrite sorted_perm. unfold Dict.values.
  intros H. apply list_elem_of_fmap in H as ([k e'] & -> & H). cbn [snd].
  apply foldl_keep_best_first in H as [H | (_ & He & -> & Hfirst & Hc)].
  - apply elem_of_nil in H. contradiction.
  - auto.
  - intros k0 e0 H0. apply elem_of_nil in H0. contradiction.
Qed.

(** X2. Every entity that the category matcher returns is the entity that
    the first loop records for its own text: its confidence is the score of
    its lower-cased text and its category is the category of its text. Its
    text is a term of the lexicon in the spelling of the lexicon, namely the
    first term in the order of iteration with that lower-cased form, and its
    lower-cased form occurs in the lower-cased text. *)
Theorem extract_entities_entry (self : Processor) (text : str) (kb : list str)
    (e : Entity.t) :
  e ∈ extract_entities_by_category self text kb ->
  e = scored_entity self (lower text) (split (lower text)) (Entity.text e) /\
  first_spelling (lower (Entity.text e)) kb = Some (Entity.text e) /\
  substring (lower (Entity.text e)) (lower text).
Proof.
  intros H. apply extract_entities_first in H as (H1 & H2 & H3).
  split; [exact H1|]. split; [exact H2|]. apply contains_spec. exact H3.
Qed.

(** X3. The category matcher returns the empty list exactly when no term of
    the lexicon occurs, lower-cased, in the lower-cased text; in particular
    for the empty lexicon, and for the empty text when the empty string is no
    term of the lexicon. *)
Theorem extract_entities_nothing (self : Processor) (text : str) (kb : list str) :
  (extract_entities_by_category self text kb = [] <->
   forall term, term ∈ kb -> ~ substring (lower term) (lower text)) /\
  extract_entities_by_category self text [] = [] /\
  (([] : str) ∉ kb -> extract_entities_by_category self [] kb = []).
Proof.
  assert (Hiff : forall text kb,
            extract_entities_by_category self text kb = [] <->
            forall term, term ∈ kb -> ~ substring (lower term) (lower text)).
  { intros t l. split.
    - intros Hnil term Hin Hsub.
      assert (Hk : lower term ∈ map entity_key (extract_entities_by_category self t l)).
      { apply extract_entities_key_iff. exists term. rewrite contains_spec. auto. }
      rewrite Hnil in Hk. apply elem_of_nil in Hk. exact Hk.
    - intros Hnone. destruct (extract_entities_by_category self t l) as [|e es] eqn:E;
        [reflexivity|].
      assert (Hk : entity_key e ∈ map entity_key (extract_entities_by_category self t l)).
      { rewrite E. left. }
      apply extract_entities_key_iff in Hk as (term & Hin & Hkey & Hc).
      exfalso. apply (Hnone term Hin). rewrite Hkey. apply contains_spec. exact Hc. }
  split; [apply Hiff|]. split; [reflexivity|].
  intros Hne. apply Hiff. intros term Hin (pre & post & Heq). cbn in Heq.
  symmetry in Heq. apply app_eq_nil in Heq as [_ Heq]. apply app_eq_nil in Heq as [Heq _].
  destruct term; [contradiction | discriminate].
Qed.

(** ** The categories of the reported entities *)

Lemma get_entity_category_lookup (self : Processor) (term : str) :
  get_entity_category self term = lookup_category self term.
Proof.
  unfold get_entity_category, lookup_category, priority_order. cbn.
  rewrite !in_list_elem_of.
  repeat (match goal with |- context [bool_decide ?P] => destruct (bool_decide P) end;
          [reflexivity|]).
  reflexivity.
Qed.

Lemma find_before {A} (p : A -> bool) (l : list A) : forall (i : nat) (x : A),
  l !! i = Some x -> p x = true ->
  exists j y, (j <= i)%nat /\ l !! j = Some y /\ find p l = Some y.
Proof.
  induction l as [|a l IH]; intros i x Hi Hp; [discriminate|]. cbn [find].
  destruct (p a) eqn:Ea.
  - exists 0%nat, a. split; [lia|]. auto.
  - destruct i as [|i]; cbn in Hi.
    + injection Hi as ->. congruence.
    + destruct (IH i x Hi Hp) as (j & y & Hj & Hy & Hf).
      exists (S j), y. split; [lia|]. auto.
Qed.

(** X4. When the category matcher is run on one of the seven lexicons of the
    processor and the terms of that lexicon are in lower case, no entity that
    it returns has the category unknown: the category is that of the lexicon
    or of a lexicon before it in the order of the category lookup. *)
Theorem reported_category_known (self : Processor) (text : str) (i : nat)
    (entry : Category * list str) (e : Entity.t) :
  priority_order self !! i = Some entry ->
  Forall (fun term => lower term = term) entry.2 ->
  e ∈ extract_entities_by_category self text entry.2 ->
  Entity.category e <> unknown /\
  exists j entry', (j <= i)%nat /\ priority_order self !! j = Some entry' /\
                   Entity.category e = entry'.1.
Proof.
  intros Hi Hlow He.
  apply extract_entities_first in He as (He & Hfirst & _).
  assert (Hin : Entity.text e ∈ entry.2).
  { unfold first_spelling in Hfirst. apply find_some in Hfirst as [Hin _].
    apply list_elem_of_In. exact Hin. }
  assert (Hl : lower (Entity.text e) = Entity.text e).
  { rewrite Forall_forall in Hlow. apply Hlow. exact Hin. }
  assert (Hcat : Entity.category e = lookup_category self (Entity.text e)).
  { rewrite He at 1. apply get_entity_category_lookup. }
  destruct (find_before (fun en => bool_decide (lower (Entity.text e) ∈ en.2))
              (priority_order self) i entry Hi) as (j & y & Hj & Hy & Hf).
  { apply bool_decide_eq_true. rewrite Hl. exact Hin. }
  unfold lookup_category in Hcat. rewrite Hf in Hcat. split; [|eauto].
  rewrite Hcat. unfold priority_order in Hy.
  do 7 (destruct j as [|j]; [injection Hy as <-; discriminate|]). discriminate.
Qed.

(** ** Terms of several words *)

Lemma split_from_no_space (s : str) : forall (cur w : str),
  Forall (fun c => is_space c = false) cur ->
  w ∈ split_from cur s -> Forall (fun c => is_space c = false) w.
Proof.
  induction s as [|c t IH]; intros cur w Hcur Hw; cbn [split_from] in Hw.
  - destruct cur; [apply elem_of_nil in Hw; contradiction|].
    apply list_elem_of_singleton in Hw as ->. apply Forall_rev. exact Hcur.
  - destruct (is_space c) eqn:Ec.
    + destruct cur.
      * eapply IH; [constructor | exact Hw].
      * apply elem_of_cons in Hw as [-> | Hw]; [apply Forall_rev; exact Hcur|].
        eapply IH; [constructor | exact Hw].
    + eapply IH; [|exact Hw]. constructor; assumption.
Qed.

Lemma split_no_space (s w : str) :
  w ∈ split s -> Forall (fun c => is_space c = false) w.
Proof. apply split_from_no_space. constructor. Qed.

Lemma multiword_not_in_token (text entity word : str) :
  Exists (fun c => is_space c = true) entity ->
  word ∈ split text -> contains entity word = false.
Proof.
  intros Hex Hw. destruct (contains entity word) eqn:E; [|reflexivity].
  apply contains_spec in E. apply Exists_exists in Hex as (c & Hc & Hsp).
  apply split_no_space in Hw. rewrite Forall_forall in Hw.
  rewrite (Hw c) in Hsp; [discriminate|]. eapply substring_elem; eauto.
Qed.

(** X5. A term that holds a whitespace character lies in no token of the
    text, so the scorer, called with the tokens of the text as the matcher
    calls it, never adds the bonus for a keyword in the context of such a
    term: the score is the base, the bonus for the word boundaries and the
    bonus for the occurrences only. *)
Theorem multiword_term_no_context_bonus (text entity : str) :
  Exists (fun c => is_space c = true) entity ->
  ~ keyword_in_context (split text) entity /\
  exists boundary : bool,
    (boundary = true <-> boundary_occurrence text entity) /\
    (calculate_confidence text entity (split text)
     == score boundary (count entity text) false)%Q.
Proof.
  intros Hex.
  assert (Hno : ~ keyword_in_context (split text) entity).
  { intros (pos & j & word & keyword & Hw & Hc & _).
    rewrite (multiword_not_in_token text entity word Hex) in Hc; [discriminate|].
    apply list_elem_of_lookup. eauto. }
  split; [exact Hno|].
  exists (bool_decide (is_Some (search no_flags (word_pattern entity) text))).
  split; [rewrite bool_decide_eq_true; apply search_word_pattern|].
  unfold calculate_confidence, score. rewrite context_loop_existsb, py_min_Qmin.
  destruct (existsb (has_keyword (split text)) (positions_from 0 entity (split text))) eqn:Ee.
  { apply context_spec in Ee. contradiction. }
  apply Q.min_compat; [reflexivity|].
  destruct (search no_flags (word_pattern entity) text) as [m|] eqn:Es.
  - rewrite bool_decide_eq_true_2 by eauto.
    destruct (1 <? count entity text); rewrite ?py_min_Qmin; ring.
  - rewrite bool_decide_eq_false_2 by (intros [? [=]]).
    destruct (1 <? count entity text); rewrite ?py_min_Qmin; ring.
Qed.

(** ** The lists of names of a result *)

(** X6. In the result of [process_text], each of the seven lists of names has
    no two names that are equal up to case. *)
Theorem process_text_names_distinct (self : Processor) (text : option str) :
  Forall (fun names => NoDup (map lower names)) (name_lists (process_text self text)).
Proof.
  assert (H : forall t kb,
            NoDup (map lower (map Entity.text (extract_entities_by_category self t kb)))).
  { intros t kb. rewrite map_map. apply extract_entities_NoDup. }
  destruct text as [[|c t]|]; unfold name_lists;
    cbn -[extract_entities_by_category];
    repeat (constructor; [first [apply H | constructor]|]); constructor.
Qed.

(** ** The order of iteration over the lexicon *)

Lemma dict_set_fresh {V} (key : str) (v : V) (d : Dict.t V) :
  key ∉ map fst d -> Dict.set key v d = d ++ [(key, v)].
Proof.
  induction d as [|[k v'] d IH]; intros H; cbn [Dict.set app]; [reflexivity|].
  cbn [map fst] in H. apply not_elem_of_cons in H as [Hne H].
  unfold str_eqb. rewrite bool_decide_eq_false_2 by congruence.
  rewrite (IH H). reflexivity.
Qed.

Lemma keep_best_fresh (d : Dict.t Entity.t) (e : Entity.t) :
  entity_key e ∉ map fst d -> keep_best d e = d ++ [(entity_key e, e)].
Proof.
  intros H. unfold keep_best. fold (entity_key e).
  rewrite (proj2 (dict_get_None _ _) H). apply dict_set_fresh. exact H.
Qed.

(** Entities of distinct keys are all kept, in the order in which they were
    recorded. *)
Lemma foldl_keep_best_distinct (l : list Entity.t) : forall d : Dict.t Entity.t,
  NoDup (map fst d ++ map entity_key l) ->
  Dict.values (foldl keep_best d l) = Dict.values d ++ l.
Proof.
  induction l as [|e l IH]; intros d Hnd; cbn [foldl map].
  - rewrite app_nil_r. reflexivity.
  - cbn [map] in Hnd. pose proof Hnd as Hnd'.
    apply NoDup_app in Hnd' as (_ & Hdis & _).
    assert (Hfresh : entity_key e ∉ map fst d).
    { intros Hin. apply (Hdis _ Hin). left. }
    rewrite (keep_best_fresh d e Hfresh), IH.
    + unfold Dict.values. rewrite map_app. cbn [map snd]. rewrite <- app_assoc. reflexivity.
    + rewrite map_app. cbn [map fst]. rewrite <- app_assoc. exact Hnd.
Qed.

Lemma matched_entities_filter (self : Processor) (text_lower : str) (words kb : list str) :
  matched_entities self text_lower words kb
  = map (scored_entity self text_lower words)
        (List.filter (fun term => contains (lower term) text_lower) kb).
Proof.
  induction kb as [|t kb IH]; cbn [matched_entities List.filter]; [reflexivity|].
  destruct (contains (lower t) text_lower); cbn [map]; rewrite IH; reflexivity.
Qed.

Lemma Permutation_list_filter {A} (f : A -> bool) (l1 l2 : list A) :
  l1 ≡ₚ l2 -> List.filter f l1 ≡ₚ List.filter f l2.
Proof.
  induction 1 as [|x l1 l2 _ IH|x y l|l1 l2 l3 _ IH1 _ IH2]; cbn [List.filter].
  - reflexivity.
  - destruct (f x); [rewrite IH|]; auto.
  - destruct (f x), (f y); try reflexivity. apply Permutation_swap.
  - etransitivity; eauto.
Qed.

Lemma NoDup_map_filter {A B} (g : A -> B) (f : A -> bool) (l : list A) :
  NoDup (map g l) -> NoDup (map g (List.filter f l)).
Proof.
  induction l as [|x l IH]; cbn [map List.filter]; intros H; [constructor|].
  apply NoDup_cons in H as [Hx H]. destruct (f x); [|auto].
  cbn [map]. apply NoDup_cons. split; [|auto].
  intros Hin. apply Hx. apply list_elem_of_fmap in Hin as (y & Hy & Hin).
  apply list_elem_of_fmap. exists y. split; [exact Hy|].
  apply list_elem_of_In. apply list_elem_of_In, filter_In in Hin as [Hin _]. exact Hin.
Qed.

Lemma extract_entities_distinct (self : Processor) (text : str) (kb : list str) :
  NoDup (map lower kb) ->
  extract_entities_by_category self text kb ≡ₚ
  matched_entities self (lower text) (split (lower text)) kb.
Proof.
  intros Hnd. unfold extract_entities_by_category. rewrite sorted_perm.
  rewrite (foldl_keep_best_distinct _ []); [reflexivity|]. cbn [map app].
  rewrite matched_entities_filter, map_map. cbn. apply NoDup_map_filter. exact Hnd.
Qed.

(** X7. When the lower-cased terms of a lexicon are distinct, the entities
    that the category matcher returns do not depend on the order in which the
    lexicon is iterated, up to the order of the entities in the list: they
    are the recorded entities of the terms that occur in the text, one for
    each. *)
Theorem extract_entities_order_independent (self : Processor) (text : str)
    (kb kb' : list str) :
  kb ≡ₚ kb' -> NoDup (map lower kb) ->
  extract_entities_by_category self text kb ≡ₚ extract_entities_by_category self text kb' /\
  extract_entities_by_category self text kb ≡ₚ
    map (scored_entity self (lower text) (split (lower text)))
        (List.filter (fun term => contains (lower term) (lower text)) kb).
Proof.
  intros Hp Hnd.
  assert (Hnd' : NoDup (map lower kb')) by (rewrite <- Hp; exact Hnd).
  rewrite !extract_entities_distinct by assumption.
  rewrite !matched_entities_filter. split; [|reflexivity].
  apply Permutation_map, Permutation_list_filter. exact Hp.
Qed.

(** ** Means *)

Lemma inject_Z_S (n : nat) :
  (inject_Z (Z.of_nat (S n)) == inject_Z (Z.of_nat n) + 1)%Q.
Proof. rewrite Nat2Z.inj_succ. unfold Z.succ. rewrite inject_Z_plus. reflexivity. Qed.

Lemma foldl_Qplus_lower (lo : Q) (xs : list Q) : forall a : Q,
  Forall (fun x => (lo <= x)%Q) xs ->
  (a + inject_Z (Z.of_nat (length xs)) * lo <= foldl Qplus a xs)%Q.
Proof.
  induction xs as [|x xs IH]; intros a Hall; cbn [foldl length].
  - change (inject_Z (Z.of_nat 0)) with 0%Q. lra.
  - apply Forall_cons in Hall as [Hx Hall]. specialize (IH (a + x)%Q Hall).
    rewrite inject_Z_S. lra.
Qed.

Lemma foldl_Qplus_upper (hi : Q) (xs : list Q) : forall a : Q,
  Forall (fun x => (x <= hi)%Q) xs ->
  (foldl Qplus a xs <= a + inject_Z (Z.of_nat (length xs)) * hi)%Q.
Proof.
  induction xs as [|x xs IH]; intros a Hall; cbn [foldl length].
  - change (inject_Z (Z.of_nat 0)) with 0%Q. lra.
  - apply Forall_cons in Hall as [Hx Hall]. specialize (IH (a + x)%Q Hall).
    rewrite inject_Z_S. lra.
Qed.

Lemma mean_nil : (mean [] == 0)%Q.
Proof. reflexivity. Qed.

Lemma mean_bounds (lo hi : Q) (xs : list Q) :
  xs <> [] -> Forall (fun x => (lo <= x <= hi)%Q) xs -> (lo <= mean xs <= hi)%Q.
Proof.
  intros Hne Hall. unfold mean.
  assert (Hlen : Nat.max (length xs) 1 = length xs).
  { destruct xs; [contradiction | cbn; lia]. }
  rewrite Hlen.
  assert (Hpos : (0 < inject_Z (Z.of_nat (length xs)))%Q).
  { change 0%Q with (inject_Z 0). rewrite <- Zlt_Qlt. destruct xs; [contradiction | cbn; lia]. }
  split.
  - apply Qle_shift_div_l; [exact Hpos|].
    pose proof (foldl_Qplus_lower lo xs 0) as H.
    rewrite Qmult_comm. rewrite Qplus_0_l in H. apply H.
    eapply Forall_impl; [exact Hall|]. cbn. intros x [Hx _]. exact Hx.
  - apply Qle_shift_div_r; [exact Hpos|].
    pose proof (foldl_Qplus_upper hi xs 0) as H.
    rewrite Qmult_comm. rewrite Qplus_0_l in H. apply H.
    eapply Forall_impl; [exact Hall|]. cbn. intros x [_ Hx]. exact Hx.
Qed.

Lemma mean_graded (xs : list Q) :
  Forall (fun x => ((5 # 10) <= x <= 1)%Q) xs -> graded (nonempty xs) (mean xs).
Proof.
  intros Hall. destruct xs as [|x xs]; [apply mean_nil|].
  cbn [nonempty graded]. apply mean_bounds; [discriminate | exact Hall].
Qed.

Lemma nonempty_map {A B} (f : A -> B) (l : list A) : nonempty (map f l) = nonempty l.
Proof. destruct l; reflexivity. Qed.

(** ** The confidence scores of a result *)

Lemma tools_confidence (self : Processor) (text : str) :
  Forall (fun e => ((5 # 10) <= Entity.confidence e <= 1)%Q)
         (Result.tools_and_software (process_text self (Some text))).
Proof.
  destruct text as [|c t]; [constructor|].
  cbn -[extract_entities_by_category extract_code_snippets extract_commands extract_urls].
  apply Forall_app. split; [apply extract_entities_confidence|].
  apply Forall_app. split; [apply extract_entities_confidence|].
  apply Forall_forall. intros e He. apply list_elem_of_filter in He as [_ He].
  pose proof (extract_entities_confidence self (c :: t) (technical_concepts self)) as H.
  rewrite Forall_forall in H. apply H. exact He.
Qed.

(** X8. For a text that is not empty the confidence scores have exactly the
    four keys url_extraction, entity_extraction, code_detection and
    command_detection; url_extraction is 0.95 when a url was found and 0
    otherwise; and each of the other three is 0 when its list (the tools, the
    code snippets, the commands) is empty and lies between 0.5 and 1 when it
    is not. *)
Theorem process_text_scores (self : Processor) (text : str) :
  text <> [] ->
  let result := process_text self (Some text) in
  let scores := Result.confidence_scores result in
  (forall key, is_Some (scores !! key) <-> key ∈ score_keys) /\
  scores !! "url_extraction"%string
    = Some (if nonempty (Result.urls result) then 95 # 100 else 0)%Q /\
  (exists q, scores !! "entity_extraction"%string = Some q /\
             graded (nonempty (Result.tools_and_software result)) q) /\
  (exists q, scores !! "code_detection"%string = Some q /\
             graded (nonempty (Result.code_snippets result)) q) /\
  (exists q, scores !! "command_detection"%string = Some q /\
             graded (nonempty (Result.commands result)) q).
Proof.
  intros Hne result scores.
  pose proof (tools_confidence self text) as Htools. fold result in Htools.
  destruct text as [|c t]; [contradiction|].
  subst scores result.
  cbn -[extract_entities_by_category extract_code_snippets extract_commands extract_urls mean]
    in *.
  split; [|split; [|split; [|split]]].
  - intros key. unfold score_keys. rewrite !lookup_insert_is_Some, !elem_of_cons.
    split.
    + intros [-> | [_ [-> | [_ [-> | [_ [-> | [_ H]]]]]]]]; auto.
      apply lookup_empty_is_Some in H. contradiction.
    + intros [-> | [-> | [-> | [-> | H]]]]; try (apply elem_of_nil in H; contradiction).
      * left. reflexivity.
      * right. split; [discriminate|]. left. reflexivity.
      * right. split; [discriminate|]. right. split; [discriminate|]. left. reflexivity.
      * right. split; [discriminate|]. right. split; [discriminate|].
        right. split; [discriminate|]. left. reflexivity.
  - rewrite lookup_insert_eq. destruct (extract_urls (c :: t)); reflexivity.
  - eexists. split.
    + rewrite lookup_insert_ne by discriminate. rewrite lookup_insert_eq. reflexivity.
    + rewrite <- (nonempty_map Entity.confidence). apply mean_graded.
      apply Forall_map. exact Htools.
  - eexists. split.
    + rewrite !lookup_insert_ne by discriminate. rewrite lookup_insert_eq. reflexivity.
    + rewrite <- (nonempty_map Snippet.confidence). apply mean_graded.
      apply Forall_map, Forall_forall. intros s Hs.
      apply extract_code_snippets_confidence in Hs as [-> | ->]; cbn; lra.
  - eexists. split.
    + rewrite !lookup_insert_ne by discriminate. rewrite lookup_insert_eq. reflexivity.
    + rewrite <- (nonempty_map Command.confidence). apply mean_graded.
      apply Forall_map, Forall_forall. intros m Hm.
      apply extract_commands_fixed in Hm as [-> _]. cbn. lra.
Qed.

(** ** The tools of a result *)

Lemma shipped_concepts_no_software_keyword :
  Forall (fun term =>
            existsb (fun keyword => contains keyword (lower term)) software_keywords = false)
         (technical_concepts init).
Proof. apply (bool_decide_unpack _). vm_compute. reflexivity. Qed.

Lemma extract_entities_text_in (self : Processor) (text : str) (kb : list str) (e : Entity.t) :
  e ∈ extract_entities_by_category self text kb -> Entity.text e ∈ kb.
Proof.
  intros H. apply extract_entities_subset, matched_entities_elem in H as [_ H]. exact H.
Qed.

(** X9. No technical concept of [setup_knowledge_bases] holds one of the
    keywords tool, software, app, platform. So for a processor whose
    technical concepts are among those, the names of the tools of a result
    are the names of its frameworks followed by the names of its platforms:
    the third part of the list is always empty. *)
Theorem tools_are_frameworks_and_platforms (self : Processor) (text : option str) :
  (forall term, term ∈ technical_concepts self -> term ∈ technical_concepts init) ->
  let result := process_text self text in
  map Entity.text (Result.tools_and_software result) =
    Result.frameworks_and_libraries result ++ Result.platforms_and_services result.
Proof.
  intros Hsub. destruct text as [[|c t]|]; [reflexivity| |reflexivity].
  cbn -[extract_entities_by_category extract_code_snippets extract_commands extract_urls].
  match goal with |- context [filter ?P ?l] => destruct (filter P l) as [|e es] eqn:E end.
  - rewrite app_nil_r, map_app. reflexivity.
  - exfalso. assert (He : e ∈ e :: es) by left. rewrite <- E in He.
    apply list_elem_of_filter in He as [Hkw He].
    apply extract_entities_text_in, Hsub in He.
    pose proof shipped_concepts_no_software_keyword as H. rewrite Forall_forall in H.
    specialize (H _ He). cbn in H, Hkw. congruence.
Qed.

(** ** Characters that a match must hold *)

Lemma all_ascii_complete (x : ascii) : In x all_ascii.
Proof.
  unfold all_ascii. apply in_map_iff. exists (nat_of_ascii x).
  split; [apply ascii_nat_embedding|]. apply in_seq.
  pose proof (nat_ascii_bounded x). lia.
Qed.

Lemma within_spec (ok P : ascii -> bool) (x : ascii) :
  within ok P = true -> ok x = true -> P x = true.
Proof.
  unfold within. rewrite forallb_forall. intros H Hx.
  specialize (H x (all_ascii_complete x)). rewrite Hx in H. exact H.
Qed.

Lemma shape_must (fl : flags) (P : ascii -> bool) (r : regex) :
  forall prev cs next caps caps',
  must fl r P = true ->
  shape fl r prev cs next caps caps' -> Exists (fun x => P x = true) cs.
Proof.
  induction r as [ | c | p | r1 IH1 r2 IH2 | r1 IH1 r2 IH2 | r1 IH1 | p | p | n r1 IH1 | | ];
    intros prev cs next caps caps' Hm Hs; cbn [must] in Hm; try discriminate Hm;
    cbn [shape] in Hs.
  - destruct Hs as (x & -> & Hx & _). constructor. eapply within_spec; eauto.
  - destruct Hs as (x & -> & Hx & _). constructor. eapply within_spec; eauto.
  - destruct Hs as (cs1 & cs2 & caps1 & -> & H1 & H2). apply Exists_app.
    apply orb_true_iff in Hm as [Hm | Hm]; [left; eapply IH1 | right; eapply IH2]; eauto.
  - apply andb_true_iff in Hm as [Hm1 Hm2].
    destruct Hs as [Hs | Hs]; [eapply IH1 | eapply IH2]; eauto.
  - destruct Hs as (caps1 & Hs & _). eapply IH1; eauto.
Qed.

Lemma finditer_must (fl : flags) (r : regex) (P : ascii -> bool) (text : str) (m : matched) :
  must fl r P = true -> m ∈ finditer fl r text -> exists x, x ∈ text /\ P x = true.
Proof.
  intros Hm Hin. pose proof (finditer_whole_substring fl r m text Hin) as Hsub.
  apply finditer_elem in Hin as (pre & post & _ & Hat).
  apply match_at_shape in Hat as (rest & _ & Hs).
  apply (shape_must fl P) in Hs; [|exact Hm].
  apply Exists_exists in Hs as (x & Hx & HP). exists x. split; [|exact HP].
  eapply substring_elem; eauto.
Qed.

Lemma finditer_nothing (fl : flags) (r : regex) (P : ascii -> bool) (text : str) :
  must fl r P = true -> (forall x, x ∈ text -> P x = false) -> finditer fl r text = [].
Proof.
  intros Hm Hno. destruct (finditer fl r text) as [|m ms] eqn:E; [reflexivity|].
  destruct (finditer_must fl r P text m Hm) as (x & Hx & HP); [rewrite E; left|].
  rewrite (Hno x Hx) in HP. discriminate.
Qed.

(** ** The urls *)

Lemma url_patterns_chars (pattern : regex) (x : ascii) :
  pattern ∈ url_patterns -> consumes url_flags pattern x = true -> url_char x = true.
Proof.
  intros Hp. apply within_spec. revert Hp. unfold url_patterns. rewrite !elem_of_cons.
  intros [-> | [-> | [-> | H]]]; [vm_compute; reflexivity..|].
  apply elem_of_nil in H. contradiction.
Qed.

Lemma Forall_substring (P : ascii -> Prop) (sub s : str) :
  substring sub s -> Forall P s -> Forall P sub.
Proof.
  intros (pre & post & ->) H. apply Forall_app in H as [_ H].
  apply Forall_app in H as [H _]. exact H.
Qed.

(** X10. Every url that [extract_urls] returns is a contiguous piece of the
    text and is made of word characters and the characters - . : / ? & = % #
    only; it holds no whitespace, quote, bracket or comma. *)
Theorem extract_urls_pieces (text url : str) :
  url ∈ extract_urls text ->
  substring url text /\ Forall (fun c => url_char c = true) url.
Proof.
  unfold extract_urls. intros H.
  apply elem_of_elements, url_set_spec in H as (pattern & m & Hp & Hm & -> & _).
  unfold findall0 in Hm. apply list_elem_of_fmap in Hm as (mt & -> & Hmt).
  pose proof (finditer_whole_substring _ _ _ _ Hmt) as Hsub.
  split.
  - eapply substring_trans; [apply strip_chars_substring | exact Hsub].
  - eapply Forall_substring; [apply strip_chars_substring|].
    apply finditer_elem in Hmt as (pre & post & _ & Hat).
    apply match_at_consumes in Hat as (rest & _ & Hall).
    eapply Forall_impl; [exact Hall|]. cbn. intros x. apply url_patterns_chars. exact Hp.
Qed.

Lemma findall0_nothing (fl : flags) (r : regex) (P : ascii -> bool) (text : str) :
  must fl r P = true -> (forall x, x ∈ text -> P x = false) -> findall0 fl r text = [].
Proof.
  intros Hm Hno. unfold findall0. rewrite (finditer_nothing fl r P text Hm Hno). reflexivity.
Qed.

Lemma extract_urls_nothing (P : ascii -> bool) (text : str) :
  forallb (fun pattern => must url_flags pattern P) url_patterns = true ->
  (forall x, x ∈ text -> P x = false) -> extract_urls text = [].
Proof.
  intros Hm Hno. unfold extract_urls, url_set, url_patterns in *.
  cbn [forallb] in Hm. apply andb_true_iff in Hm as [H1 Hm].
  apply andb_true_iff in Hm as [H2 Hm]. apply andb_true_iff in Hm as [H3 _].
  cbn [foldl].
  rewrite (findall0_nothing _ _ P text H1 Hno), (findall0_nothing _ _ P text H2 Hno),
    (findall0_nothing _ _ P text H3 Hno).
  cbn [foldl]. apply elements_empty.
Qed.

(** X11. A text that holds neither a dot nor a colon has no urls. *)
Theorem extract_urls_need_dot_or_colon (text : str) :
  (forall c, c ∈ text -> c <> "."%char /\ c <> ":"%char) -> extract_urls text = [].
Proof.
  intros Hno. apply (extract_urls_nothing (chr_in ".:")); [vm_compute; reflexivity|].
  intros x Hx. destruct (Hno x Hx) as [H1 H2]. unfold chr_in. cbn.
  rewrite (proj2 (Ascii.eqb_neq _ _) H1), (proj2 (Ascii.eqb_neq _ _) H2). reflexivity.
Qed.

(** ** The code snippets *)

Lemma shape_Lit_no_flags (c : ascii) prev cs next caps caps' :
  shape no_flags (Lit c) prev cs next caps caps' -> cs = [c] /\ caps' = caps.
Proof.
  cbn [shape]. intros (x & -> & Hx & ->). rewrite lit_eq_no_flags in Hx.
  apply Ascii.eqb_eq in Hx as ->. auto.
Qed.

Lemma inline_match (prev : option ascii) (s : str) (m : matched) :
  match_at no_flags inline_pattern prev s = Some m ->
  exists body,
    whole m = py "`" ++ body ++ py "`" /\ group 1 m = body /\ body <> [] /\
    Forall (fun c => c <> "`"%char) body.
Proof.
  intros H. apply match_at_shape in H as (rest & _ & H).
  unfold inline_pattern in H. cbn [seqs] in H.
  destruct H as (cs1 & cs2 & caps1 & Hw & H1 & H).
  apply shape_Lit_no_flags in H1 as [-> ->].
  destruct H as (cs3 & cs4 & caps2 & -> & Hg & H).
  destruct H as (cs5 & cs6 & caps3 & -> & H5 & H6).
  apply shape_Lit_no_flags in H5 as [-> ->]. cbn [shape] in H6. destruct H6 as [-> Hcaps].
  cbn [shape Plus] in Hg.
  destruct Hg as (caps4 & (a & b & caps5 & -> & (y & -> & Hy & ->) & Hb & ->) & ->).
  exists ([y] ++ b). unfold group. rewrite Hcaps, Hw. cbn.
  split; [reflexivity|]. split; [reflexivity|]. split; [discriminate|].
  assert (Hnb : forall c, cls_not_backtick c = true -> c <> "`"%char).
  { intros c Hc ->. discriminate Hc. }
  constructor; [apply Hnb; exact Hy|].
  eapply Forall_impl; [exact Hb|]. exact Hnb.
Qed.

Lemma code_block_match (prev : option ascii) (s : str) (m : matched) :
  match_at no_flags code_block_pattern prev s = Some m ->
  exists tag body,
    whole m = fenced_block tag body /\ group 1 m = tag /\ group 2 m = body /\
    Forall (fun c => is_word c = true) tag.
Proof.
  intros H. apply match_at_shape in H as (rest & _ & H).
  unfold code_block_pattern in H. cbn [seqs] in H.
  destruct H as (cs1 & cs2 & caps1 & Hw & H1 & H).
  apply shape_lit in H1 as [-> ->]; [|reflexivity].
  destruct H as (cs3 & cs4 & caps2 & -> & Htag & H).
  destruct H as (cs5 & cs6 & caps3 & -> & H5 & H).
  apply shape_Lit_no_flags in H5 as [-> ->].
  destruct H as (cs7 & cs8 & caps4 & -> & (caps5 & (_ & ->) & ->) & H).
  destruct H as (cs9 & cs10 & caps6 & -> & H9 & H).
  apply shape_Lit_no_flags in H9 as [-> ->].
  destruct H as (cs11 & cs12 & caps7 & -> & H11 & H12).
  apply shape_lit in H11 as [-> ->]; [|reflexivity].
  cbn [shape] in H12. destruct H12 as [-> Hcaps].
  assert (Hwhole : whole m = fenced_block cs3 cs7).
  { rewrite Hw. unfold fenced_block, newline. rewrite app_nil_r. reflexivity. }
  exists cs3, cs7. unfold group. rewrite Hcaps. cbn [shape Plus] in Htag.
  destruct Htag as [(caps8 & (a & b & caps9 & -> & (y & -> & Hy & ->) & Hb & ->) & ->)
                   | [-> ->]].
  - cbn. split; [exact Hwhole|]. repeat split. constructor; assumption.
  - cbn. split; [exact Hwhole|]. repeat split. constructor.
Qed.

Lemma findall2_elem (fl : flags) (r : regex) (text g1 g2 : str) :
  (g1, g2) ∈ findall2 fl r text ->
  exists m, m ∈ finditer fl r text /\ group 1 m = g1 /\ group 2 m = g2.
Proof.
  unfold findall2. intros H. apply list_elem_of_fmap in H as (m & [= -> ->] & Hm). eauto.
Qed.

Lemma findall1_elem (fl : flags) (r : regex) (text g : str) :
  g ∈ findall1 fl r text -> exists m, m ∈ finditer fl r text /\ group 1 m = g.
Proof.
  unfold findall1. intros H. apply list_elem_of_fmap in H as (m & -> & Hm). eauto.
Qed.

Lemma finditer_match_substring (fl : flags) (r : regex) (text : str) (m : matched) :
  m ∈ finditer fl r text ->
  substring (whole m) text /\ exists prev s, match_at fl r prev s = Some m.
Proof.
  intros H. split; [eapply finditer_whole_substring; exact H|].
  apply finditer_elem in H as (pre & post & _ & Hat). eauto.
Qed.

(** X12. The code snippets are the entries of the fenced blocks followed by the
    entries of the inline code. An entry of the first kind stands for a
    fenced block that occurs in the text, with its tag of word characters as
    the language (unknown for no tag), its stripped body as the code and the
    confidence 0.9; an entry of the second kind stands for a piece of the
    text between two backticks that holds no backtick, with the language
    unknown, the stripped piece, of more than two characters, as the code and
    the confidence 0.6. *)
Theorem code_snippets_entries (text : str) :
  exists blocks inlines,
    extract_code_snippets text = blocks ++ inlines /\
    Forall (block_entry text) blocks /\
    Forall (inline_entry text) inlines.
Proof.
  unfold extract_code_snippets. eexists _, _. split; [reflexivity|]. split.
  - apply Forall_forall. intros s Hs.
    apply list_elem_of_fmap in Hs as ([language code] & -> & Hin).
    apply findall2_elem in Hin as (m & Hm & H1 & H2).
    apply finditer_match_substring in Hm as (Hsub & prev & s' & Hat).
    apply code_block_match in Hat as (tag & body & Hw & Ht & Hb & Hall).
    exists tag, body. rewrite <- Hw. split; [exact Hsub|]. split; [exact Hall|].
    rewrite Ht in H1. rewrite Hb in H2. subst language code. reflexivity.
  - apply Forall_forall. intros s Hs.
    apply list_elem_of_In, in_flat_map in Hs as (code & Hin & Hs).
    apply list_elem_of_In, findall1_elem in Hin as (m & Hm & H1).
    apply finditer_match_substring in Hm as (Hsub & prev & s' & Hat).
    apply inline_match in Hat as (body & Hw & Hg & Hne & Hall).
    assert (code = body) as -> by congruence.
    destruct (2 <? length (strip body)) eqn:El; [|contradiction].
    destruct Hs as [<- | []]. apply Nat.ltb_lt in El.
    exists body. rewrite <- Hw. auto.
Qed.

Lemma findall1_nothing (fl : flags) (r : regex) (P : ascii -> bool) (text : str) :
  must fl r P = true -> (forall x, x ∈ text -> P x = false) -> findall1 fl r text = [].
Proof.
  intros Hm Hno. unfold findall1. rewrite (finditer_nothing fl r P text Hm Hno). reflexivity.
Qed.

Lemma findall2_nothing (fl : flags) (r : regex) (P : ascii -> bool) (text : str) :
  must fl r P = true -> (forall x, x ∈ text -> P x = false) -> findall2 fl r text = [].
Proof.
  intros Hm Hno. unfold findall2. rewrite (finditer_nothing fl r P text Hm Hno). reflexivity.
Qed.

Lemma extract_code_snippets_nothing (P : ascii -> bool) (text : str) :
  must no_flags code_block_pattern P && must no_flags inline_pattern P = true ->
  (forall x, x ∈ text -> P x = false) -> extract_code_snippets text = [].
Proof.
  intros Hm Hno. apply andb_true_iff in Hm as [H1 H2]. unfold extract_code_snippets.
  rewrite (findall2_nothing _ _ P text H1 Hno), (findall1_nothing _ _ P text H2 Hno).
  reflexivity.
Qed.

(** X13. A text without a backtick has no code snippets. *)
Theorem code_snippets_need_backtick (text : str) :
  (forall c, c ∈ text -> c <> "`"%char) -> extract_code_snippets text = [].
Proof.
  intros Hno. apply (extract_code_snippets_nothing (chr_in "`")); [vm_compute; reflexivity|].
  intros x Hx. unfold chr_in. cbn.
  rewrite (proj2 (Ascii.eqb_neq _ _) (Hno x Hx)). reflexivity.
Qed.

(** ** The commands *)

Lemma cli_match (tool : string) (tools : list string) (prev : option ascii) (s : str)
    (m : matched) :
  match_at cli_flags (cli tool tools) prev s = Some m ->
  exists lead ws x tail,
    whole m = lead ++ group 1 m ++ ws ++ x :: tail /\
    group 1 m ∈ map py (tool :: tools) /\
    ((lead = [] /\ at_bol cli_flags prev = true) \/
     exists sp, lead = [sp] /\ is_space sp = true) /\
    ws <> [] /\ Forall (fun c => is_space c = true) ws /\ is_word x = true.
Proof.
  intros H. apply match_at_shape in H as (rest & _ & H).
  unfold cli in H. cbn [seqs] in H.
  destruct H as (lead & cs2 & caps1 & Hw & Hlead & H).
  destruct H as (g & cs4 & caps2 & -> & (caps3 & Hg & ->) & H).
  apply shape_alts_words in Hg as [Hg ->]; [|reflexivity].
  destruct H as (ws & cs6 & caps4 & -> & Hws & H).
  destruct H as (wd & cs8 & caps5 & -> & Hwd & H8).
  cbn [shape] in H8. destruct H8 as [-> Hcaps].
  cbn [shape Plus] in Hws, Hwd.
  destruct Hws as (a & b & caps6 & -> & (y & -> & Hy & ->) & Hb & ->).
  destruct Hwd as (a' & b' & caps7 & -> & (x & -> & Hx & ->) & Hb' & ->).
  exists lead, ([y] ++ b), x, b'. unfold group. rewrite Hcaps, Hw. cbn [lookup_cap Nat.eqb].
  split; [rewrite (app_nil_r ([x] ++ b')); reflexivity|]. split; [exact Hg|].
  split; [|split; [discriminate|split; [constructor; assumption|exact Hx]]].
  cbn [shape] in Hlead. destruct Hlead as [(-> & Hc & Hbol) | (sp & -> & Hsp & Hc)].
  - left. auto.
  - right. eauto.
Qed.

Lemma cli_patterns_tools (pattern : regex) :
  pattern ∈ cli_patterns ->
  exists tool tools, pattern = cli tool tools /\
                     forall g, g ∈ map py (tool :: tools) -> g ∈ cli_tools /\ strip g = g.
Proof.
  unfold cli_patterns. rewrite !elem_of_cons.
  intros [-> | [-> | [-> | [-> | H]]]]; [| | | |apply elem_of_nil in H; contradiction];
    eexists _, _; (split; [reflexivity|]); intros g Hg; cbn [map] in Hg;
    repeat (apply elem_of_cons in Hg as [-> | Hg];
            [split; [apply (bool_decide_unpack _); vm_compute; reflexivity
                    | vm_compute; reflexivity]|]);
    apply elem_of_nil in Hg; contradiction.
Qed.

Lemma extract_commands_elem (text : str) (c : Command.t) :
  c ∈ extract_commands text ->
  Command.command c ∈ cli_tools /\ invoked (Command.command c) text.
Proof.
  unfold extract_commands. intros H.
  apply list_elem_of_In, in_flat_map in H as (pattern & Hp & H).
  apply in_map_iff in H as (g & <- & Hg). cbn [Command.command].
  apply list_elem_of_In, cli_patterns_tools in Hp as (tool & tools & -> & Htools).
  apply list_elem_of_In, findall1_elem in Hg as (m & Hm & <-).
  apply finditer_elem in Hm as (pre & post & -> & Hat).
  pose proof Hat as Hat'. apply match_at_shape in Hat' as (rest & -> & _).
  apply cli_match in Hat as (lead & ws & x & tail & Hw & Hin & Hlead & Hne & Hws & Hx).
  destruct (Htools _ Hin) as [Hin' ->]. split; [exact Hin'|].
  exists (pre ++ lead), ws, x, (tail ++ rest). split.
  - rewrite Hw, <- !app_assoc. reflexivity.
  - split; [|auto]. destruct Hlead as [[-> Hbol] | (sp & -> & Hsp)].
    + rewrite app_nil_r. destruct (last pre) as [p|] eqn:El.
      * right. exists p. split; [reflexivity|]. cbn in Hbol.
        apply Ascii.eqb_eq in Hbol as ->. reflexivity.
      * left. apply last_None. exact El.
    + right. exists sp. rewrite last_snoc. auto.
Qed.

(** X14. The command field of every entry of [extract_commands] is the name of
    one of the 21 tools of [cli_patterns] and nothing else (no subcommand, no
    argument), and that name stands in the text at the start or after a
    whitespace character and is followed by whitespace and a word character;
    the type is cli_command and the confidence 0.8. *)
Theorem extract_commands_tools (text : str) (c : Command.t) :
  c ∈ extract_commands text ->
  Command.command c ∈ cli_tools /\ invoked (Command.command c) text /\
  Command.type c = "cli_command"%string /\ Command.confidence c = (8 # 10)%Q.
Proof.
  intros H. destruct (extract_commands_elem text c H) as [H1 H2].
  destruct (extract_commands_fixed text c H) as [H3 H4]. auto.
Qed.



(** ** A text of whitespace only *)

Lemma is_space_lower_char (c : ascii) : is_space (lower_char c) = is_space c.
Proof. destruct c as [[] [] [] [] [] [] [] []]; vm_compute; reflexivity. Qed.

Lemma terms_visible_spec (self : Processor) (i : nat) (entry : Category * list str)
    (term : str) :
  terms_visible self = true -> priority_order self !! i = Some entry -> term ∈ entry.2 ->
  exists c, c ∈ term /\ is_space c = false.
Proof.
  unfold terms_visible. rewrite forallb_forall. intros H Hi Hin.
  specialize (H entry). rewrite forallb_forall in H.
  assert (He : In entry (priority_order self)).
  { apply list_elem_of_In, list_elem_of_lookup. eauto. }
  specialize (H He term (proj1 (list_elem_of_In _ _) Hin)).
  apply existsb_exists in H as (c & Hc & Hsp). exists c.
  split; [apply list_elem_of_In; exact Hc|]. apply negb_true_iff. exact Hsp.
Qed.

Lemma whitespace_no_entities (self : Processor) (text : str) (i : nat)
    (entry : Category * list str) :
  terms_visible self = true -> priority_order self !! i = Some entry ->
  Forall (fun c => is_space c = true) text ->
  extract_entities_by_category self text entry.2 = [].
Proof.
  intros Hvis Hi Hall.
  destruct (extract_entities_by_category self text entry.2) as [|e es] eqn:E; [reflexivity|].
  exfalso.
  assert (Hk : entity_key e ∈ map entity_key (extract_entities_by_category self text entry.2)).
  { rewrite E. left. }
  apply extract_entities_key_iff in Hk as (term & Hin & Hkey & Hc).
  apply contains_spec in Hc.
  destruct (terms_visible_spec self i entry term Hvis Hi Hin) as (c & Hc1 & Hc2).
  assert (Hl : lower_char c ∈ lower text).
  { eapply substring_elem; [exact Hc|]. rewrite <- Hkey. unfold lower.
    apply list_elem_of_fmap. eauto. }
  unfold lower in Hl. apply list_elem_of_fmap in Hl as (x & Hx & Hin').
  rewrite Forall_forall in Hall. specialize (Hall x Hin').
  rewrite <- is_space_lower_char, <- Hx, is_space_lower_char in Hall. congruence.
Qed.

(** X15. For a text that is not empty and holds whitespace only, and a
    processor none of whose terms is made of whitespace only, every list of
    the result is empty and the confidence scores hold the four keys, each
    with the value 0 (where the empty text has no keys at all). *)
Theorem process_text_whitespace (self : Processor) (text : str) :
  terms_visible self = true ->
  text <> [] -> Forall (fun c => is_space c = true) text ->
  let result := process_text self (Some text) in
  Result.urls result = [] /\
  Result.tools_and_software result = [] /\
  Forall (fun names => names = []) (name_lists result) /\
  Result.code_snippets result = [] /\
  Result.commands result = [] /\
  forall key, key ∈ score_keys ->
    exists q, Result.confidence_scores result !! key = Some q /\ (q == 0)%Q.
Proof.
  intros Hvis Hne Hall result.
  assert (Hno : forall x, x ∈ text -> negb (is_space x) = false).
  { intros x Hx. rewrite Forall_forall in Hall. rewrite (Hall x Hx). reflexivity. }
  assert (Hurls : extract_urls text = []).
  { apply (extract_urls_nothing (fun x => negb (is_space x))); [vm_compute; reflexivity|].
    exact Hno. }
  assert (Hsnip : extract_code_snippets text = []).
  { apply (extract_code_snippets_nothing (fun x => negb (is_space x)));
      [vm_compute; reflexivity | exact Hno]. }
  assert (Hcmd : extract_commands text = []).
  { unfold extract_commands, cli_patterns. cbn [flat_map].
    rewrite !(findall1_nothing cli_flags _ (fun x => negb (is_space x)) text)
      by (vm_compute; reflexivity || exact Hno).
    reflexivity. }
  assert (Hent : forall i entry, priority_order self !! i = Some entry ->
                   extract_entities_by_category self text entry.2 = []).
  { intros i entry Hi. eapply whitespace_no_entities; eauto. }
  pose proof (Hent 0%nat _ eq_refl) as H0. pose proof (Hent 1%nat _ eq_refl) as H1.
  pose proof (Hent 2%nat _ eq_refl) as H2. pose proof (Hent 3%nat _ eq_refl) as H3.
  pose proof (Hent 4%nat _ eq_refl) as H4. pose proof (Hent 5%nat _ eq_refl) as H5.
  pose proof (Hent 6%nat _ eq_refl) as H6. cbn [snd] in H0, H1, H2, H3, H4, H5, H6.
  subst result. destruct text as [|c t]; [contradiction|].
  unfold name_lists.
  cbn -[extract_entities_by_category extract_code_snippets extract_commands extract_urls mean].
  rewrite Hurls, Hsnip, Hcmd, H0, H1, H2, H3, H4, H5, H6.
  cbn -[mean]. repeat split; try (repeat constructor).
  intros key Hk. unfold score_keys in Hk.
  repeat (apply elem_of_cons in Hk as [-> | Hk];
          [eexists; split; [repeat (rewrite lookup_insert_eq || rewrite lookup_insert_ne by discriminate); reflexivity | reflexivity]|]).
  apply elem_of_nil in Hk. contradiction.
Qed.

(** ** Runs of a class *)

(** A greedy star takes a whole run of its class when the rest of the
    pattern accepts what follows. *)
Lemma star_greedy_run (p : ascii -> bool) (k : cont) (caps : list (nat * str))
    (run rest : str) (res : mstate) : forall (prev : option ascii) (pos : nat),
  Forall (fun c => p c = true) run ->
  (rest = [] \/ exists c t, rest = c :: t /\ p c = false) ->
  k {| m_prev := last_or prev run; m_rest := rest; m_pos := pos + length run;
       m_caps := caps |} = Some res ->
  star_greedy p k caps prev pos (run ++ rest) = Some res.
Proof.
  induction run as [|c run IH]; intros prev pos Hall Hrest Hk.
  - cbn [app length] in *. rewrite Nat.add_0_r in Hk.
    destruct Hrest as [-> | (c & t & -> & Hc)]; cbn [star_greedy].
    + exact Hk.
    + rewrite Hc. exact Hk.
  - apply Forall_cons in Hall as [Hc Hall]. cbn [app star_greedy]. rewrite Hc.
    rewrite (IH (Some c) (S pos) Hall Hrest); [reflexivity|].
    rewrite last_or_cons in Hk. cbn [length] in Hk.
    replace (S pos + length run) with (pos + S (length run)) by lia. exact Hk.
Qed.

Lemma rmatch_times_run (fl : flags) (p : ascii -> bool) (k : cont) (run rest : str) :
  forall (prev : option ascii) (pos : nat) (caps : list (nat * str)),
  Forall (fun c => p c = true) run ->
  rmatch fl (times (length run) (Cls p))
         {| m_prev := prev; m_rest := run ++ rest; m_pos := pos; m_caps := caps |} k
  = k {| m_prev := last_or prev run; m_rest := rest; m_pos := pos + length run;
         m_caps := caps |}.
Proof.
  induction run as [|c run IH]; intros prev pos caps Hall; cbn [length times rmatch app].
  - rewrite Nat.add_0_r. reflexivity.
  - apply Forall_cons in Hall as [Hc Hall]. unfold step. cbn [m_rest m_pos m_caps].
    rewrite Hc, (IH _ _ _ Hall), last_or_cons. do 2 f_equal. lia.
Qed.

Lemma shape_times (fl : flags) (p : ascii -> bool) (n : nat) :
  forall prev cs next caps caps',
  shape fl (times n (Cls p)) prev cs next caps caps' ->
  length cs = n /\ Forall (fun c => p c = true) cs /\ caps' = caps.
Proof.
  induction n as [|n IH]; intros prev cs next caps caps'; cbn [times shape].
  - intros [-> ->]. auto.
  - intros (cs1 & cs2 & caps1 & -> & (x & -> & Hx & ->) & H).
    apply IH in H as (Hlen & Hall & ->). cbn. auto.
Qed.

(** ** The url forms *)

Lemma video_markers_alts :
  alts (lit (py "youtube.com/watch?v=")) (words ["youtu.be/"; "youtube.com/embed/"])
  = Alt (lit (py "youtube.com/watch?v="))
        (Alt (lit (py "youtu.be/")) (lit (py "youtube.com/embed/"))).
Proof. reflexivity. Qed.

Lemma rmatch_markers (marker tail : str) (st : mstate) (k : cont) (res : mstate) :
  marker ∈ video_markers ->
  m_rest st = marker ++ tail ->
  k (after_lit marker st) = Some res ->
  rmatch no_flags
         (alts (lit (py "youtube.com/watch?v=")) (words ["youtu.be/"; "youtube.com/embed/"]))
         st k = Some res.
Proof.
  intros Hm Hrest Hk. rewrite video_markers_alts. cbn [rmatch]. rewrite !rmatch_lit, Hrest.
  unfold video_markers in Hm. cbn [map] in Hm.
  repeat (apply elem_of_cons in Hm as [-> | Hm]);
    [| | |apply elem_of_nil in Hm; contradiction].
  - rewrite startswith_app, Hk. reflexivity.
  - change (startswith (py "youtube.com/watch?v=") (py "youtu.be/" ++ tail)) with false.
    cbn match. rewrite startswith_app, Hk. reflexivity.
  - change (startswith (py "youtube.com/watch?v=") (py "youtube.com/embed/" ++ tail))
      with false.
    change (startswith (py "youtu.be/") (py "youtube.com/embed/" ++ tail)) with false.
    cbn match. rewrite startswith_app, Hk. reflexivity.
Qed.

(** At a marker that is followed by a run of id characters, the pattern
    matches the marker and the run. *)
Lemma url_form_match (prev : option ascii) (marker id rest : str) :
  marker ∈ video_markers ->
  id <> [] -> Forall (fun c => cls_id_part c = true) id ->
  (rest = [] \/ exists c t, rest = c :: t /\ cls_id_part c = false) ->
  exists m, match_at no_flags url_form prev (marker ++ id ++ rest) = Some m /\
            group 1 m = id.
Proof.
  intros Hm Hne Hall Hrest. destruct id as [|c id]; [contradiction|].
  apply Forall_cons in Hall as [Hc Hall].
  set (res := {| m_prev := last_or (Some c) id; m_rest := rest;
                 m_pos := S (length marker) + length id;
                 m_caps := [(1, c :: id)] |}).
  assert (Hr : rmatch no_flags url_form
                 {| m_prev := prev; m_rest := marker ++ (c :: id) ++ rest; m_pos := 0;
                    m_caps := [] |} Some = Some res).
  { unfold url_form. cbn [seqs].
    change (rmatch no_flags (Seq ?a ?b) ?st ?k)
      with (rmatch no_flags a st (fun st' => rmatch no_flags b st' k)).
    apply (rmatch_markers marker ((c :: id) ++ rest)); [exact Hm | reflexivity|].
    unfold after_lit. cbn [m_rest m_pos m_caps m_prev]. rewrite drop_app_length.
    cbn [rmatch Plus app]. unfold step. cbn [m_rest m_pos m_caps m_prev]. rewrite Hc.
    apply star_greedy_run; [exact Hall | exact Hrest|].
    unfold set_cap, res. cbn [m_pos m_prev m_rest m_caps]. rewrite Nat.add_0_l.
    replace (S (length marker) + length id - length marker) with (S (length id)) by lia.
    cbn [firstn]. rewrite take_app_length. reflexivity. }
  unfold match_at. rewrite Hr. eexists. split; [reflexivity|]. reflexivity.
Qed.

Lemma url_form_shape (prev : option ascii) (cs next : str) (caps' : list (nat * str)) :
  shape no_flags url_form prev cs next [] caps' ->
  exists marker id,
    marker ∈ video_markers /\ cs = marker ++ id /\ caps' = [(1, id)] /\
    id <> [] /\ Forall (fun c => cls_id_part c = true) id.
Proof.
  unfold url_form. cbn [seqs]. intros (cs1 & cs2 & caps1 & -> & H1 & H).
  apply shape_alts_words in H1 as [Hm ->]; [|reflexivity].
  destruct H as (g & cs4 & caps2 & -> & (caps3 & Hg & ->) & H4).
  cbn [shape] in H4. destruct H4 as [-> ->].
  cbn [shape Plus] in Hg.
  destruct Hg as (a & b & caps5 & -> & (y & -> & Hy & ->) & Hb & ->).
  exists cs1, ([y] ++ b). split; [exact Hm|]. rewrite app_nil_r.
  split; [reflexivity|]. split; [reflexivity|]. split; [discriminate|].
  constructor; assumption.
Qed.

Lemma url_form_needs_y (prev : option ascii) (c : ascii) (s : str) :
  c <> "y"%char -> match_at no_flags url_form prev (c :: s) = None.
Proof.
  intros Hc. destruct (match_at no_flags url_form prev (c :: s)) as [m|] eqn:E; [|reflexivity].
  exfalso. apply match_at_shape in E as (rest & Heq & Hs).
  apply url_form_shape in Hs as (marker & id & Hm & Hw & _).
  rewrite Hw in Heq. unfold video_markers in Hm. cbn [map] in Hm.
  repeat (apply elem_of_cons in Hm as [-> | Hm]; [injection Heq as -> _; contradiction|]).
  apply elem_of_nil in Hm. contradiction.
Qed.

Lemma scan_skip (fl : flags) (r : regex) (pre s : str) : forall prev,
  (forall prev' c tail, c ∈ pre -> match_at fl r prev' (c :: tail) = None) ->
  scan fl r prev (pre ++ s) 0 = scan fl r (last_or prev pre) s 0.
Proof.
  induction pre as [|c pre IH]; intros prev Hnone; [reflexivity|].
  cbn [app scan]. rewrite Hnone by left. rewrite last_or_cons. apply IH.
  intros prev' c' tail Hin. apply Hnone. right. exact Hin.
Qed.

Lemma scan_head (fl : flags) (r : regex) (prev : option ascii) (s : str) (m : matched) :
  match_at fl r prev s = Some m -> head (scan fl r prev s 0) = Some m.
Proof. intros H. destruct s; cbn [scan]; rewrite H; reflexivity. Qed.

Lemma search_url_form (pre marker id rest : str) :
  (forall c, c ∈ pre -> c <> "y"%char) ->
  marker ∈ video_markers ->
  id <> [] -> Forall (fun c => cls_id_part c = true) id ->
  (rest = [] \/ exists c t, rest = c :: t /\ cls_id_part c = false) ->
  exists m, search no_flags url_form (pre ++ marker ++ id ++ rest) = Some m /\
            group 1 m = id.
Proof.
  intros Hpre Hm Hne Hall Hrest.
  destruct (url_form_match (last_or None pre) marker id rest Hm Hne Hall Hrest)
    as (m & Hat & Hg).
  exists m. split; [|exact Hg]. unfold search, finditer.
  rewrite scan_skip.
  - apply scan_head. exact Hat.
  - intros prev' c tail Hc. apply url_form_needs_y, Hpre. exact Hc.
Qed.

(** X16. When one of the three url forms (youtube.com/watch?v=, youtu.be/,
    youtube.com/embed/) is followed by a non-empty id without the characters
    ampersand, newline, question mark and hash sign, and then by the end of
    the text or by one of these four characters, and no letter y stands
    before the url form, [extract_video_id] returns that id. In particular it
    returns the id from the url that [analyze] builds from it. *)
Theorem extract_video_id_from_url (id : str) :
  id <> [] -> Forall (fun c => cls_id_part c = true) id ->
  (forall pre marker rest,
     (forall c, c ∈ pre -> c <> "y"%char) ->
     marker ∈ video_markers ->
     (rest = [] \/ exists c t, rest = c :: t /\ cls_id_part c = false) ->
     extract_video_id (pre ++ marker ++ id ++ rest) = Some id) /\
  extract_video_id (video_url id) = Some id.
Proof.
  intros Hne Hall.
  assert (Hgen : forall pre marker rest,
     (forall c, c ∈ pre -> c <> "y"%char) ->
     marker ∈ video_markers ->
     (rest = [] \/ exists c t, rest = c :: t /\ cls_id_part c = false) ->
     extract_video_id (pre ++ marker ++ id ++ rest) = Some id).
  { intros pre marker rest Hpre Hm Hrest.
    destruct (search_url_form pre marker id rest Hpre Hm Hne Hall Hrest) as (m & Hs & Hg).
    unfold extract_video_id. rewrite Hs, Hg. reflexivity. }
  split; [exact Hgen|].
  specialize (Hgen (py "https://www.") (py "youtube.com/watch?v=") []).
  rewrite app_nil_r in Hgen. apply Hgen.
  - intros c Hc. cbn in Hc. repeat (apply elem_of_cons in Hc as [-> | Hc]; [discriminate|]).
    apply elem_of_nil in Hc. contradiction.
  - left.
  - left. reflexivity.
Qed.

(** ** The direct form *)

Lemma match_at_end_shape (fl : flags) (r : regex) (prev : option ascii) (s : str)
    (m : matched) :
  match_at_end fl r prev s = Some m ->
  exists rest, s = whole m ++ rest /\ at_end rest = true /\
               shape fl r prev (whole m) rest [] (caps m).
Proof.
  unfold match_at_end. destruct (rmatch _ _ _ _) as [st|] eqn:E; [|discriminate].
  intros [= <-]. cbn [whole caps].
  apply rmatch_shape in E as (cs & st' & Hk & (A1 & A2 & A3) & Hs).
  destruct (at_end (m_rest st')) eqn:Eend; [|discriminate]. injection Hk as ->.
  cbn in *. exists (m_rest st). rewrite A2, A1, take_app_length. auto.
Qed.

Lemma search_end_elem (fl : flags) (r : regex) (s : str) (m : matched) : forall prev,
  search_end fl r prev s = Some m ->
  exists pre post, s = pre ++ post /\ match_at_end fl r (last_or prev pre) post = Some m.
Proof.
  induction s as [|c t IH]; intros prev H; cbn [search_end] in H.
  - destruct (match_at_end fl r prev []) eqn:E; [|discriminate].
    injection H as ->. exists [], []. auto.
  - destruct (match_at_end fl r prev (c :: t)) eqn:E.
    + injection H as ->. exists [], (c :: t). auto.
    + apply IH in H as (pre & post & -> & Hm). exists (c :: pre), post.
      rewrite last_or_cons. auto.
Qed.

Lemma direct_form_shape (prev : option ascii) (cs next : str) (caps' : list (nat * str)) :
  shape no_flags direct_form prev cs next [] caps' ->
  prev = None /\ caps' = [(1, cs)] /\ length cs = 11 /\
  Forall (fun c => cls_id_char c = true) cs.
Proof.
  unfold direct_form. cbn [seqs]. intros (cs1 & cs2 & caps1 & -> & H1 & H).
  cbn [shape] in H1. destruct H1 as (-> & -> & Hbol).
  destruct H as (g & cs4 & caps2 & -> & (caps3 & Hg & ->) & H4).
  cbn [shape] in H4. destruct H4 as [-> ->].
  apply shape_times in Hg as (Hlen & Hall & ->). cbn [app]. rewrite app_nil_r.
  split; [|auto]. destruct prev; [discriminate Hbol | reflexivity].
Qed.

Lemma search_end_direct (url : str) (m : matched) :
  search_end no_flags direct_form None url = Some m ->
  (url = group 1 m \/ url = group 1 m ++ newline) /\
  length (group 1 m) = 11 /\ Forall (fun c => cls_id_char c = true) (group 1 m).
Proof.
  intros H. apply search_end_elem in H as (pre & post & -> & H).
  apply match_at_end_shape in H as (rest & -> & Hend & Hs).
  apply direct_form_shape in Hs as (Hprev & Hcaps & Hlen & Hall).
  rewrite last_or_None in Hprev. apply last_None in Hprev as ->.
  unfold group. rewrite Hcaps. cbn [lookup_cap Nat.eqb app].
  split; [|auto]. destruct rest as [|c [|c' rest]]; cbn in Hend; try discriminate.
  - left. rewrite app_nil_r. reflexivity.
  - right. apply Ascii.eqb_eq in Hend as ->. reflexivity.
Qed.

Lemma direct_form_match (id rest : str) :
  length id = 11 -> Forall (fun c => cls_id_char c = true) id -> at_end rest = true ->
  exists m, search_end no_flags direct_form None (id ++ rest) = Some m /\ group 1 m = id.
Proof.
  intros Hlen Hall Hend.
  assert (Hm : exists m, match_at_end no_flags direct_form None (id ++ rest) = Some m /\
                         group 1 m = id).
  { unfold match_at_end, direct_form. cbn [seqs rmatch at_bol m_prev].
    rewrite <- Hlen, (rmatch_times_run no_flags cls_id_char _ id rest None 0 [] Hall).
    unfold set_cap. cbn [m_rest m_pos m_caps m_prev]. rewrite Hend.
    eexists. split; [reflexivity|]. unfold group. cbn.
    rewrite Nat.sub_0_r, take_app_length. reflexivity. }
  destruct Hm as (m & Hm & Hg). exists m. split; [|exact Hg].
  destruct (id ++ rest); cbn [search_end]; rewrite Hm; reflexivity.
Qed.

Lemma search_url_form_needs_slash (url : str) :
  (forall c, c ∈ url -> c <> "/"%char) -> search no_flags url_form url = None.
Proof.
  intros Hno. unfold search.
  rewrite (finditer_nothing no_flags url_form (chr_in "/") url); [reflexivity| |].
  - vm_compute. reflexivity.
  - intros x Hx. unfold chr_in. cbn.
    rewrite (proj2 (Ascii.eqb_neq _ _) (Hno x Hx)). reflexivity.
Qed.

(** X17. For an input without a slash, [extract_video_id] returns an id exactly
    when the input is that id, optionally followed by one newline, and the id
    has eleven characters, each a letter a to z or A to Z, a digit, an
    underscore or a hyphen; otherwise it returns None. *)
Theorem extract_video_id_direct (url id : str) :
  (forall c, c ∈ url -> c <> "/"%char) ->
  extract_video_id url = Some id <->
  (url = id \/ url = id ++ newline) /\ length id = 11 /\
  Forall (fun c => cls_id_char c = true) id.
Proof.
  intros Hno. unfold extract_video_id. rewrite (search_url_form_needs_slash url Hno).
  split.
  - destruct (search_end no_flags direct_form None url) as [m|] eqn:E; [|discriminate].
    intros [= <-]. apply search_end_direct. exact E.
  - intros (Hurl & Hlen & Hall).
    assert (Hex : exists rest, url = id ++ rest /\ at_end rest = true).
    { destruct Hurl as [-> | ->]; [exists []; rewrite app_nil_r | exists newline]; auto. }
    destruct Hex as (rest & -> & Hend).
    destruct (direct_form_match id rest Hlen Hall Hend) as (m & -> & ->). reflexivity.
Qed.

(** ** What an id looks like *)

Lemma id_char_is_id_part (c : ascii) : cls_id_char c = true -> cls_id_part c = true.
Proof. apply within_spec. vm_compute. reflexivity. Qed.

(** X18. An id that [extract_video_id] returns is never empty and holds no
    ampersand, newline, question mark or hash sign; either it stands in the
    input right after one of the three url forms, or the input is the id of
    eleven id characters, optionally followed by one newline. *)
Theorem extract_video_id_shape (url id : str) :
  extract_video_id url = Some id ->
  id <> [] /\ Forall (fun c => cls_id_part c = true) id /\
  ((exists marker, marker ∈ video_markers /\ substring (marker ++ id) url) \/
   ((url = id \/ url = id ++ newline) /\ length id = 11 /\
    Forall (fun c => cls_id_char c = true) id)).
Proof.
  unfold extract_video_id.
  destruct (search no_flags url_form url) as [m|] eqn:E1.
  - intros [= <-]. unfold search in E1.
    assert (Hin : m ∈ finditer no_flags url_form url).
    { destruct (finditer no_flags url_form url); [discriminate|].
      injection E1 as ->. left. }
    pose proof (finditer_whole_substring _ _ _ _ Hin) as Hsub.
    apply finditer_elem in Hin as (pre & post & _ & Hat).
    apply match_at_shape in Hat as (rest & _ & Hs).
    apply url_form_shape in Hs as (marker & g & Hm & Hw & Hcaps & Hne & Hall).
    unfold group. rewrite Hcaps. cbn [lookup_cap Nat.eqb].
    split; [exact Hne|]. split; [exact Hall|]. left. exists marker.
    rewrite <- Hw. auto.
  - destruct (search_end no_flags direct_form None url) as [m|] eqn:E2; [|discriminate].
    intros [= <-]. apply search_end_direct in E2 as (Hurl & Hlen & Hall).
    split; [destruct (group 1 m); [discriminate Hlen | discriminate]|].
    split; [|right; auto].
    eapply Forall_impl; [exact Hall|]. exact id_char_is_id_part.
Qed.

(** ** Patterns that match a given piece of text *)

Section Takes.
Variable fl : flags.

Lemma lit_eq_refl (c : ascii) : lit_eq fl c c = true.
Proof. unfold lit_eq. destruct (IGNORECASE fl); apply Ascii.eqb_refl. Qed.

Lemma takes_Eps (s : str) : takes fl Eps [] s id.
Proof.
  intros k prev pos caps res Hk. cbn [rmatch app]. unfold after in Hk. cbn in Hk.
  rewrite Nat.add_0_r in Hk. exact Hk.
Qed.

Lemma takes_step (ok : ascii -> bool) (c : ascii) (s : str) (k : cont) prev pos caps res :
  ok c = true -> k (after prev [c] s pos caps) = Some res ->
  step ok {| m_prev := prev; m_rest := [c] ++ s; m_pos := pos; m_caps := caps |} k = Some res.
Proof.
  intros Hok Hk. unfold step. cbn [m_rest m_pos m_caps app]. rewrite Hok.
  unfold after in Hk. cbn in Hk. replace (S pos) with (pos + 1) by lia. exact Hk.
Qed.

Lemma takes_Cls (p : ascii -> bool) (c : ascii) (s : str) :
  p c = true -> takes fl (Cls p) [c] s id.
Proof. intros Hp k prev pos caps res Hk. cbn [rmatch]. apply takes_step; assumption. Qed.

Lemma takes_Lit (c : ascii) (s : str) : takes fl (Lit c) [c] s id.
Proof.
  intros k prev pos caps res Hk. cbn [rmatch]. apply takes_step; [apply lit_eq_refl | exact Hk].
Qed.

Lemma takes_Seq (r1 r2 : regex) (s1 s2 s3 : str) g1 g2 :
  takes fl r1 s1 (s2 ++ s3) g1 -> takes fl r2 s2 s3 g2 ->
  takes fl (Seq r1 r2) (s1 ++ s2) s3 (fun caps => g2 (g1 caps)).
Proof.
  intros H1 H2 k prev pos caps res Hk. cbn [rmatch]. rewrite <- app_assoc.
  apply H1. unfold after at 1. apply H2.
  unfold after in *. rewrite <- last_or_app, <- Nat.add_assoc, <- length_app. exact Hk.
Qed.

Lemma takes_lit (e s : str) : takes fl (lit e) e s id.
Proof.
  induction e as [|c e IH]; [apply takes_Eps|].
  cbn [lit]. apply (takes_Seq (Lit c) (lit e) [c] e s id id); [apply takes_Lit | exact IH].
Qed.

Lemma takes_Star (p : ascii -> bool) (run s : str) :
  Forall (fun c => p c = true) run -> blocked p s = true -> takes fl (Star p) run s id.
Proof.
  intros Hall Hb k prev pos caps res Hk. cbn [rmatch m_caps m_prev m_pos m_rest].
  apply star_greedy_run; [exact Hall| |exact Hk].
  destruct s as [|c t]; [left; reflexivity|]. right. exists c, t.
  split; [reflexivity|]. apply negb_true_iff. exact Hb.
Qed.

Lemma takes_Plus (p : ascii -> bool) (c : ascii) (run s : str) :
  p c = true -> Forall (fun x => p x = true) run -> blocked p s = true ->
  takes fl (Plus p) (c :: run) s id.
Proof.
  intros Hc Hall Hb.
  apply (takes_Seq (Cls p) (Star p) [c] run s id id);
    [apply takes_Cls; exact Hc | apply takes_Star; assumption].
Qed.

Lemma takes_Grp (n : nat) (r : regex) (s1 s2 : str) g :
  takes fl r s1 s2 g -> takes fl (Grp n r) s1 s2 (fun caps => (n, s1) :: g caps).
Proof.
  intros H k prev pos caps res Hk. cbn [rmatch]. apply H.
  unfold after, set_cap in *. cbn [m_pos m_rest m_prev m_caps].
  replace (pos + length s1 - pos) with (length s1) by lia.
  rewrite take_app_length. exact Hk.
Qed.

Lemma takes_Opt (r : regex) (s1 s2 : str) g :
  takes fl r s1 s2 g -> takes fl (Opt r) s1 s2 g.
Proof. intros H k prev pos caps res Hk. cbn [rmatch]. rewrite (H _ _ _ _ _ Hk). reflexivity. Qed.

Lemma takes_Opt_skip (r : regex) (s : str) : fails fl r s -> takes fl (Opt r) [] s id.
Proof.
  intros H k prev pos caps res Hk. cbn [rmatch app]. rewrite H.
  unfold after in Hk. cbn in Hk. rewrite Nat.add_0_r in Hk. exact Hk.
Qed.

Lemma takes_Alt_l (r1 r2 : regex) (s1 s2 : str) g :
  takes fl r1 s1 s2 g -> takes fl (Alt r1 r2) s1 s2 g.
Proof. intros H k prev pos caps res Hk. cbn [rmatch]. rewrite (H _ _ _ _ _ Hk). reflexivity. Qed.

Lemma takes_Alt_r (r1 r2 : regex) (s1 s2 : str) g :
  fails fl r1 (s1 ++ s2) -> takes fl r2 s1 s2 g -> takes fl (Alt r1 r2) s1 s2 g.
Proof. intros Hf H k prev pos caps res Hk. cbn [rmatch]. rewrite Hf. apply H. exact Hk. Qed.

Lemma fails_step (ok : ascii -> bool) (s : str) (k : cont) prev pos caps :
  blocked ok s = true ->
  step ok {| m_prev := prev; m_rest := s; m_pos := pos; m_caps := caps |} k = None.
Proof.
  intros Hb. unfold step. cbn [m_rest]. destruct s as [|c t]; [reflexivity|].
  cbn in Hb. apply negb_true_iff in Hb. rewrite Hb. reflexivity.
Qed.

Lemma fails_Cls (p : ascii -> bool) (s : str) : blocked p s = true -> fails fl (Cls p) s.
Proof. intros Hb k prev pos caps. cbn [rmatch]. apply fails_step. exact Hb. Qed.

Lemma fails_Lit (c : ascii) (s : str) : blocked (lit_eq fl c) s = true -> fails fl (Lit c) s.
Proof. intros Hb k prev pos caps. cbn [rmatch]. apply fails_step. exact Hb. Qed.

Lemma fails_Seq (r1 r2 : regex) (s : str) : fails fl r1 s -> fails fl (Seq r1 r2) s.
Proof. intros H k prev pos caps. cbn [rmatch]. apply H. Qed.

Lemma match_at_takes (r : regex) (prev : option ascii) (s1 s2 : str) g :
  takes fl r s1 s2 g ->
  match_at fl r prev (s1 ++ s2) = Some {| whole := s1; caps := g [] |}.
Proof.
  intros H. unfold match_at. rewrite (H Some prev 0 [] _ eq_refl).
  unfold after. cbn [m_pos m_caps]. rewrite Nat.add_0_l, take_app_length. reflexivity.
Qed.

End Takes.

(** A literal fails where the text does not start with it. *)
Lemma fails_lit (fl : flags) (e s : str) :
  IGNORECASE fl = false -> startswith e s = false -> fails fl (lit e) s.
Proof.
  intros Hfl. revert s. induction e as [|c e IH]; intros s Hs; [discriminate Hs|].
  intros k prev pos caps. cbn [lit rmatch]. unfold step. cbn [m_rest m_pos m_caps].
  destruct s as [|x t]; [reflexivity|]. cbn [startswith] in Hs.
  unfold lit_eq. rewrite Hfl. rewrite Ascii.eqb_sym.
  destruct (Ascii.eqb c x); [|reflexivity]. cbn [andb] in Hs. apply IH. exact Hs.
Qed.

(** The longest run of a class at the start of a text. *)
Lemma run_of (p : ascii -> bool) (s : str) :
  exists run rest, s = run ++ rest /\ Forall (fun c => p c = true) run /\
                   blocked p rest = true.
Proof.
  induction s as [|c t (run & rest & -> & Hall & Hb)].
  - exists [], []. repeat split. constructor.
  - destruct (p c) eqn:Hc.
    + exists (c :: run), rest. repeat split; [constructor; assumption | exact Hb].
    + exists [], (c :: run ++ rest). repeat split; [constructor | cbn; rewrite Hc; reflexivity].
Qed.

Lemma blocked_space (p : ascii -> bool) (post : str) :
  within p (fun c => negb (is_space c)) = true ->
  post = [] \/ (exists w post', post = w :: post' /\ is_space w = true) ->
  blocked p post = true.
Proof.
  intros Hw [-> | (w & post' & -> & Hsp)]; [reflexivity|]. cbn.
  destruct (p w) eqn:Hp; [|reflexivity].
  apply (within_spec _ _ _ Hw) in Hp. rewrite Hsp in Hp. discriminate.
Qed.

Lemma takes_cast (fl : flags) (r : regex) (s1 s1' s2 : str) g :
  takes fl r s1 s2 g -> s1 = s1' -> takes fl r s1' s2 g.
Proof. intros H <-. exact H. Qed.

(** ** The urls with a scheme *)

Lemma space_blocks_url (post : str) :
  post = [] \/ (exists w post', post = w :: post' /\ is_space w = true) ->
  blocked cls_host post = true /\ blocked cls_port post = true /\
  blocked cls_path post = true /\
  blocked (lit_eq url_flags "/") post = true /\
  blocked (lit_eq url_flags "?") post = true /\
  blocked (lit_eq url_flags "#") post = true.
Proof.
  intros H. repeat split; (apply blocked_space; [vm_compute; reflexivity | exact H]).
Qed.

Lemma url_tail_takes (tail post : str) :
  (tail = [] \/
   exists path, tail = py "/" ++ path /\ Forall (fun c => cls_path c = true) path) ->
  post = [] \/ (exists w post', post = w :: post' /\ is_space w = true) ->
  takes url_flags url_tail tail post id.
Proof.
  intros Htail Hpost.
  destruct (space_blocks_url post Hpost) as (_ & _ & Hpath & Hslash & Hq & Hf).
  unfold url_tail. cbn [seqs]. destruct Htail as [-> | (path & -> & Hall)].
  - apply takes_Opt_skip, fails_Seq, fails_Lit. exact Hslash.
  - apply takes_Opt.
    apply (takes_cast _ _ (py "/" ++ path ++ [] ++ [] ++ [])); [|rewrite !app_nil_r; reflexivity].
    apply (takes_Seq _ _ _ (py "/") _ post id id); [apply takes_Lit|].
    apply (takes_Seq _ _ _ path _ post id id);
      [apply takes_Star; [exact Hall | exact Hpath]|].
    apply (takes_Seq _ _ _ [] _ post id id);
      [apply takes_Opt_skip, fails_Seq, fails_Lit; exact Hq|].
    apply (takes_Seq _ _ _ [] [] post id id);
      [apply takes_Opt_skip, fails_Seq, fails_Lit; exact Hf | apply takes_Eps].
Qed.

Lemma url_scheme_takes (secure : bool) (c : ascii) (host tail post : str) :
  cls_host c = true -> Forall (fun x => cls_host x = true) host ->
  (tail = [] \/
   exists path, tail = py "/" ++ path /\ Forall (fun c => cls_path c = true) path) ->
  post = [] \/ (exists w post', post = w :: post' /\ is_space w = true) ->
  takes url_flags url_scheme
        (py "http" ++ (if secure then py "s" else []) ++ py "://" ++ (c :: host) ++ tail)
        post id.
Proof.
  intros Hc Hall Htail Hpost.
  destruct (space_blocks_url post Hpost) as (Hhost & Hport & _).
  assert (Hb : blocked cls_host (tail ++ post) = true /\ blocked cls_port (tail ++ post) = true).
  { destruct Htail as [-> | (path & -> & _)]; [auto | split; reflexivity]. }
  destruct Hb as [Hbh Hbp].
  unfold url_scheme. cbn [seqs].
  apply (takes_cast _ _ (py "http" ++ (if secure then py "s" else []) ++ py "://"
                          ++ (c :: host) ++ [] ++ tail ++ []));
    [|rewrite !app_nil_r; reflexivity].
  apply (takes_Seq _ _ _ (py "http") _ post id id); [apply takes_lit|].
  apply (takes_Seq _ _ _ (if secure then py "s" else []) _ post id id).
  { destruct secure; [apply takes_Opt, takes_Lit | apply takes_Opt_skip, fails_Lit; reflexivity]. }
  apply (takes_Seq _ _ _ (py "://") _ post id id); [apply takes_lit|].
  apply (takes_Seq _ _ _ (c :: host) _ post id id).
  { apply takes_Plus; [exact Hc | exact Hall|]. cbn [app]. rewrite app_nil_r. exact Hbh. }
  apply (takes_Seq _ _ _ [] _ post id id).
  { apply takes_Opt_skip. unfold Plus. apply fails_Seq, fails_Cls.
    cbn [app]. rewrite app_nil_r. exact Hbp. }
  apply (takes_Seq _ _ _ tail [] post id id); [|apply takes_Eps].
  apply url_tail_takes; assumption.
Qed.

Lemma lstrip_keep (p : ascii -> bool) (c : ascii) (l t : str) :
  p c = false -> exists l', lstrip p (l ++ c :: t) = l' ++ c :: t.
Proof.
  intros Hc. induction l as [|x l [l' IH]]; cbn [app lstrip].
  - rewrite Hc. exists []. reflexivity.
  - destruct (p x); [exists l'; exact IH | exists (x :: l); reflexivity].
Qed.

Lemma rstrip_keep (p : ascii -> bool) (c : ascii) (a b : str) :
  p c = false -> exists b', rstrip p (a ++ c :: b) = a ++ c :: b'.
Proof.
  intros Hc. unfold rstrip. rewrite rev_app_distr. cbn [rev]. rewrite <- app_assoc.
  cbn [app]. destruct (lstrip_keep p c (rev b) (rev a) Hc) as [l' ->].
  exists (rev l'). rewrite rev_app_distr. cbn [rev]. rewrite rev_involutive, <- app_assoc.
  reflexivity.
Qed.

Lemma strip_scheme_url (secure : bool) (rest : str) :
  (5 < length (strip_chars is_url_punct
                 (py "http" ++ (if secure then py "s" else []) ++ py "://" ++ rest)))%nat.
Proof.
  unfold strip_chars.
  assert (Hl : forall s, lstrip is_url_punct (py "http" ++ s) = py "http" ++ s) by reflexivity.
  rewrite Hl.
  destruct secure.
  - destruct (rstrip_keep is_url_punct "/" (py "https:/") rest eq_refl) as [b' Hb].
    change (py "http" ++ py "s" ++ py "://" ++ rest) with (py "https:/" ++ "/"%char :: rest).
    rewrite Hb. rewrite length_app. cbn. lia.
  - destruct (rstrip_keep is_url_punct "/" (py "http:/") rest eq_refl) as [b' Hb].
    change (py "http" ++ [] ++ py "://" ++ rest) with (py "http:/" ++ "/"%char :: rest).
    rewrite Hb. rewrite length_app. cbn. lia.
Qed.

Lemma scheme_url_found (secure : bool) (pre post host tail : str) :
  host <> [] -> Forall (fun x => cls_host x = true) host ->
  (tail = [] \/
   exists path, tail = py "/" ++ path /\ Forall (fun c => cls_path c = true) path) ->
  delimited pre post ->
  let url := py "http" ++ (if secure then py "s" else []) ++ py "://" ++ host ++ tail in
  url ∈ findall0 url_flags url_scheme (pre ++ url ++ post).
Proof.
  intros Hne Hall Htail [Hpre Hpost] url.
  destruct host as [|c host]; [contradiction|]. apply Forall_cons in Hall as [Hc Hall].
  pose proof (url_scheme_takes secure c host tail post Hc Hall Htail Hpost) as Ht.
  fold url in Ht.
  unfold findall0. apply list_elem_of_fmap.
  exists {| whole := url; caps := [] |}. split; [reflexivity|].
  destruct Hpre as [-> | (pre' & w & -> & Hw)].
  - apply finditer_at_start.
    exact (match_at_takes url_flags url_scheme None url post id Ht).
  - rewrite <- app_assoc. cbn [app].
    apply finditer_after_space; [apply space_stops_url_scheme; exact Hw|].
    exact (match_at_takes url_flags url_scheme (Some w) url post id Ht).
Qed.

Lemma lstrip_id (p : ascii -> bool) (s : str) :
  (forall c, head s = Some c -> p c = false) -> lstrip p s = s.
Proof.
  destruct s as [|x t]; [reflexivity|]. intros H. cbn. rewrite (H x eq_refl). reflexivity.
Qed.

Lemma strip_chars_id (p : ascii -> bool) (s : str) :
  (forall c, head s = Some c -> p c = false) ->
  (forall c, last s = Some c -> p c = false) ->
  strip_chars p s = s.
Proof.
  intros Hh Hl. unfold strip_chars, rstrip. rewrite (lstrip_id p s Hh).
  rewrite lstrip_id; [apply rev_involutive|].
  intros c Hc. rewrite head_rev in Hc. apply Hl. exact Hc.
Qed.

(** X19. When a url made of http:// or https://, a non-empty run of host
    characters (word characters, hyphen, dot) and optionally a slash and path
    characters (word characters, slash, dot) stands in the text between
    whitespace or the ends of the text, [extract_urls] returns it with the
    punctuation stripped from its end, and returns it as it is when it ends in
    no punctuation character. *)
Theorem extract_urls_finds_scheme_url (pre post scheme host tail : str) :
  scheme ∈ url_schemes ->
  host <> [] -> Forall (fun c => cls_host c = true) host ->
  (tail = [] \/
   exists path, tail = py "/" ++ path /\ Forall (fun c => cls_path c = true) path) ->
  delimited pre post ->
  let url := scheme ++ host ++ tail in
  strip_chars is_url_punct url ∈ extract_urls (pre ++ url ++ post) /\
  ((forall c, last url = Some c -> is_url_punct c = false) ->
   url ∈ extract_urls (pre ++ url ++ post)).
Proof.
  intros Hs Hne Hall Htail Hd url.
  assert (Hex : exists secure : bool,
            url = py "http" ++ (if secure then py "s" else []) ++ py "://" ++ host ++ tail).
  { unfold url_schemes in Hs. apply elem_of_cons in Hs as [-> | Hs].
    - exists false. reflexivity.
    - apply list_elem_of_singleton in Hs as ->. exists true. reflexivity. }
  destruct Hex as [secure Hurl].
  assert (Hin : strip_chars is_url_punct url ∈ extract_urls (pre ++ url ++ post)).
  { unfold extract_urls. apply elem_of_elements, url_set_spec.
    exists url_scheme, url. split; [left|]. split.
    - rewrite Hurl. apply scheme_url_found; assumption.
    - split; [reflexivity|]. rewrite Hurl. apply strip_scheme_url. }
  split; [exact Hin|]. intros Hlast.
  rewrite strip_chars_id in Hin; [exact Hin| |exact Hlast].
  intros c Hc. rewrite Hurl in Hc. injection Hc as <-. reflexivity.
Qed.

(** ** The commands that are found *)

Lemma word_is_no_space (x : ascii) : is_word x = true -> is_space x = false.
Proof.
  intros H. apply negb_true_iff.
  assert (Hw : within is_word (fun c => negb (is_space c)) = true) by (vm_compute; reflexivity).
  exact (within_spec _ _ x Hw H).
Qed.

Lemma cli_tools_cover (t : str) :
  t ∈ cli_tools ->
  exists tool tools,
    cli tool tools ∈ cli_patterns /\
    forall s, takes cli_flags (alts (lit (py tool)) (words tools)) t s id.
Proof.
  unfold cli_tools. cbn [map]. intros H.
  repeat (apply elem_of_cons in H as [-> | H];
    [ first
        [ exists "docker"%string,
            ["kubectl"; "helm"; "terraform"; "ansible"; "vagrant"; "chef"; "puppet"]%string;
          split; [left|]; intros s; cbn [alts words map];
          solve [repeat first [ apply takes_lit | apply takes_Alt_l; apply takes_lit
                              | apply takes_Alt_r; [apply fails_lit; reflexivity|] ]]
        | exists "aws"%string, ["gcloud"; "az"]%string;
          split; [right; left|]; intros s; cbn [alts words map];
          solve [repeat first [ apply takes_lit | apply takes_Alt_l; apply takes_lit
                              | apply takes_Alt_r; [apply fails_lit; reflexivity|] ]]
        | exists "git"%string, ["svn"; "hg"]%string;
          split; [right; right; left|]; intros s; cbn [alts words map];
          solve [repeat first [ apply takes_lit | apply takes_Alt_l; apply takes_lit
                              | apply takes_Alt_r; [apply fails_lit; reflexivity|] ]]
        | exists "npm"%string, ["yarn"; "pip"; "composer"; "gem"; "cargo"; "go"]%string;
          split; [right; right; right; left|]; intros s; cbn [alts words map];
          solve [repeat first [ apply takes_lit | apply takes_Alt_l; apply takes_lit
                              | apply takes_Alt_r; [apply fails_lit; reflexivity|] ]] ]
    | ]).
  apply elem_of_nil in H. contradiction.
Qed.

Lemma cli_body_takes (A : regex) (t ws post : str) (x : ascii) :
  (forall s, takes cli_flags A t s id) ->
  ws <> [] -> Forall (fun c => is_space c = true) ws -> is_word x = true ->
  exists body rest g,
    t ++ ws ++ x :: post = body ++ rest /\
    takes cli_flags (seqs [Grp 1 A; Plus is_space; Plus is_word]) body rest g.
Proof.
  intros HA Hne Hws Hx. destruct ws as [|w ws]; [contradiction|].
  apply Forall_cons in Hws as [Hw Hws].
  destruct (run_of is_word post) as (run & rest & -> & Hrun & Hb).
  exists (t ++ (w :: ws) ++ (x :: run) ++ []), rest. eexists. split.
  - rewrite app_nil_r, <- !app_assoc. reflexivity.
  - cbn [seqs].
    eapply (takes_Seq _ _ _ t _ rest); [apply takes_Grp, HA|].
    eapply (takes_Seq _ _ _ (w :: ws) _ rest).
    + apply takes_Plus; [exact Hw | exact Hws|]. cbn. rewrite (word_is_no_space x Hx).
      reflexivity.
    + eapply (takes_Seq _ _ _ (x :: run) [] rest); [|apply takes_Eps].
      apply takes_Plus; assumption.
Qed.

Lemma match_at_bol_start (fl : flags) (r1 r2 : regex) (s : str) :
  is_Some (match_at fl r2 None s) -> is_Some (match_at fl (Seq (Alt Bol r1) r2) None s).
Proof.
  unfold match_at. cbn [rmatch at_bol m_prev].
  destruct (rmatch fl r2 _ _); [eauto | intros [? [=]]].
Qed.

Lemma invoked_match (tool : string) (tools : list string) (t ws post : str) (x : ascii) :
  (forall s, takes cli_flags (alts (lit (py tool)) (words tools)) t s id) ->
  ws <> [] -> Forall (fun c => is_space c = true) ws -> is_word x = true ->
  is_Some (match_at cli_flags (cli tool tools) None (t ++ ws ++ x :: post)) /\
  forall prev sp, is_space sp = true ->
    is_Some (match_at cli_flags (cli tool tools) prev (sp :: t ++ ws ++ x :: post)).
Proof.
  intros HA Hne Hws Hx.
  destruct (cli_body_takes _ t ws post x HA Hne Hws Hx) as (body & rest & g & Heq & Ht).
  rewrite Heq. unfold cli. cbn [seqs] in *. split.
  - apply match_at_bol_start. erewrite match_at_takes; [eauto | exact Ht].
  - intros prev sp Hsp. apply match_at_alt_bol.
    change (sp :: body ++ rest) with (([sp] ++ body) ++ rest).
    erewrite match_at_takes; [eauto|].
    eapply (takes_Seq _ _ _ [sp] body rest); [apply takes_Cls; exact Hsp | exact Ht].
Qed.

Lemma last_Some_snoc {A} (l : list A) (x : A) : last l = Some x -> exists l', l = l' ++ [x].
Proof.
  intros H. destruct l as [|a l] using rev_ind; [discriminate|].
  rewrite last_snoc in H. injection H as ->. eauto.
Qed.

(** X20. [extract_commands] finds a command exactly when the name of one of the
    tools stands in the text at the start or after a whitespace character and
    is followed by whitespace and a word character. *)
Theorem extract_commands_found_iff (text : str) :
  extract_commands text <> [] <-> exists tool, tool ∈ cli_tools /\ invoked tool text.
Proof.
  split.
  - intros Hne. destruct (extract_commands text) as [|c cs] eqn:E; [contradiction|].
    assert (Hc : c ∈ extract_commands text) by (rewrite E; left).
    apply extract_commands_elem in Hc as [H1 H2]. eauto.
  - intros (t & Ht & pre & ws & x & post & -> & Hpre & Hne & Hws & Hx).
    destruct (cli_tools_cover t Ht) as (tool & tools & Hp & HA).
    destruct (invoked_match tool tools t ws post x HA Hne Hws Hx) as [Hstart Hafter].
    assert (Hfind : finditer cli_flags (cli tool tools) (pre ++ t ++ ws ++ x :: post) <> []).
    { destruct Hpre as [-> | (sp & Hlast & Hsp)].
      - apply (finditer_nonempty _ _ []). exact Hstart.
      - apply last_Some_snoc in Hlast as [pre' ->]. rewrite <- app_assoc. cbn [app].
        apply finditer_nonempty. apply Hafter. exact Hsp. }
    destruct (extract_commands_nonempty _ _ Hp Hfind) as [c Hc].
    intros Hnil. rewrite Hnil in Hc. apply elem_of_nil in Hc. exact Hc.
Qed.

(** ** The snippets that are found *)

(** A lazy star stops at the first position at which the rest of the pattern
    matches. *)
Lemma star_lazy_run (p : ascii -> bool) (k : cont) (caps : list (nat * str))
    (run rest : str) (res : mstate) : forall (prev : option ascii) (pos : nat),
  Forall (fun c => p c = true) run ->
  (forall a b, run = a ++ b -> b <> [] -> k (after prev a (b ++ rest) pos caps) = None) ->
  k (after prev run rest pos caps) = Some res ->
  star_lazy p k caps prev pos (run ++ rest) = Some res.
Proof.
  induction run as [|c run IH]; intros prev pos Hall Hnone Hk.
  - unfold after in Hk. cbn in Hk. rewrite Nat.add_0_r in Hk.
    cbn [app]. destruct rest; cbn [star_lazy]; rewrite Hk; reflexivity.
  - apply Forall_cons in Hall as [Hc Hall]. cbn [app star_lazy].
    pose proof (Hnone [] (c :: run) eq_refl) as H0. unfold after in H0. cbn in H0.
    rewrite Nat.add_0_r in H0. rewrite H0 by discriminate. rewrite Hc.
    apply IH; [exact Hall| |].
    + intros a b -> Hb. specialize (Hnone (c :: a) b eq_refl Hb).
      unfold after in *. rewrite last_or_cons in Hnone. cbn [length] in Hnone.
      replace (S pos + length a) with (pos + S (length a)) by lia. exact Hnone.
    + unfold after in *. rewrite last_or_cons in Hk. cbn [length] in Hk.
      replace (S pos + length run) with (pos + S (length run)) by lia. exact Hk.
Qed.

Lemma takes_then (fl : flags) (r1 r2 : regex) (s1 s2 : str) g (k : cont) prev pos caps res :
  takes fl r1 s1 s2 g ->
  rmatch fl r2 (after prev s1 s2 pos (g caps)) k = Some res ->
  rmatch fl (Seq r1 r2) {| m_prev := prev; m_rest := s1 ++ s2; m_pos := pos; m_caps := caps |} k
  = Some res.
Proof. intros H1 H2. cbn [rmatch]. apply H1. exact H2. Qed.

Lemma fails_Grp (fl : flags) (n : nat) (r : regex) (s : str) :
  fails fl r s -> fails fl (Grp n r) s.
Proof. intros H k prev pos caps. cbn [rmatch]. apply H. Qed.

Lemma match_at_fails (fl : flags) (r : regex) (prev : option ascii) (s : str) :
  fails fl r s -> match_at fl r prev s = None.
Proof. intros H. unfold match_at. rewrite H. reflexivity. Qed.

Lemma no_backtick_eqb (c : ascii) : c <> "`"%char -> Ascii.eqb "`" c = false.
Proof. intros H. apply Ascii.eqb_neq. congruence. Qed.

(** The end of a fenced block does not match inside a body without a
    backtick. *)
Lemma fence_end_fails (b post : str) :
  b <> [] -> (forall c, c ∈ b -> c <> "`"%char) ->
  fails no_flags (seqs [Lit "010"; lit (py "```")]) (b ++ newline ++ py "```" ++ post).
Proof.
  intros Hne Hb. destruct b as [|c b]; [contradiction|].
  intros k prev pos caps. cbn [seqs rmatch app]. unfold step at 1.
  cbn [m_rest m_pos m_caps]. destruct (lit_eq no_flags "010" c); [|reflexivity].
  rewrite rmatch_lit. cbn [m_rest].
  destruct b as [|d b]; [reflexivity|]. cbn [app startswith py list_ascii_of_string].
  rewrite (no_backtick_eqb d); [reflexivity|]. apply Hb. right. left.
Qed.

Lemma code_block_match_at (prev : option ascii) (tag body post : str) :
  Forall (fun c => is_word c = true) tag ->
  (forall c, c ∈ body -> c <> "`"%char) ->
  exists m,
    match_at no_flags code_block_pattern prev (fenced_block tag body ++ post) = Some m /\
    group 1 m = tag /\ group 2 m = body.
Proof.
  intros Htag Hbody.
  set (g1 := fun caps : list (nat * str) =>
               match tag with [] => caps | _ => (1, tag) :: caps end).
  assert (Hopt : forall s, takes no_flags (Opt (Grp 1 (Plus is_word))) tag (newline ++ s) g1).
  { intros s. subst g1. destruct tag as [|c tg].
    - apply takes_Opt_skip, fails_Grp. unfold Plus. apply fails_Seq, fails_Cls. reflexivity.
    - apply Forall_cons in Htag as [Hc Htg].
      apply takes_Opt. apply (takes_Grp _ 1 _ (c :: tg) _ id).
      apply takes_Plus; [exact Hc | exact Htg | reflexivity]. }
  set (tail := seqs [Lit "010"; lit (py "```")]).
  assert (Htail : takes no_flags tail (newline ++ py "```") post id).
  { subst tail. cbn [seqs].
    apply (takes_cast _ _ (newline ++ py "```" ++ [])); [|reflexivity].
    apply (takes_Seq _ _ _ newline _ post id id); [apply takes_Lit|].
    apply (takes_Seq _ _ _ (py "```") [] post id id); [apply takes_lit | apply takes_Eps]. }
  set (res := after prev (fenced_block tag body) post 0 ((2, body) :: g1 [])).
  assert (Hr : rmatch no_flags code_block_pattern
                 {| m_prev := prev; m_rest := fenced_block tag body ++ post; m_pos := 0;
                    m_caps := [] |} Some = Some res).
  { unfold code_block_pattern, fenced_block. cbn [seqs]. rewrite <- !app_assoc.
    eapply takes_then; [apply takes_lit|].
    unfold after at 1. eapply takes_then; [apply Hopt|].
    unfold after at 1. eapply takes_then; [apply takes_Lit|].
    unfold after at 1. fold tail.
    change (rmatch no_flags (Seq (Grp 2 (LazyStar cls_any)) tail) ?st Some)
      with (star_lazy cls_any
              (fun st' => rmatch no_flags tail
                            (set_cap 2 (firstn (m_pos st' - m_pos st) (m_rest st)) st') Some)
              (m_caps st) (m_prev st) (m_pos st) (m_rest st)).
    cbn [m_caps m_prev m_pos m_rest].
    apply star_lazy_run.
    - apply Forall_forall. reflexivity.
    - intros a b -> Hb. unfold after, set_cap. cbn [m_caps m_prev m_pos m_rest].
      apply (fence_end_fails b post Hb). intros c Hc. apply Hbody.
      apply elem_of_app. right. exact Hc.
    - unfold after at 1, set_cap. cbn [m_caps m_prev m_pos m_rest].
      match goal with |- context [firstn ?n (body ++ ?s)] =>
        replace n with (length body) by lia end.
      rewrite take_app_length.
      change (newline ++ py "```" ++ post) with ((newline ++ py "```") ++ post).
      apply Htail. unfold res, after, fenced_block. cbn [m_caps m_prev m_pos m_rest].
      f_equal. f_equal.
      + rewrite <- !last_or_app. reflexivity.
      + rewrite !length_app. cbn [length]. lia. }
  unfold match_at. rewrite Hr. eexists. split; [reflexivity|].
  unfold group, res, after. cbn [caps m_caps]. subst g1.
  destruct tag; split; reflexivity.
Qed.

Lemma no_backtick_no_code_block (prev : option ascii) (c : ascii) (tail : str) :
  c <> "`"%char -> match_at no_flags code_block_pattern prev (c :: tail) = None.
Proof.
  intros Hc. apply match_at_fails. unfold code_block_pattern. cbn [seqs].
  apply fails_Seq, fails_lit; [reflexivity|].
  cbn [startswith py list_ascii_of_string]. rewrite (no_backtick_eqb c Hc). reflexivity.
Qed.

Lemma no_backtick_no_inline (prev : option ascii) (c : ascii) (tail : str) :
  c <> "`"%char -> match_at no_flags inline_pattern prev (c :: tail) = None.
Proof.
  intros Hc. apply match_at_fails. unfold inline_pattern. cbn [seqs].
  apply fails_Seq, fails_Lit. cbn [blocked]. rewrite lit_eq_no_flags, (no_backtick_eqb c Hc).
  reflexivity.
Qed.

(** X21. When a fenced block whose tag is made of word characters and whose body
    holds no backtick stands in the text and no backtick stands before it,
    the first code snippet is the entry of that block: the tag as language
    (unknown for no tag), the stripped body as code, confidence 0.9. *)
Theorem code_block_found (pre tag body post : str) :
  (forall c, c ∈ pre -> c <> "`"%char) ->
  Forall (fun c => is_word c = true) tag ->
  (forall c, c ∈ body -> c <> "`"%char) ->
  head (extract_code_snippets (pre ++ fenced_block tag body ++ post))
  = Some (block_snippet tag body).
Proof.
  intros Hpre Htag Hbody.
  destruct (code_block_match_at (last_or None pre) tag body post Htag Hbody)
    as (m & Hm & H1 & H2).
  assert (Hhead : head (finditer no_flags code_block_pattern
                          (pre ++ fenced_block tag body ++ post)) = Some m).
  { unfold finditer. rewrite scan_skip.
    - apply scan_head. exact Hm.
    - intros prev' c tail Hc. apply no_backtick_no_code_block, Hpre. exact Hc. }
  unfold extract_code_snippets, findall2.
  destruct (finditer no_flags code_block_pattern (pre ++ fenced_block tag body ++ post))
    as [|m' ms]; [discriminate|].
  injection Hhead as ->. cbn [map app head]. rewrite H1, H2. reflexivity.
Qed.

Lemma inline_takes (body post : str) :
  body <> [] -> (forall c, c ∈ body -> c <> "`"%char) ->
  takes no_flags inline_pattern (py "`" ++ body ++ py "`") post
        (fun caps => (1, body) :: caps).
Proof.
  intros Hne Hbody. destruct body as [|c body]; [contradiction|].
  assert (Hnb : forall x, x ∈ c :: body -> cls_not_backtick x = true).
  { intros x Hx. unfold cls_not_backtick, chr_in. cbn.
    rewrite Ascii.eqb_sym, (no_backtick_eqb x (Hbody x Hx)). reflexivity. }
  unfold inline_pattern. cbn [seqs].
  apply (takes_cast _ _ (py "`" ++ (c :: body) ++ py "`" ++ [])); [|reflexivity].
  apply (takes_Seq _ _ _ (py "`") _ post id (fun caps => (1, c :: body) :: caps));
    [apply takes_Lit|].
  apply (takes_Seq _ _ _ (c :: body) _ post (fun caps => (1, c :: body) :: caps) id).
  - apply (takes_Grp _ 1 _ (c :: body) _ id). apply takes_Plus.
    + apply Hnb. left.
    + apply Forall_forall. intros x Hx. apply Hnb. right. exact Hx.
    + reflexivity.
  - apply (takes_Seq _ _ _ (py "`") [] post id id); [apply takes_Lit | apply takes_Eps].
Qed.

(** X22. When a non-empty piece without a backtick stands between two backticks
    and no backtick stands before it, and the stripped piece has more than
    two characters, the code snippets hold its entry of type inline_code. *)
Theorem inline_code_found (pre body post : str) :
  (forall c, c ∈ pre -> c <> "`"%char) ->
  body <> [] -> (forall c, c ∈ body -> c <> "`"%char) ->
  (2 < length (strip body))%nat ->
  inline_snippet body ∈ extract_code_snippets (pre ++ py "`" ++ body ++ py "`" ++ post).
Proof.
  intros Hpre Hne Hbody Hlen.
  pose proof (match_at_takes no_flags inline_pattern (last_or None pre) _ post _
                (inline_takes body post Hne Hbody)) as Hm.
  assert (Hin : body ∈ findall1 no_flags inline_pattern
                          (pre ++ py "`" ++ body ++ py "`" ++ post)).
  { unfold findall1, finditer. rewrite scan_skip.
    - apply list_elem_of_fmap. eexists. split; [|apply head_Some_elem_of, scan_head].
      2:{ rewrite <- app_assoc in Hm. rewrite <- app_assoc in Hm. exact Hm. }
      reflexivity.
    - intros prev' c tail Hc. apply no_backtick_no_inline, Hpre. exact Hc. }
  unfold extract_code_snippets. apply elem_of_app. right.
  apply list_elem_of_In, in_flat_map. exists body. split; [apply list_elem_of_In; exact Hin|].
  apply Nat.ltb_lt in Hlen. rewrite Hlen. left. reflexivity.
Qed.

Import Report.

(** ** The conversion of the report to html *)

Lemma replace_from_elem (old new : str) (x : ascii) (s : str) : forall skip,
  x ∈ replace_from old new skip s -> x ∈ s \/ x ∈ new.
Proof.
  induction s as [|c t IH]; intros skip H; cbn [replace_from] in H.
  - apply elem_of_nil in H. contradiction.
  - destruct skip as [|n].
    + destruct (startswith old (c :: t)).
      * apply elem_of_app in H as [H | H]; [right; exact H|].
        apply IH in H as [H | H]; [left; right; exact H | right; exact H].
      * apply elem_of_cons in H as [-> | H]; [left; left|].
        apply IH in H as [H | H]; [left; right; exact H | right; exact H].
    + apply IH in H as [H | H]; [left; right; exact H | right; exact H].
Qed.

Lemma replace_elem (old new : str) (x : ascii) (s : str) :
  x ∈ replace old new s -> x ∈ s \/ x ∈ new.
Proof. apply replace_from_elem. Qed.

(** After a character has been replaced by a text that does not hold it, it
    is gone. *)
Lemma replace_char_gone (c : ascii) (new s : str) :
  c ∉ new -> c ∉ replace [c] new s.
Proof.
  intros Hnew. unfold replace. induction s as [|x t IH]; cbn [replace_from].
  - apply not_elem_of_nil.
  - cbn [startswith length Nat.sub]. rewrite andb_true_r.
    destruct (Ascii.eqb c x) eqn:E.
    + intros H. apply elem_of_app in H as [H | H]; contradiction.
    + apply Ascii.eqb_neq in E. intros H. apply elem_of_cons in H as [H | H]; auto.
Qed.

(** A text in which the first character of [old] does not occur is left as
    it is. *)
Lemma replace_absent (o : ascii) (old new s : str) :
  o ∉ s -> replace (o :: old) new s = s.
Proof.
  unfold replace. induction s as [|x t IH]; intros H; cbn [replace_from]; [reflexivity|].
  apply not_elem_of_cons in H as [Hx Ht]. cbn [startswith].
  rewrite (proj2 (Ascii.eqb_neq o x) Hx). cbn [andb]. rewrite (IH Ht). reflexivity.
Qed.

(** X23. The content of the html report holds no hash sign and no newline:
    every one of them in the markdown report is replaced, also inside a name
    or a url; and a markdown text that holds neither is left as it is (nothing
    is escaped). *)
Theorem html_content_markup (markdown_content : str) :
  (forall c, c ∈ html_content markdown_content -> c <> "#"%char /\ c <> "010"%char) /\
  ((forall c, c ∈ markdown_content -> c <> "#"%char /\ c <> "010"%char) ->
   html_content markdown_content = markdown_content).
Proof.
  unfold html_content. split.
  - intros c Hc. split.
    + intros ->. revert Hc. apply replace_char_gone.
      apply (bool_decide_unpack _). vm_compute. reflexivity.
    + intros ->. apply replace_elem in Hc as [Hc | Hc];
        [|revert Hc; apply (bool_decide_unpack _); vm_compute; reflexivity].
      apply replace_elem in Hc as [Hc | Hc];
        [|revert Hc; apply (bool_decide_unpack _); vm_compute; reflexivity].
      revert Hc. apply (replace_char_gone "010").
      apply (bool_decide_unpack _). vm_compute. reflexivity.
  - intros Hno.
    assert (H1 : "010"%char ∉ markdown_content) by (intros H; apply Hno in H as [_ H]; auto).
    assert (H2 : "#"%char ∉ markdown_content) by (intros H; apply Hno in H as [H _]; auto).
    unfold newline. rewrite (replace_absent "010" [] _ _ H1).
    change (py "##") with ("#"%char :: py "#"). rewrite (replace_absent "#" _ _ _ H2).
    change (py "#") with ("#"%char :: []). rewrite (replace_absent "#" _ _ _ H2).
    reflexivity.
Qed.

(** ** The further theorems at concrete inputs *)

Lemma extract_entities_entry_witness :
  entity_React
    = scored_entity init (lower (py "vue and react")) (split (lower (py "vue and react")))
        (py "React") /\
  first_spelling (py "react") small_lexicon = Some (py "React") /\
  substring (py "react") (py "vue and react").
Proof.
  apply (extract_entities_entry init (py "vue and react") small_lexicon entity_React).
  assert (Hres : extract_entities_by_category init (py "vue and react") small_lexicon
                 = [entity_React; entity_vue]) by (vm_compute; reflexivity).
  rewrite Hres. left.
Defined.

Lemma reported_category_known_witness :
  Entity.category (scored_entity init (lower sample_text) (split (lower sample_text))
                     (py "react")) <> unknown.
Proof.
  apply (reported_category_known init sample_text 1
           (framework_library, frameworks_libraries init)
           (scored_entity init (lower sample_text) (split (lower sample_text)) (py "react"))).
  - reflexivity.
  - apply (bool_decide_unpack _). vm_compute. reflexivity.
  - assert (Hres : extract_entities_by_category init sample_text (frameworks_libraries init)
                   = [scored_entity init (lower sample_text) (split (lower sample_text))
                        (py "react")]) by (vm_compute; reflexivity).
    cbn [snd]. rewrite Hres. left.
Defined.

Lemma multiword_term_no_context_bonus_witness :
  ~ keyword_in_context (split (py "using machine learning")) (py "machine learning").
Proof.
  apply (multiword_term_no_context_bonus (py "using machine learning") (py "machine learning")).
  apply (bool_decide_unpack _). vm_compute. reflexivity.
Defined.

Lemma process_text_scores_witness :
  Result.confidence_scores (process_text init (Some sample_text)) !! "url_extraction"%string
  = Some (if nonempty (Result.urls (process_text init (Some sample_text)))
          then 95 # 100 else 0)%Q.
Proof.
  apply (process_text_scores init sample_text). discriminate.
Defined.

Lemma tools_are_frameworks_and_platforms_witness :
  map Entity.text (Result.tools_and_software (process_text init (Some sample_text))) =
    Result.frameworks_and_libraries (process_text init (Some sample_text))
    ++ Result.platforms_and_services (process_text init (Some sample_text)).
Proof.
  apply (tools_are_frameworks_and_platforms init (Some sample_text)).
  intros term H. exact H.
Defined.

Lemma extract_urls_pieces_witness :
  substring repo_url (py "Check out " ++ repo_url ++ py " and www.example.com") /\
  Forall (fun c => url_char c = true) repo_url.
Proof.
  apply (extract_urls_pieces (py "Check out " ++ repo_url ++ py " and www.example.com")
           repo_url).
  apply (bool_decide_unpack _). vm_compute. reflexivity.
Defined.

Lemma extract_urls_need_dot_or_colon_witness :
  extract_urls (py "no links in this text") = [].
Proof.
  apply (extract_urls_need_dot_or_colon (py "no links in this text")).
  apply Forall_forall. apply (bool_decide_unpack _). vm_compute. reflexivity.
Defined.

Lemma code_snippets_need_backtick_witness :
  extract_code_snippets sample_text = [].
Proof.
  apply (code_snippets_need_backtick sample_text).
  apply Forall_forall. apply (bool_decide_unpack _). vm_compute. reflexivity.
Defined.

Lemma extract_commands_tools_witness :
  py "npm" ∈ cli_tools /\ invoked (py "npm") npm_command /\
  "cli_command"%string = "cli_command"%string /\ ((8 # 10) = (8 # 10))%Q.
Proof.
  apply (extract_commands_tools npm_command
           {| Command.command := py "npm"; Command.type := "cli_command";
              Command.confidence := (8 # 10)%Q |}).
  assert (Hres : extract_commands npm_command
                 = [ {| Command.command := py "npm"; Command.type := "cli_command";
                        Command.confidence := (8 # 10)%Q |} ]) by (vm_compute; reflexivity).
  rewrite Hres. left.
Defined.

Lemma process_text_whitespace_witness :
  Result.urls (process_text init (Some (py "   "))) = [] /\
  Result.tools_and_software (process_text init (Some (py "   "))) = [] /\
  Forall (fun names => names = []) (name_lists (process_text init (Some (py "   ")))) /\
  Result.code_snippets (process_text init (Some (py "   "))) = [] /\
  Result.commands (process_text init (Some (py "   "))) = [] /\
  forall key, key ∈ score_keys ->
    exists q, Result.confidence_scores (process_text init (Some (py "   "))) !! key = Some q /\
              (q == 0)%Q.
Proof.
  apply (process_text_whitespace init (py "   ")).
  - vm_compute. reflexivity.
  - discriminate.
  - apply (bool_decide_unpack _). vm_compute. reflexivity.
Defined.

Lemma extract_video_id_from_url_witness :
  extract_video_id (video_url (py "dQw4w9WgXcQ")) = Some (py "dQw4w9WgXcQ").
Proof.
  apply (extract_video_id_from_url (py "dQw4w9WgXcQ")).
  - discriminate.
  - apply (bool_decide_unpack _). vm_compute. reflexivity.
Defined.

Lemma extract_video_id_direct_witness :
  extract_video_id (py "dQw4w9WgXcQ") = Some (py "dQw4w9WgXcQ").
Proof.
  apply (extract_video_id_direct (py "dQw4w9WgXcQ") (py "dQw4w9WgXcQ")).
  - apply Forall_forall. apply (bool_decide_unpack _). vm_compute. reflexivity.
  - split; [left; reflexivity|]. split; [reflexivity|].
    apply (bool_decide_unpack _). vm_compute. reflexivity.
Defined.

Lemma extract_video_id_shape_witness :
  exists marker,
    marker ∈ video_markers /\
    substring (marker ++ py "dQw4w9WgXcQ") (py "https://youtu.be/dQw4w9WgXcQ?t=42").
Proof.
  destruct (extract_video_id_shape (py "https://youtu.be/dQw4w9WgXcQ?t=42")
              (py "dQw4w9WgXcQ")) as (_ & _ & [H | H]).
  - vm_compute. reflexivity.
  - exact H.
  - exfalso. destruct H as [[H | H] _]; discriminate H.
Defined.

Lemma extract_urls_finds_scheme_url_witness :
  py "https://docs.example.com/guide"
    ∈ extract_urls (py "Documentation: " ++ py "https://docs.example.com/guide" ++ py " (new)").
Proof.
  apply (extract_urls_finds_scheme_url (py "Documentation: ") (py " (new)")
           (py "https://") (py "docs.example.com") (py "/guide")).
  - right. left.
  - discriminate.
  - apply (bool_decide_unpack _). vm_compute. reflexivity.
  - right. exists (py "guide"). split; [reflexivity|].
    apply (bool_decide_unpack _). vm_compute. reflexivity.
  - split.
    + right. exists (py "Documentation:"), " "%char. split; reflexivity.
    + right. exists " "%char, (py "(new)"). split; reflexivity.
  - intros c [= <-]. reflexivity.
Defined.

Lemma code_block_found_witness :
  head (extract_code_snippets
          (py "Example:" ++ fenced_block (py "python") (py "print(1)") ++ py " done"))
  = Some (block_snippet (py "python") (py "print(1)")).
Proof.
  apply (code_block_found (py "Example:") (py "python") (py "print(1)") (py " done")).
  - apply Forall_forall. apply (bool_decide_unpack _). vm_compute. reflexivity.
  - apply (bool_decide_unpack _). vm_compute. reflexivity.
  - apply Forall_forall. apply (bool_decide_unpack _). vm_compute. reflexivity.
Defined.

Lemma inline_code_found_witness :
  inline_snippet (py "pip install x")
    ∈ extract_code_snippets (py "run " ++ py "`" ++ py "pip install x" ++ py "`" ++ py " now").
Proof.
  apply (inline_code_found (py "run ") (py "pip install x") (py " now")).
  - apply Forall_forall. apply (bool_decide_unpack _). vm_compute. reflexivity.
  - discriminate.
  - apply Forall_forall. apply (bool_decide_unpack _). vm_compute. reflexivity.
  - vm_compute. lia.
Defined.

Lemma extract_entities_order_independent_witness :
  extract_entities_by_category init (py "vue and react") [py "vue"; py "react"] ≡ₚ
  extract_entities_by_category init (py "vue and react") [py "react"; py "vue"].
Proof.
  apply (extract_entities_order_independent init (py "vue and react")
           [py "vue"; py "react"] [py "react"; py "vue"]).
  - apply Permutation_swap.
  - apply (bool_decide_unpack _). vm_compute. reflexivity.
Defined.

(** The lower-cased terms of each lexicon of [setup_knowledge_bases] are
    distinct, and none is made of whitespace only. *)
Example shipped_lexicons_distinct :
  Forall (fun entry : Category * list str => NoDup (map lower entry.2)) (priority_order init) /\
  terms_visible init = true.
Proof.
  split; [|vm_compute; reflexivity].
  apply (bool_decide_unpack _). vm_compute. reflexivity.
Qed.
